(** * A shallow embedding of [app.py]

    The development follows the three classes of the program:
    [AnimeIndex] (the read-only catalogue and its search), [CacheManager]
    (the persistent cache) and [AnimePaheBackend] (episode lists, title
    cleaning, de-duplication and the iframe resolver).

    Conventions.
    - A Python [str] is a [string]; the character-level behaviour
      (white space, digits, case, word characters) is the ASCII one.
    - A JSON object whose keys the code reads with [.get] or tests with
      [in] is a record of [option] fields: [None] is an absent key.
    - The scores of the search are computed over [Q]; the library calls
      of the search ([str.lower], the NFKD/ASCII folding and
      [SequenceMatcher.ratio]) are parameters of the search section.
    - Code that can raise returns a [Py.result]; code that mutates an
      object returns the new state next to its value. *)

From Stdlib Require Import ZArith QArith Lqa Bool List Ascii String.
From stdpp Require Import base option list sorting gmap strings pretty.

Local Open Scope string_scope.
Local Open Scope Z_scope.
Local Open Scope list_scope.

(** ** Python primitives *)

Module Py.

Inductive exn : Type :=
| KeyError (key : string)
| ValueError
| TypeError
| OverflowError.

Inductive result (A : Type) : Type :=
| Ok (a : A)
| Raise (e : exn).
Arguments Ok {A} a.
Arguments Raise {A} e.

(** [l[start:stop]] with integer bounds: a negative bound counts from the
    end, and both are clamped to the list. *)
Definition slice_bound (len i : Z) : Z :=
  if i <? 0 then Z.max 0 (len + i) else Z.min i len.

Definition slice {A : Type} (l : list A) (start stop : Z) : list A :=
  let len := Z.of_nat (length l) in
  let lo := slice_bound len start in
  let hi := slice_bound len stop in
  take (Z.to_nat (hi - lo)) (drop (Z.to_nat lo) l).

(** [list.sort(key=...)]: the keys are all computed first, left to right;
    if one of them raises, the list is left as it was.  Otherwise the
    list is sorted by [<] on the keys, stably. *)
Section Sort.
Context {K : Type} (lt : K → K → bool).

Fixpoint insert_by {A : Type} (key : A → K) (x : A) (l : list A) : list A :=
  match l with
  | [] => [x]
  | y :: l' => if lt (key y) (key x) then y :: insert_by key x l' else x :: l
  end.

Definition sort_by {A : Type} (key : A → K) (l : list A) : list A :=
  foldr (insert_by key) [] l.

Fixpoint keys_of {A : Type} (key : A → result K) (l : list A) : result (list K) :=
  match l with
  | [] => Ok []
  | x :: l' =>
      match key x with
      | Raise e => Raise e
      | Ok k =>
          match keys_of key l' with
          | Raise e => Raise e
          | Ok ks => Ok (k :: ks)
          end
      end
  end.

Definition sort_key {A : Type} (key : A → result K) (l : list A) : result (list A) :=
  match keys_of key l with
  | Raise e => Raise e
  | Ok ks => Ok ((sort_by fst (zip ks l)).*2)
  end.
End Sort.

(** *** Characters and strings *)

Definition code (c : ascii) : N := N_of_ascii c.

Definition isspace (c : ascii) : bool :=
  let n := code c in
  ((9 <=? n)%N && (n <=? 13)%N) || ((28 <=? n)%N && (n <=? 32)%N).

Definition is_digit (c : ascii) : bool :=
  let n := code c in (48 <=? n)%N && (n <=? 57)%N.

Definition is_upper (c : ascii) : bool :=
  let n := code c in (65 <=? n)%N && (n <=? 90)%N.

Definition is_lower (c : ascii) : bool :=
  let n := code c in (97 <=? n)%N && (n <=? 122)%N.

Definition lower_char (c : ascii) : ascii :=
  if is_upper c then ascii_of_N (code c + 32) else c.

Fixpoint all_chars (p : ascii → bool) (s : string) : bool :=
  match s with
  | EmptyString => true
  | String c s' => p c && all_chars p s'
  end.

(** [s.isdigit()] *)
Definition isdigit (s : string) : bool :=
  negb (s =? "")%string && all_chars is_digit s.

(** [s.startswith(p)] *)
Definition startswith (s p : string) : bool := String.prefix p s.

(** [needle in hay] *)
Fixpoint contains (needle hay : string) : bool :=
  String.prefix needle hay ||
  match hay with
  | EmptyString => false
  | String _ hay' => contains needle hay'
  end.

Fixpoint lstrip (s : string) : string :=
  match s with
  | EmptyString => EmptyString
  | String c s' => if isspace c then lstrip s' else s
  end.

Fixpoint rstrip (s : string) : string :=
  match s with
  | EmptyString => EmptyString
  | String c s' =>
      match rstrip s' with
      | EmptyString => if isspace c then EmptyString else String c EmptyString
      | r => String c r
      end
  end.

(** [s.strip()] *)
Definition strip (s : string) : string := rstrip (lstrip s).

(** [s.split()]: the maximal runs of non-space characters. *)
Fixpoint split_go (tok s : string) : list string :=
  match s with
  | EmptyString => if (tok =? "")%string then [] else [tok]
  | String c s' =>
      if isspace c
      then (if (tok =? "")%string then split_go "" s' else tok :: split_go "" s')
      else split_go (tok +:+ String c "") s'
  end.

Definition split (s : string) : list string := split_go "" s.

(** [sep.join(l)] *)
Definition join (sep : string) (l : list string) : string := String.concat sep l.

(** [s.lower()] *)
Fixpoint lower (s : string) : string :=
  match s with
  | EmptyString => EmptyString
  | String c s' => String (lower_char c) (lower s')
  end.

(** [s.replace(old, new)] for a non-empty [old]: the occurrences of
    [old] are replaced from the left, without overlap.  [skip] counts the
    characters of an occurrence that are still to be passed. *)
Fixpoint replace_go (old new : string) (skip : nat) (s : string) : string :=
  match s with
  | EmptyString => EmptyString
  | String c s' =>
      match skip with
      | S k => replace_go old new k s'
      | O =>
          if String.prefix old s
          then new +:+ replace_go old new (String.length old - 1) s'
          else String c (replace_go old new O s')
      end
  end.

Definition replace (old new s : string) : string := replace_go old new O s.

(** [float(n)] for an integer [n]: the double nearest to [n], ties going
    to the even significand, given as the integer it stands for.  An
    integer below 2^53 in magnitude is its own double; beyond, the 53
    leading bits are kept and the rest is rounded; when the rounded value
    reaches 2^1024 the conversion raises [OverflowError]. *)
Definition float_of_int (n : Z) : result Z :=
  let a := Z.abs n in
  if a <? 2 ^ 53 then Ok n
  else
    let shift := Z.log2 a - 52 in
    let q := Z.shiftr a shift in
    let r := Z.land a (Z.ones shift) in
    let half := Z.shiftl 1 (shift - 1) in
    let q := if (half <? r) || ((half =? r) && Z.odd q) then q + 1 else q in
    let v := Z.shiftl q shift in
    if 2 ^ 1024 <=? v then Raise OverflowError else Ok (Z.sgn n * v).

End Py.

(** ** The fragment of [re] used by the title cleaner

    Patterns are matched as [re] does with [flags=re.IGNORECASE]: by
    backtracking, leftmost alternative first.  The matcher is written
    with a continuation that receives the position reached: the
    character just before it (for [^] and [\b]) and the text that is
    left. *)

Module Re.

Inductive regex : Type :=
| Eps
| Lit (c : ascii)              (* a literal character, case ignored *)
| Set_ (p : ascii → bool)      (* a character set: [\s], [\d], [.], [[-:]] *)
| Bol                          (* [^] *)
| Eol                          (* [$] *)
| WordB                        (* [\b] *)
| Cat (r1 r2 : regex)
| Opt (r : regex)              (* [r?] *)
| Star (p : ascii → bool)      (* [c*] over a character set, greedy *)
| LazyStar (p : ascii → bool). (* [c*?] over a character set *)

Definition position : Type := option ascii * string.
Definition cont : Type := option ascii → string → option position.

Definition is_word (c : ascii) : bool :=
  Py.is_digit c || Py.is_upper c || Py.is_lower c || (Py.code c =? 95)%N.

Definition word_before (prev : option ascii) : bool :=
  match prev with Some c => is_word c | None => false end.

Definition word_after (s : string) : bool :=
  match s with String c _ => is_word c | EmptyString => false end.

Definition newline : ascii := ascii_of_N 10.

Fixpoint star_greedy (p : ascii → bool) (k : cont) (prev : option ascii) (s : string)
  : option position :=
  match s with
  | String a s' =>
      if p a then
        match star_greedy p k (Some a) s' with
        | Some r => Some r
        | None => k prev s
        end
      else k prev s
  | EmptyString => k prev s
  end.

Fixpoint star_lazy (p : ascii → bool) (k : cont) (prev : option ascii) (s : string)
  : option position :=
  match k prev s with
  | Some r => Some r
  | None =>
      match s with
      | String a s' => if p a then star_lazy p k (Some a) s' else None
      | EmptyString => None
      end
  end.

Fixpoint run (r : regex) (k : cont) (prev : option ascii) (s : string) : option position :=
  match r with
  | Eps => k prev s
  | Lit c =>
      match s with
      | String a s' =>
          if Ascii.eqb (Py.lower_char a) (Py.lower_char c) then k (Some a) s' else None
      | EmptyString => None
      end
  | Set_ p =>
      match s with
      | String a s' => if p a then k (Some a) s' else None
      | EmptyString => None
      end
  | Bol => match prev with None => k prev s | Some _ => None end
  | Eol =>
      match s with
      | EmptyString => k prev s
      | String a EmptyString => if Ascii.eqb a newline then k prev s else None
      | _ => None
      end
  | WordB => if xorb (word_before prev) (word_after s) then k prev s else None
  | Cat r1 r2 => run r1 (run r2 k) prev s
  | Opt r1 =>
      match run r1 k prev s with
      | Some x => Some x
      | None => k prev s
      end
  | Star p => star_greedy p k prev s
  | LazyStar p => star_lazy p k prev s
  end.

(** The match of [r] that starts at the current position, if any. *)
Definition match_at (r : regex) (prev : option ascii) (s : string) : option position :=
  run r (fun prev' s' => Some (prev', s')) prev s.

(** [re.sub(r, repl, s)] for a replacement without group references: the
    text is scanned from the left; a match is replaced and the scan goes
    on after it; an empty match is replaced and one character is copied.
    The scan runs at most once per position and once at the end. *)
Fixpoint sub_from (r : regex) (repl : string) (fuel : nat) (prev : option ascii) (s : string)
  : string :=
  match fuel with
  | O => s
  | S fuel' =>
      match match_at r prev s with
      | Some (prev', rest) =>
          if (String.length rest <? String.length s)%nat
          then repl +:+ sub_from r repl fuel' prev' rest
          else
            match s with
            | String a s' => repl +:+ String a (sub_from r repl fuel' (Some a) s')
            | EmptyString => repl
            end
      | None =>
          match s with
          | String a s' => String a (sub_from r repl fuel' (Some a) s')
          | EmptyString => EmptyString
          end
      end
  end.

Definition sub (r : regex) (repl s : string) : string :=
  sub_from r repl (S (String.length s)) None s.

(** Pattern syntax. *)
Fixpoint str (s : string) : regex :=
  match s with
  | EmptyString => Eps
  | String c s' => Cat (Lit c) (str s')
  end.

Definition seq (rs : list regex) : regex := foldr Cat Eps rs.
Definition plus (p : ascii → bool) : regex := Cat (Set_ p) (Star p).

Definition space : ascii → bool := Py.isspace.          (* [\s] *)
Definition digit : ascii → bool := Py.is_digit.         (* [\d] *)
Definition dot (c : ascii) : bool := negb (Ascii.eqb c newline).   (* [.] *)
Definition one_of (cs : string) (c : ascii) : bool :=
  Py.contains (String c "") cs.

End Re.

(** ** [AnimeIndex]: the catalogue loaded from the index files *)

Module Index.

(** The value stored under an episode's ["number"] key: a JSON integer,
    a string that is not a number, or [null].  [float] and [int] accept
    the first ([float] rounds it to a double and raises [OverflowError]
    when it is too large for one), raise [ValueError] on the second and
    [TypeError] on the third. *)
Inductive number_value : Type :=
| NumInt (z : Z)
| NumText
| NumNull.

Record episode : Type := Episode {
  ep_number : option number_value;
  ep_title : option string;
  ep_url : option string;
  ep_episode_id : option string;
  ep_iframe_url : option string
}.

Record anime : Type := Anime {
  a_id : option string;
  a_title : option string;
  a_episodes : option (list episode)
}.

(** [self.all_anime] *)
Definition store : Type := list anime.

Global Instance number_value_eq_dec : EqDecision number_value.
Proof. solve_decision. Defined.
Global Instance episode_eq_dec : EqDecision episode.
Proof. solve_decision. Defined.
Global Instance anime_eq_dec : EqDecision anime.
Proof. solve_decision. Defined.

Inductive match_type : Type := Exact | StartsWith | Contains | Similar.

(** An element of the list [flexible_search] returns:
    [{**anime, 'priority': ..., 'match_type': ...}]. *)
Record search_result : Type := SearchResult {
  sr_anime : anime;
  sr_priority : Q;
  sr_match_type : match_type
}.

(** Comparison of the sort keys [(-priority, title)], as tuples. *)
Definition Qltb (x y : Q) : bool := negb (Qle_bool y x).

Definition key_lt (k1 k2 : Q * string) : bool :=
  if Qeq_bool k1.1 k2.1 then String.ltb k1.2 k2.2 else Qltb k1.1 k2.1.

Section Search.
(** [str.lower] *)
Variable lower : string → string.
(** [unicodedata.normalize('NFKD', s).encode('ascii', 'ignore').decode('ascii')] *)
Variable ascii_fold : string → string.
(** [SequenceMatcher(None, a, b).ratio()] *)
Variable ratio : string → string → Q.

Definition normalize_text (text : string) : string :=
  if (text =? "")%string then "" else Py.strip (ascii_fold (lower text)).

Definition similarity_score (a b : string) : Q := ratio (lower a) (lower b).

(** [anime.get('title', '')] *)
Definition title_of (a : anime) : string := default "" (a_title a).

Definition exact_match (query : string) (a : anime) : bool :=
  (normalize_text query =? normalize_text (title_of a))%string.

Definition starts_with (query : string) (a : anime) : bool :=
  Py.startswith (normalize_text (title_of a)) (normalize_text query).

Definition contains (query : string) (a : anime) : bool :=
  Py.contains (normalize_text query) (normalize_text (title_of a)).

Definition similarity (query : string) (a : anime) : Q :=
  similarity_score query (title_of a).

Definition priority (query : string) (a : anime) : Q :=
  if exact_match query a then 100
  else if starts_with query a then 80 + similarity query a * 10
  else if contains query a then 60 + similarity query a * 10
  else similarity query a * 50.

Definition match_type_of (query : string) (a : anime) : match_type :=
  if exact_match query a then Exact
  else if starts_with query a then StartsWith
  else if contains query a then Contains
  else Similar.

(** [priority > 20 or contains or starts_with] *)
Definition keep (query : string) (a : anime) : bool :=
  Qltb 20 (priority query a) || contains query a || starts_with query a.

Definition annotate (query : string) (a : anime) : search_result :=
  SearchResult a (priority query a) (match_type_of query a).

(** The list [results] when the loop over the catalogue ends. *)
Definition candidates (query : string) (all_anime : store) : list search_result :=
  annotate query <$> filter (λ a, keep query a = true) all_anime.

(** [lambda x: (-x['priority'], x['title'])]; the subscript raises
    [KeyError] on a record without a title. *)
Definition sort_key_of (r : search_result) : Py.result (Q * string) :=
  match a_title (sr_anime r) with
  | Some t => Py.Ok (- sr_priority r, t)%Q
  | None => Py.Raise (Py.KeyError "title")
  end.

Definition flexible_search (all_anime : store) (query : string) (limit : Z)
  : Py.result (list search_result) :=
  if (query =? "")%string || bool_decide (all_anime = []) then Py.Ok []
  else
    match Py.sort_key key_lt sort_key_of (candidates query all_anime) with
    | Py.Raise e => Py.Raise e
    | Py.Ok results => Py.Ok (Py.slice results 0 limit)
    end.
End Search.

Definition has_id (anime_id : string) (a : anime) : Prop := a_id a = Some anime_id.

Global Instance has_id_dec anime_id a : Decision (has_id anime_id a).
Proof. unfold has_id. apply _. Defined.

Definition get_anime_by_id (all_anime : store) (anime_id : string) : option anime :=
  snd <$> list_find (has_id anime_id) all_anime.

Definition has_session (session : string) (ep : episode) : Prop :=
  ep_episode_id ep = Some session.

Global Instance has_session_dec session ep : Decision (has_session session ep).
Proof. unfold has_session. apply _. Defined.

Definition get_episode (all_anime : store) (anime_id episode_session : string)
  : option episode :=
  match get_anime_by_id all_anime anime_id with
  | Some a =>
      match a_episodes a with
      | Some eps => snd <$> list_find (has_session episode_session) eps
      | None => None
      end
  | None => None
  end.

(** [float(x.get('number', 0))]: the key is the double, which the sort
    compares; it is given as the integer the double stands for. *)
Definition float_key (ep : episode) : Py.result Z :=
  match ep_number ep with
  | None => Py.Ok 0
  | Some (NumInt z) => Py.float_of_int z
  | Some NumText => Py.Raise Py.ValueError
  | Some NumNull => Py.Raise Py.TypeError
  end.

(** [try: episodes.sort(key=...) except: pass] *)
Definition sort_episodes (eps : list episode) : list episode :=
  match Py.sort_key Z.ltb float_key eps with
  | Py.Ok sorted => sorted
  | Py.Raise _ => eps
  end.

(** The loop over [enumerate(episodes)]. *)
Fixpoint next_after (current_session : string) (eps : list episode) : option episode :=
  match eps with
  | [] => None
  | ep :: rest =>
      if decide (has_session current_session ep) then
        match rest with
        | nxt :: _ => Some nxt
        | [] => next_after current_session rest
        end
      else next_after current_session rest
  end.

(** [get_next_episode] sorts the list object held by the catalogue record:
    the function returns its value and the catalogue as the call leaves
    it. *)
Definition get_next_episode (all_anime : store) (anime_id current_session : string)
  : option episode * store :=
  match list_find (has_id anime_id) all_anime with
  | None => (None, all_anime)
  | Some (i, a) =>
      match a_episodes a with
      | None => (None, all_anime)
      | Some eps =>
          let episodes := sort_episodes eps in
          (next_after current_session episodes,
           <[i := Anime (a_id a) (a_title a) (Some episodes)]> all_anime)
      end
  end.

(** [load_all_anime].  What the loader finds on the disk: a JSON file
    either cannot be opened and parsed, or is a document with or without
    an ["anime"] key holding a list of records. *)
Inductive json_file : Type :=
| Unreadable
| Document (anime_key : option (list anime)).

(** The records one of the [anime_*.json] files adds; a file that raises
    is logged and skipped. *)
Definition records_of (f : json_file) : list anime :=
  match f with
  | Document (Some l) => l
  | Document None => []
  | Unreadable => []
  end.

(** [master_file] is the master index when it exists, [json_files] the
    files the glob yields, in its order.  An exception while the master
    index is read leaves the catalogue empty. *)
Definition load_all_anime (master_file : option json_file) (json_files : list json_file)
  : store :=
  match master_file with
  | Some Unreadable => []
  | Some (Document (Some l)) => l
  | Some (Document None) | None => mjoin (records_of <$> json_files)
  end.

End Index.

(** ** [CacheManager]: the cache and its backing file *)

Module Cache.

(** The value stored under a ["timestamp"] key as the getters see it:
    [TsAt t] is an ISO string that [datetime.fromisoformat] reads as the
    local time [t] (in microseconds); [TsInvalid] is any value on which
    the parsing or the subtraction from [datetime.now()] raises. *)
Inductive timestamp_value : Type :=
| TsInvalid
| TsAt (t : Z).

(** [timedelta(hours=24)], in microseconds. *)
Definition hours_24 : Z := 24 * 3600 * 1000000.

(** An episode record as the scraper and the index-backed listing build
    it: [{'number', 'title', 'url', 'session'}]. *)
Record listed_episode : Type := ListedEpisode {
  le_number : Index.number_value;
  le_title : string;
  le_url : option string;
  le_session : option string
}.

Record episodes_entry : Type := EpisodesEntry {
  ee_title : string;
  ee_episodes : list listed_episode;
  ee_total_episodes : Z;
  ee_has_next_page : bool;
  ee_current_page : Z;
  ee_next_page : option Z;
  ee_timestamp : timestamp_value
}.

Record iframe_entry : Type := IframeEntry {
  ie_iframe_url : option string;
  ie_timestamp : timestamp_value;
  ie_success : bool
}.

(** A row of one of the two home-page listings. *)
Record listing_item : Type := ListingItem {
  li_title : string;
  li_id : string;
  li_url : string
}.

(** [{'episodes' | 'anime': [...], 'timestamp': ..., 'count': ...}] *)
Record listing : Type := Listing {
  l_items : option (list listing_item);
  l_timestamp : option timestamp_value;
  l_count : option Z
}.

Record metadata : Type := Metadata {
  created_at : Z;
  last_updated : Z
}.

(** [self.cache] *)
Record data : Type := Data {
  anime_episodes : gmap string episodes_entry;
  episode_iframes : gmap string (gmap string iframe_entry);
  currently_airing_episodes : listing;
  popular_anime : listing;
  meta : metadata
}.

(** The manager: the cache in memory, the cache file (its content and
    modification time, when it exists) and the modification time last
    seen. *)
Record manager : Type := Manager {
  cache : data;
  cache_file : option (data * Z);
  last_mtime : Z
}.

(** What a call finds around it: the clock, and whether the cache file
    can be written. *)
Record env : Type := Env {
  now : Z;
  disk_ok : bool
}.

Definition set_last_updated (t : Z) (d : data) : data :=
  Data (anime_episodes d) (episode_iframes d) (currently_airing_episodes d)
       (popular_anime d) (Metadata (created_at (meta d)) t).

(** A failed write is logged and swallowed.  [disk_ok e = false] stands
    for a write that fails when the file is opened, before anything is
    written: the file is then as it was.  A write that fails later, once
    the file has been opened and emptied, is not one of the outcomes of
    this model, and nothing below is stated of it. *)
Definition save_cache (e : env) (m : manager) : manager :=
  let d := set_last_updated (now e) (cache m) in
  if disk_ok e
  then Manager d (Some (d, now e)) (now e)
  else Manager d (cache_file m) (last_mtime m).

Definition get_episode_iframe (m : manager) (anime_id episode_session : string)
  : option iframe_entry :=
  default ∅ (episode_iframes (cache m) !! anime_id) !! episode_session.

Definition set_episode_iframe (e : env) (m : manager) (anime_id episode_session : string)
  (iframe_url : option string) (success : bool) : manager :=
  let d := cache m in
  let per_anime := default ∅ (episode_iframes d !! anime_id) in
  let entry := IframeEntry iframe_url (TsAt (now e)) success in
  let iframes := <[anime_id := <[episode_session := entry]> per_anime]> (episode_iframes d) in
  save_cache e
    (Manager (Data (anime_episodes d) iframes (currently_airing_episodes d)
                   (popular_anime d) (meta d))
             (cache_file m) (last_mtime m)).

(** The two listing getters: the test
    [cached_data and 'timestamp' in cached_data], then, inside [try], the
    parsing of the timestamp and the comparison of its age with
    [timedelta(hours=24)]; every other path reaches [return None]. *)
Definition get_currently_airing_episodes (e : env) (m : manager)
  : option (list listing_item) :=
  let cached_data := currently_airing_episodes (cache m) in
  match l_timestamp cached_data with
  | Some (TsAt cache_time) =>
      if now e - cache_time <? hours_24
      then Some (default [] (l_items cached_data))
      else None
  | Some TsInvalid => None
  | None => None
  end.

Definition set_currently_airing_episodes (e : env) (m : manager)
  (episodes_list : list listing_item) : manager :=
  let d := cache m in
  let entry := Listing (Some episodes_list) (Some (TsAt (now e)))
                       (Some (Z.of_nat (length episodes_list))) in
  save_cache e
    (Manager (Data (anime_episodes d) (episode_iframes d) entry (popular_anime d) (meta d))
             (cache_file m) (last_mtime m)).

Definition get_popular_anime (e : env) (m : manager) : option (list listing_item) :=
  let cached_data := popular_anime (cache m) in
  match l_timestamp cached_data with
  | Some (TsAt cache_time) =>
      if now e - cache_time <? hours_24
      then Some (default [] (l_items cached_data))
      else None
  | Some TsInvalid => None
  | None => None
  end.

Definition set_popular_anime (e : env) (m : manager) (anime_list : list listing_item)
  : manager :=
  let d := cache m in
  let entry := Listing (Some anime_list) (Some (TsAt (now e)))
                       (Some (Z.of_nat (length anime_list))) in
  save_cache e
    (Manager (Data (anime_episodes d) (episode_iframes d) (currently_airing_episodes d)
                   entry (meta d))
             (cache_file m) (last_mtime m)).

(** [get_default_cache]: the empty cache, stamped with the time of the
    call. *)
Definition get_default_cache (e : env) : data :=
  Data ∅ ∅
       (Listing (Some []) (Some (TsAt (now e))) (Some 0))
       (Listing (Some []) (Some (TsAt (now e))) (Some 0))
       (Metadata (now e) (now e)).

(** [load_cache].  The file, when it exists, holds a document with every
    top-level key, as [save_cache] writes it; [readable] tells whether
    opening and parsing it succeed.  Without a file, or when the load
    raises, the cache is the default one and [last_mtime] is 0. *)
Definition load_cache (e : env) (readable : bool) (m : manager) : manager :=
  match cache_file m with
  | Some (loaded_cache, current_mtime) =>
      if readable
      then Manager loaded_cache (cache_file m) current_mtime
      else Manager (get_default_cache e) (cache_file m) 0
  | None => Manager (get_default_cache e) (cache_file m) 0
  end.

(** [CacheManager.__init__] on a disk that holds [file]. *)
Definition init (e : env) (readable : bool) (file : option (data * Z)) : manager :=
  load_cache e readable (Manager (get_default_cache e) file 0).

Definition check_and_reload (e : env) (readable : bool) (m : manager) : manager :=
  match cache_file m with
  | None => m
  | Some (_, current_mtime) =>
      if last_mtime m <? current_mtime then load_cache e readable m else m
  end.

Definition get_anime_episodes (m : manager) (anime_id : string) : option episodes_entry :=
  anime_episodes (cache m) !! anime_id.

Definition set_anime_episodes (e : env) (m : manager) (anime_id : string)
  (title : string) (episodes : list listed_episode) (total_episodes : Z)
  (has_next_page : bool) (current_page : Z) (next_page : option Z) : manager :=
  let d := cache m in
  let entry := EpisodesEntry title episodes total_episodes has_next_page current_page
                             next_page (TsAt (now e)) in
  save_cache e
    (Manager (Data (<[anime_id := entry]> (anime_episodes d)) (episode_iframes d)
                   (currently_airing_episodes d) (popular_anime d) (meta d))
             (cache_file m) (last_mtime m)).

(** [get_cache_stats] *)
Record stats : Type := Stats {
  anime_cached : nat;
  iframes_cached : nat;
  currently_airing_episodes_cached : Z;
  popular_anime_cached : Z;
  stats_created_at : Z;
  stats_last_updated : Z
}.

Definition get_cache_stats (m : manager) : stats :=
  let d := cache m in
  Stats (size (anime_episodes d))
        (map_fold (λ _ episodes n, (size episodes + n)%nat) O (episode_iframes d))
        (default 0 (l_count (currently_airing_episodes d)))
        (default 0 (l_count (popular_anime d)))
        (created_at (meta d))
        (last_updated (meta d)).

(** [datetime.fromisoformat(data['timestamp']) < cutoff]; a timestamp that
    does not parse is logged and the entry is kept. *)
Definition older_than (cutoff : Z) (ts : timestamp_value) : bool :=
  match ts with
  | TsAt t => t <? cutoff
  | TsInvalid => false
  end.

Definition episodes_expired (cutoff : Z) (kv : string * episodes_entry) : Prop :=
  older_than cutoff (ee_timestamp kv.2) = true.

Definition iframe_expired (cutoff : Z) (kv : string * iframe_entry) : Prop :=
  older_than cutoff (ie_timestamp kv.2) = true.

Definition has_entries (kv : string * gmap string iframe_entry) : Prop := kv.2 ≠ ∅.

Global Instance timestamp_value_eq_dec : EqDecision timestamp_value.
Proof. solve_decision. Defined.
Global Instance iframe_entry_eq_dec : EqDecision iframe_entry.
Proof. solve_decision. Defined.
Global Instance episodes_expired_dec cutoff kv : Decision (episodes_expired cutoff kv).
Proof. unfold episodes_expired. apply _. Defined.
Global Instance iframe_expired_dec cutoff kv : Decision (iframe_expired cutoff kv).
Proof. unfold iframe_expired. apply _. Defined.
Global Instance has_entries_dec kv : Decision (has_entries kv).
Proof. unfold has_entries. apply _. Defined.

(** The range of [datetime] and of [timedelta].  Times are counted in
    microseconds from [datetime.min]; [datetime.max] is the last
    microsecond of the year 9999, 3652059 days later. *)
Definition datetime_span : Z := 3652059 * hours_24.

Definition timedelta_max_days : Z := 999999999.

(** [datetime.now() - timedelta(days=days)]: [timedelta] refuses more than
    999999999 days, and the subtraction a result outside of [datetime]. *)
Definition cutoff_of (e : env) (days : Z) : Py.result Z :=
  if timedelta_max_days <? Z.abs days then Py.Raise Py.OverflowError
  else
    let cutoff := now e - days * hours_24 in
    if (cutoff <? 0) || (datetime_span <=? cutoff) then Py.Raise Py.OverflowError
    else Py.Ok cutoff.

(** The body of [clear_old_cache] once the cutoff is known: the entries
    older than the cutoff are deleted and counted, the anime left without
    an iframe entry are deleted, and the cache is saved when something
    was counted. *)
Definition clear_before (e : env) (cutoff : Z) (m : manager) : nat * manager :=
  let d := cache m in
  let cleared_episodes := size (filter (episodes_expired cutoff) (anime_episodes d)) in
  let cleared_iframes :=
    map_fold (λ _ episodes n, (size (filter (iframe_expired cutoff) episodes) + n)%nat)
             O (episode_iframes d) in
  let cleared_count := (cleared_episodes + cleared_iframes)%nat in
  let kept_episodes := filter (λ kv, ¬ episodes_expired cutoff kv) (anime_episodes d) in
  let kept_iframes :=
    filter has_entries
           (filter (λ kv, ¬ iframe_expired cutoff kv) <$> episode_iframes d) in
  let swept :=
    Manager (Data kept_episodes kept_iframes (currently_airing_episodes d)
                  (popular_anime d) (meta d))
            (cache_file m) (last_mtime m) in
  (cleared_count, if (0 <? cleared_count)%nat then save_cache e swept else swept).

(** [clear_old_cache(days)]; the computation of the cutoff is outside of
    any [try], so what it raises reaches the caller. *)
Definition clear_old_cache (e : env) (days : Z) (m : manager)
  : Py.result (nat * manager) :=
  match cutoff_of e days with
  | Py.Raise err => Py.Raise err
  | Py.Ok cutoff => Py.Ok (clear_before e cutoff m)
  end.

End Cache.

(** ** [AnimePaheBackend] *)

Module Backend.

Import Cache.

Definition base_url : string := "https://animepahe.si".

Definition EPISODES_PER_PAGE : Z := 50.

(** *** [clean_episode_title] *)

Definition sep_opt : list Re.regex :=      (* [\s*[-:]?\s*] *)
  [Re.Star Re.space; Re.Opt (Re.Set_ (Re.one_of "-:")); Re.Star Re.space].

Definition patterns_to_remove : list Re.regex :=
  [ (* [^Episode\s+\d+\s*[-:]?\s*] *)
    Re.seq ([Re.Bol; Re.str "Episode"; Re.plus Re.space; Re.plus Re.digit] ++ sep_opt);
    (* [^EP\s*\d+\s*[-:]?\s*] *)
    Re.seq ([Re.Bol; Re.str "EP"; Re.Star Re.space; Re.plus Re.digit] ++ sep_opt);
    (* [^E\d+\s*[-:]?\s*] *)
    Re.seq ([Re.Bol; Re.str "E"; Re.plus Re.digit] ++ sep_opt);
    (* [Watch\s+Online.*$] *)
    Re.seq [Re.str "Watch"; Re.plus Re.space; Re.str "Online"; Re.Star Re.dot; Re.Eol];
    (* [\bBD\b] *)
    Re.seq [Re.WordB; Re.str "BD"; Re.WordB];
    (* [\d{2}:\d{2}:\d{2}] *)
    Re.seq [Re.Set_ Re.digit; Re.Set_ Re.digit; Re.Lit ":";
            Re.Set_ Re.digit; Re.Set_ Re.digit; Re.Lit ":";
            Re.Set_ Re.digit; Re.Set_ Re.digit];
    (* [\b\d+k\b] *)
    Re.seq [Re.WordB; Re.plus Re.digit; Re.Lit "k"; Re.WordB];
    (* [\[.*?\]] *)
    Re.seq [Re.Lit "["; Re.LazyStar Re.dot; Re.Lit "]"];
    (* [\(.*?\)] *)
    Re.seq [Re.Lit "("; Re.LazyStar Re.dot; Re.Lit ")"]
  ].

(** [[-\s]+] *)
Definition hyphen_or_space (c : ascii) : bool := Ascii.eqb c "-" || Re.space c.
Definition separators : Re.regex := Re.plus hyphen_or_space.

(** The title after the white space is joined, the patterns are removed
    one after the other and the separators are collapsed: the value of
    [title] when the last [if] is reached. *)
Definition residual_title (title : string) : string :=
  let title := Py.join " " (Py.split title) in
  let title := foldl (λ t pattern, Re.sub pattern "" t) title patterns_to_remove in
  Py.strip (Re.sub separators " " title).

Definition clean_episode_title (title : string) : string :=
  if (title =? "")%string then "Episode"
  else
    let title := residual_title title in
    if (title =? "")%string || Py.isdigit title || (String.length title <? 2)%nat
    then "Episode"
    else title.

(** *** [get_episodes]: the episode list of an anime, from the index *)

Record episode_page : Type := EpisodePage {
  pg_title : string;
  pg_episodes : list listed_episode;
  pg_total_episodes : Z;
  pg_has_next_page : bool;
  pg_current_page : Z;
  pg_next_page : option Z
}.

Definition format_episode (ep : Index.episode) : listed_episode :=
  ListedEpisode (default Index.NumNull (Index.ep_number ep))
                (clean_episode_title (default "" (Index.ep_title ep)))
                (Index.ep_url ep)
                (Index.ep_episode_id ep).

(** [int(x.get('number', 0))]; the key is always there in a listed
    episode. *)
Definition int_key (x : listed_episode) : Py.result Z :=
  match le_number x with
  | Index.NumInt z => Py.Ok z
  | Index.NumText => Py.Raise Py.ValueError
  | Index.NumNull => Py.Raise Py.TypeError
  end.

Definition paginate (title : string) (all_formatted_episodes : list listed_episode)
  (page : Z) : episode_page :=
  let total_episodes := Z.of_nat (length all_formatted_episodes) in
  let start_index := (page - 1) * EPISODES_PER_PAGE in
  let end_index := page * EPISODES_PER_PAGE in
  let paginated_episodes := Py.slice all_formatted_episodes start_index end_index in
  let has_next_page := end_index <? total_episodes in
  let next_page := if has_next_page then Some (page + 1) else None in
  EpisodePage title paginated_episodes total_episodes has_next_page page next_page.

Definition get_episodes (all_anime : Index.store) (anime_id : string) (page : Z)
  : Py.result episode_page :=
  match Index.get_anime_by_id all_anime anime_id with
  | None => Py.Ok (EpisodePage "Unknown Anime" [] 0 false page None)
  | Some anime_data =>
      let all_formatted_episodes :=
        format_episode <$> default [] (Index.a_episodes anime_data) in
      let title := default "Unknown Title" (Index.a_title anime_data) in
      match Py.sort_key Z.ltb int_key all_formatted_episodes with
      | Py.Ok sorted => Py.Ok (paginate title sorted page)
      | Py.Raise Py.ValueError => Py.Ok (paginate title all_formatted_episodes page)
      | Py.Raise e => Py.Raise e
      end
  end.

(** *** [remove_duplicate_episodes] *)

Fixpoint unique_from (seen_sessions : gset string) (episodes : list listed_episode)
  : list listed_episode :=
  match episodes with
  | [] => []
  | episode :: rest =>
      match le_session episode with
      | Some session =>
          if bool_decide (session ≠ "") && bool_decide (session ∉ seen_sessions)
          then episode :: unique_from ({[session]} ∪ seen_sessions) rest
          else unique_from seen_sessions rest
      | None => unique_from seen_sessions rest
      end
  end.

Definition remove_duplicate_episodes (episodes : list listed_episode)
  : list listed_episode :=
  unique_from ∅ episodes.

(** *** The iframe resolver

    The browser is an oracle: what loading a URL yields and what each of
    the four extraction strategies finds on the loaded page.  The calls
    that touch the cache or the browser are recorded in a log. *)

Inductive strategy_result : Type :=
| Found (url : string)
| NotFound
| Failed (msg : string).          (* the strategy raised *)

Record page : Type := Page {
  actual_title : string;
  found_directly : strategy_result;
  found_in_javascript : option string;
  found_dynamic : strategy_result;
  found_after_interaction : strategy_result
}.

Inductive page_load : Type :=
| LoadFailed (msg : string)       (* [goto] or the wait raised *)
| Loaded (p : page).

Definition browser : Type := string → page_load.

Inductive event : Type :=
| CacheRead (anime_id episode_session : string)
| CacheWrite (anime_id episode_session : string)
| PageVisit (url : string).

Record world : Type := World {
  manager_of : manager;
  log : list event
}.

Definition M (A : Type) : Type := world → A * world.

Global Instance M_ret : MRet M := λ A a w, (a, w).
Global Instance M_bind : MBind M := λ A B f c w, let '(a, w') := c w in f a w'.

Definition emit (ev : event) : M unit :=
  λ w, (tt, World (manager_of w) (log w ++ [ev])).

Definition read_manager : M manager := λ w, (manager_of w, w).

Definition write_manager (m : manager) : M unit := λ w, (tt, World m (log w)).

Definition cache_get (anime_id episode_session : string) : M (option iframe_entry) :=
  _ ← emit (CacheRead anime_id episode_session);
  m ← read_manager;
  mret (Cache.get_episode_iframe m anime_id episode_session).

Definition cache_set (e : env) (anime_id episode_session : string)
  (iframe_url : option string) (success : bool) : M unit :=
  _ ← emit (CacheWrite anime_id episode_session);
  m ← read_manager;
  write_manager (Cache.set_episode_iframe e m anime_id episode_session iframe_url success).

(** The dictionary the resolver returns. *)
Record iframe_data : Type := IframeData {
  iframe_url : option string;
  success : bool;
  error : option string
}.

Section Resolver.
Variable e : env.
Variable visit : browser.

Definition store_success (anime_id episode_session url : string) : M iframe_data :=
  _ ← cache_set e anime_id episode_session (Some url) true;
  mret (IframeData (Some url) true None).

Definition store_failure (anime_id episode_session msg : string) : M iframe_data :=
  _ ← cache_set e anime_id episode_session None false;
  mret (IframeData None false (Some msg)).

(** The body of the [try] once the page is loaded and is not a 404
    page: the four strategies in order, the first non-empty URL wins;
    a strategy that raises ends in the [except] branch. *)
Definition extract (anime_id episode_session : string) (p : page) : M iframe_data :=
  let ok := store_success anime_id episode_session in
  let ko := store_failure anime_id episode_session in
  let after_interaction :=
    match found_after_interaction p with
    | Failed msg => ko msg
    | Found url => if (url =? "")%string then ko "No iframe found on page" else ok url
    | NotFound => ko "No iframe found on page"
    end in
  let dynamic :=
    match found_dynamic p with
    | Failed msg => ko msg
    | Found url => if (url =? "")%string then after_interaction else ok url
    | NotFound => after_interaction
    end in
  let javascript :=
    match found_in_javascript p with
    | Some url => if (url =? "")%string then dynamic else ok url
    | None => dynamic
    end in
  match found_directly p with
  | Failed msg => ko msg
  | Found url => if (url =? "")%string then javascript else ok url
  | NotFound => javascript
  end.

(** The scrape proper: what [_scrape_episode_iframe] does after the
    cache has been looked up without a usable entry. *)
Definition scrape (anime_id episode_session : string) : M iframe_data :=
  let episode_url := base_url +:+ "/play/" +:+ anime_id +:+ "/" +:+ episode_session in
  _ ← emit (PageVisit episode_url);
  match visit episode_url with
  | LoadFailed msg => store_failure anime_id episode_session msg
  | Loaded p =>
      if Py.contains "404" (actual_title p) || Py.contains "Not Found" (actual_title p)
      then store_failure anime_id episode_session
             ("Episode page not found (404): " +:+ episode_url)
      else extract anime_id episode_session p
  end.

Definition _scrape_episode_iframe (anime_id episode_session : string) : M iframe_data :=
  cached_iframe ← cache_get anime_id episode_session;
  match cached_iframe with
  | Some entry =>
      if ie_success entry
      then mret (IframeData (ie_iframe_url entry) true None)
      else scrape anime_id episode_session
  | None => scrape anime_id episode_session
  end.

(** [get_episode_iframe]: the index first, then the scraper. *)
Definition get_episode_iframe (all_anime : Index.store)
  (anime_id episode_session : string) : M iframe_data :=
  match Index.get_episode all_anime anime_id episode_session with
  | Some episode_data =>
      match Index.ep_iframe_url episode_data with
      | Some url =>
          if (url =? "")%string
          then _scrape_episode_iframe anime_id episode_session
          else mret (IframeData (Some url) true None)
      | None => _scrape_episode_iframe anime_id episode_session
      end
  | None => _scrape_episode_iframe anime_id episode_session
  end.
End Resolver.

(** *** [search_anime] *)

(** [strip] is [str.strip] on the search term as it is typed, a library
    call like the three of the search: the term can hold any character,
    and what counts as white space is for the library to say. *)
Definition search_anime (strip lower ascii_fold : string → string)
  (ratio : string → string → Q)
  (all_anime : Index.store) (search_term : string) : Py.result (list Index.search_result) :=
  if (strip search_term =? "")%string then Py.Ok []
  else Index.flexible_search lower ascii_fold ratio all_anime search_term 20.

(** *** [_make_absolute_url] and [_find_iframe_directly] *)

Definition _make_absolute_url (page_url relative_url : string) : string :=
  if (relative_url =? "")%string then relative_url
  else if Py.startswith relative_url "http://" || Py.startswith relative_url "https://"
  then relative_url
  else if Py.startswith relative_url "//" then "https:" +:+ relative_url
  else if Py.startswith relative_url "/" then base_url +:+ relative_url
  else page_url +:+ "/" +:+ relative_url.

Definition player_keywords : list string := ["player"; "video"; "embed"; "kwik"; "stream"].

(** The loop over the [iframe] elements of the page, given the [src]
    attribute of each ([None] when the attribute is absent). *)
Fixpoint _find_iframe_directly (episode_url : string) (srcs : list (option string))
  : option string :=
  match srcs with
  | [] => None
  | src :: rest =>
      match src with
      | Some src =>
          if (src =? "")%string then _find_iframe_directly episode_url rest
          else
            let full_url := _make_absolute_url episode_url src in
            if existsb (λ keyword, Py.contains keyword (Py.lower full_url)) player_keywords
            then Some full_url
            else if negb (Py.contains "animepahe" full_url) then Some full_url
            else _find_iframe_directly episode_url rest
      | None => _find_iframe_directly episode_url rest
      end
  end.

(** *** The live episode list: [scrape_episodes_page] *)

(** What the loop over the links of the pagination bar meets at one
    link: the tests [link_text and link_text.isdigit()] and the
    conversion [int(link_text)] are the library's, on the text of the
    page. *)
Inductive link_text : Type :=
| NoText                       (* [text_content()] gives [None] or [''] *)
| NotDigits                    (* [isdigit()] is false *)
| PageNumber (page_num : Z)    (* [isdigit()] is true and [int()] gives [page_num] *)
| LinkRaises.                  (* [text_content()] raises, or [isdigit()] is
                                  true and [int()] raises *)

(** What [check_pagination] reads on the page: for each of the four
    "next" selectors, whether an element is found and visible, and what
    each link of the pagination bar gives. *)
Record pagination_controls : Type := PaginationControls {
  next_visible : list bool;
  link_texts : list link_text
}.

(** The loop over [page_links]; an exception leaves the [try] block, and
    the function then answers as when no link is found. *)
Fixpoint first_later_page (current_page : Z) (texts : list link_text) : option Z :=
  match texts with
  | [] => None
  | text :: rest =>
      match text with
      | PageNumber page_num =>
          if current_page <? page_num then Some page_num
          else first_later_page current_page rest
      | LinkRaises => None
      | NoText | NotDigits => first_later_page current_page rest
      end
  end.

(** [check_pagination]; [None] stands for a page whose queries raise. *)
Definition check_pagination (controls : option pagination_controls) (current_page : Z)
  : bool * option Z :=
  match controls with
  | None => (false, None)
  | Some c =>
      if existsb id (next_visible c) then (true, Some (current_page + 1))
      else
        match first_later_page current_page (link_texts c) with
        | Some page_num => (true, Some page_num)
        | None => (false, None)
        end
  end.

(** What the three extraction methods find: for each element their
    selector matches, the episode read from it, if any. *)
Record episode_elements : Type := EpisodeElements {
  session_rows : list (option listed_episode);
  table_links : list (option listed_episode);
  containers : list (option listed_episode)
}.

(** [extract_episodes_clean]; [None] stands for a page whose queries
    raise. *)
Definition extract_episodes_clean (found : option episode_elements) : list listed_episode :=
  match found with
  | None => []
  | Some f =>
      match session_rows f with
      | _ :: _ => omap id (session_rows f)
      | [] =>
          match table_links f with
          | _ :: _ => omap id (table_links f)
          | [] => omap id (containers f)
          end
      end
  end.

Inductive episodes_load : Type :=
| EpisodesLoadFailed
| EpisodesLoaded (title : string) (found : option episode_elements)
    (controls : option pagination_controls).

Definition episodes_browser : Type := string → episodes_load.

Definition unknown_page (page : Z) : episode_page :=
  EpisodePage "Unknown" [] 0 false page None.

Definition cached_page (c : episodes_entry) : episode_page :=
  EpisodePage (ee_title c) (ee_episodes c) (ee_total_episodes c) (ee_has_next_page c)
              (ee_current_page c) (ee_next_page c).

Definition anime_url (anime_id : string) (page : Z) : string :=
  if 1 <? page then base_url +:+ "/anime/" +:+ anime_id +:+ "?page=" +:+ pretty page
  else base_url +:+ "/anime/" +:+ anime_id.

(** The end of the [try] block: the record is built, cached when the
    page is the first one, and returned. *)
Definition finish_page (e : env) (anime_id title : string) (episodes : list listed_episode)
  (has_next_page : bool) (page : Z) (next_page : option Z) : M episode_page :=
  let anime_data :=
    EpisodePage title episodes (Z.of_nat (length episodes)) has_next_page page next_page in
  _ ← (if page =? 1
       then m ← read_manager;
            write_manager (Cache.set_anime_episodes e m anime_id title episodes
                             (Z.of_nat (length episodes)) has_next_page page next_page)
       else mret tt);
  mret anime_data.

Definition scrape_episodes_page (e : env) (visit : episodes_browser)
  (anime_id : string) (page : Z) : M episode_page :=
  cached_episodes ← (if page =? 1
                     then m ← read_manager; mret (Cache.get_anime_episodes m anime_id)
                     else mret None);
  match cached_episodes with
  | Some c => mret (cached_page c)
  | None =>
      _ ← emit (PageVisit (anime_url anime_id page));
      match visit (anime_url anime_id page) with
      | EpisodesLoadFailed => mret (unknown_page page)
      | EpisodesLoaded title found controls =>
          let anime_title := Py.strip (Py.replace ":: animepahe" "" title) in
          let episodes := extract_episodes_clean found in
          let '(has_next_page, next_page) := check_pagination controls page in
          let episodes := remove_duplicate_episodes episodes in
          match Py.sort_key Z.ltb int_key episodes with
          | Py.Ok sorted => finish_page e anime_id anime_title sorted has_next_page page next_page
          | Py.Raise Py.ValueError =>
              finish_page e anime_id anime_title episodes has_next_page page next_page
          | Py.Raise _ => mret (unknown_page page)
          end
      end
  end.

(** *** The home-page listings

    The browser is an oracle.  For the currently-airing listing it tells,
    for the URL of each listing page, the rows read from the page, or
    [None] when loading or querying the page raises; the rows of a page
    are appended only after every call that can raise out of the loop has
    returned.  For the popular listing [scraped] is the list the selector
    loop ends with, empty when the [try] block raised. *)
Definition airing_url (page_num : Z) : string :=
  if page_num =? 1 then base_url else base_url +:+ "?page=" +:+ pretty page_num.

(** The loop over [range(1, pages + 1)], from [page_nums] on. *)
Fixpoint airing_pages (load : string → option (list listing_item)) (page_nums : list Z)
  (all_episodes : list listing_item) : M (list listing_item) :=
  match page_nums with
  | [] => mret all_episodes
  | page_num :: rest =>
      _ ← emit (PageVisit (airing_url page_num));
      match load (airing_url page_num) with
      | None => mret all_episodes
      | Some found =>
          let all_episodes := all_episodes ++ found in
          if (30 <=? length all_episodes)%nat then mret all_episodes
          else airing_pages load rest all_episodes
      end
  end.

Definition get_currently_airing_episodes (e : env)
  (load : string → option (list listing_item)) (pages : Z) (fallback : list listing_item)
  : M (list listing_item) :=
  m ← read_manager;
  match Cache.get_currently_airing_episodes e m with
  | Some cached_episodes => mret cached_episodes
  | None =>
      all_episodes ← airing_pages load (seqZ 1 pages) [];
      let all_episodes := match all_episodes with [] => fallback | _ => all_episodes end in
      m ← read_manager;
      _ ← write_manager (Cache.set_currently_airing_episodes e m all_episodes);
      mret all_episodes
  end.

Definition get_popular_anime (e : env) (scraped fallback : list listing_item)
  : M (list listing_item) :=
  m ← read_manager;
  match Cache.get_popular_anime e m with
  | Some cached_popular => mret cached_popular
  | None =>
      _ ← emit (PageVisit base_url);
      let popular_anime := match scraped with [] => fallback | _ => scraped end in
      _ ← write_manager (Cache.set_popular_anime e m popular_anime);
      mret popular_anime
  end.

(** *** [get_fallback_episodes] *)

(** A row of the currently-airing listing as [get_fallback_episodes]
    builds it; the cache keeps the rows of a listing abstract. *)
Record airing_episode : Type := AiringEpisode {
  ae_anime_name : string;
  ae_episode_number : Z;
  ae_episode_title : string;
  ae_anime_id : string;
  ae_session_id : string;
  ae_episode_url : string
}.

Definition popular_ongoing : list string :=
  ["One Piece"; "Naruto"; "Boruto"; "My Hero Academia"; "Attack on Titan";
   "Demon Slayer"; "Jujutsu Kaisen"; "Chainsaw Man"; "Spy x Family";
   "Blue Lock"; "Dr. Stone"; "That Time I Got Reincarnated as a Slime";
   "One Punch Man"; "Tokyo Revengers"; "Haikyuu"; "Black Clover"].

(** [anime_name.lower() in anime.get('title', '').lower()] *)
Definition named (name : string) (a : Index.anime) : Prop :=
  Py.contains (Py.lower name) (Py.lower (Index.title_of a)) = true.

Global Instance named_dec name a : Decision (named name a).
Proof. unfold named. apply _. Defined.

Definition fallback_episode (name : string) (a : Index.anime) : airing_episode :=
  AiringEpisode name 1 (name +:+ " - Latest Episode") (default "" (Index.a_id a))
                "fallback123" (base_url +:+ "/anime/" +:+ default "" (Index.a_id a)).

(** The two loops: for each of the first ten names, the first record of
    the catalogue whose title holds the name, if there is one. *)
Definition get_fallback_episodes (all_anime : Index.store) : list airing_episode :=
  omap (λ name, fallback_episode name <$> (snd <$> list_find (named name) all_anime))
       (take 10 popular_ongoing).

End Backend.


(** * Sample data *)

Module Samples.

Import Index Cache Backend.

Definition ep (n : Z) (id : string) : episode :=
  Episode (Some (NumInt n)) (Some "Episode") (Some ("/play/show/" +:+ id)) (Some id) None.

(** A catalogue whose only anime lists episode 2 before episode 1. *)
Definition unsorted_store : store :=
  [Anime (Some "show") (Some "Show") (Some [ep 2 "s2"; ep 1 "s1"])].

Definition sorted_store : store :=
  [Anime (Some "show") (Some "Show") (Some [ep 1 "s1"; ep 2 "s2"])].

Definition indexed_store : store :=
  [Anime (Some "show") (Some "Show")
     (Some [Episode (Some (NumInt 1)) (Some "Pilot") None (Some "s1")
              (Some "https://kwik.example/e/abc")])].

(** Stand-ins for the library calls of the search.  They give what the
    library gives on the strings the examples below use, and are meant
    for no other: [ascii_lower] and [ascii_only] on ASCII text and on
    text whose other characters are caseless and have no decomposition
    into ASCII, as the CJK ideographs, which the NFKD/ASCII folding
    drops (an accented letter, which the folding maps to its base
    letter, is not such a character); [equal_ratio] on equal strings,
    where [SequenceMatcher.ratio] is 1, and on strings without a common
    character, where it is 0. *)
Fixpoint ascii_lower (s : string) : string :=
  match s with
  | EmptyString => EmptyString
  | String c s' => String (Py.lower_char c) (ascii_lower s')
  end.

Fixpoint ascii_only (s : string) : string :=
  match s with
  | EmptyString => EmptyString
  | String c s' => if (Py.code c <? 128)%N then String c (ascii_only s') else ascii_only s'
  end.

Definition equal_ratio (a b : string) : Q := if (a =? b)%string then 1%Q else 0%Q.

Definition naruto_1 : anime := Anime (Some "1") (Some "Naruto") (Some []).
Definition naruto_2 : anime := Anime (Some "2") (Some "Naruto") (Some []).
Definition untitled : anime := Anime (Some "3") (Some "") (Some []).

(** An anime of 120 episodes, numbered 1 to 120 and stored last first. *)
Definition long_episodes : list episode :=
  (λ n, ep n ("s" +:+ pretty n)) <$> reverse (seqZ 1 120).

Definition long_anime : anime := Anime (Some "long") (Some "Long Show") (Some long_episodes).

Definition long_store : store := [long_anime].

Definition empty_data : data :=
  Data ∅ ∅ (Listing (Some []) (Some (TsAt 0)) (Some 0))
       (Listing (Some []) (Some (TsAt 0)) (Some 0)) (Metadata 0 0).

Definition empty_manager : manager := Manager empty_data None 0.

Definition failed_manager : manager :=
  Manager (Data ∅ {[ "show" := {[ "s1" := IframeEntry None (TsAt 0) false ]} ]}
                (Listing (Some []) (Some (TsAt 0)) (Some 0))
                (Listing (Some []) (Some (TsAt 0)) (Some 0)) (Metadata 0 0))
          None 0.

Definition player_page : page :=
  Page "Show - Episode 1" NotFound (Some "https://kwik.example/e/abc") NotFound NotFound.

Definition one_page_browser : browser := λ _, Loaded player_page.

Definition noon : env := Env 43200000000 true.

End Samples.


(** * Properties of the Python primitives *)

Module PyFacts.

Import Py.

Lemma Sorted_weaken {A : Type} (R R' : relation A) (l : list A) :
  (∀ x y, R x y → R' x y) → Sorted R l → Sorted R' l.
Proof.
  intros HR. induction 1 as [|x l _ IH Hhd]; constructor; [done|].
  destruct Hhd; constructor. by apply HR.
Qed.

Section SortFacts.
Context {K : Type} (lt : K → K → bool).
Context {A : Type} (key : A → K).

(** [x] may stand before [y] in a list sorted by [key]. *)
Definition in_order (x y : A) : Prop := lt (key y) (key x) = false.

Lemma insert_by_Permutation x l : insert_by lt key x l ≡ₚ x :: l.
Proof.
  induction l as [|y l IH]; cbn [insert_by]; [done|].
  destruct (lt (key y) (key x)); [|done].
  rewrite IH. apply Permutation_swap.
Qed.

Lemma sort_by_Permutation l : sort_by lt key l ≡ₚ l.
Proof.
  induction l as [|x l IH]; cbn; [done|].
  fold (sort_by lt key l). by rewrite insert_by_Permutation, IH.
Qed.

Lemma sort_by_length l : length (sort_by lt key l) = length l.
Proof. by rewrite sort_by_Permutation. Qed.

Hypothesis lt_asym : ∀ a b, lt a b = true → lt b a = false.

Lemma insert_by_HdRel x y l :
  in_order y x → HdRel in_order y l → HdRel in_order y (insert_by lt key x l).
Proof.
  intros Hyx Hl. destruct l as [|z l]; cbn [insert_by]; [by constructor|].
  destruct (lt (key z) (key x)); constructor; [|done].
  by inversion Hl.
Qed.

Lemma insert_by_Sorted x l :
  Sorted in_order l → Sorted in_order (insert_by lt key x l).
Proof.
  induction 1 as [|y l Hl IH Hhd]; cbn [insert_by].
  - by repeat constructor.
  - destruct (lt (key y) (key x)) eqn:Hyx.
    + constructor; [done|]. apply insert_by_HdRel; [|done].
      unfold in_order. by apply lt_asym.
    + constructor; [by constructor|]. by constructor.
Qed.

Lemma sort_by_Sorted l : Sorted in_order (sort_by lt key l).
Proof.
  induction l as [|x l IH]; cbn; [constructor|].
  by apply insert_by_Sorted.
Qed.

(** Stability: an inserted element goes before the elements it cannot
    be told from, and the others keep their order. *)
Lemma insert_by_filter_in (P : A → Prop) `{!∀ x, Decision (P x)} x l :
  P x →
  (∀ y, P y → lt (key y) (key x) = false) →
  filter P (insert_by lt key x l) = x :: filter P l.
Proof.
  intros Hx HP. induction l as [|y l IH]; cbn [insert_by].
  - by rewrite filter_cons_True.
  - destruct (lt (key y) (key x)) eqn:Hyx; [|by rewrite filter_cons_True].
    assert (¬ P y) as Hy by (intros Hy%HP; congruence).
    by rewrite !(filter_cons_False _ y), IH.
Qed.

Lemma insert_by_filter_out (P : A → Prop) `{!∀ x, Decision (P x)} x l :
  ¬ P x → filter P (insert_by lt key x l) = filter P l.
Proof.
  intros Hx. induction l as [|y l IH]; cbn [insert_by].
  - by rewrite filter_cons_False.
  - destruct (lt (key y) (key x)); [|by rewrite filter_cons_False].
    destruct (decide (P y)).
    + by rewrite !(filter_cons_True _ y), IH.
    + by rewrite !(filter_cons_False _ y), IH.
Qed.

(** The head of a sorted list: when the elements that have [P] all sort
    strictly before the others, and one of them is in the list, the
    sorted list starts with one of them. *)
Lemma sort_by_head (P : A → Prop) l :
  (∀ x y, x ∈ l → y ∈ l → P x → ¬ P y →
          lt (key x) (key y) = true ∧ lt (key y) (key x) = false) →
  (∀ x, x ∈ l → P x ∨ ¬ P x) →
  Exists P l →
  ∃ h t, sort_by lt key l = h :: t ∧ P h.
Proof.
  induction l as [|x l IH]; intros Hsep Hdec Hex; [by inversion Hex|].
  cbn. fold (sort_by lt key l).
  assert (∀ y, y ∈ sort_by lt key l → y ∈ l) as Hin.
  { intros y. by rewrite sort_by_Permutation. }
  destruct (sort_by lt key l) as [|h t] eqn:Hs.
  - exists x, []. split; [done|].
    assert (l = []) as -> by (apply Permutation_nil_r; by rewrite <- Hs, sort_by_Permutation).
    by apply Exists_cons in Hex as [?|?%Exists_nil].
  - cbn [insert_by].
    assert (h ∈ l) as Hh by (apply Hin; left).
    assert (Exists P l → P h) as IHh.
    { intros Hl. destruct IH as (h' & t' & [= <- <-] & Hh'); [| |done|done].
      - intros a b Ha Hb. apply Hsep; by right.
      - intros a Ha. apply Hdec. by right. }
    destruct (lt (key h) (key x)) eqn:Hhx.
    + exists h, (insert_by lt key x t). split; [done|].
      apply Exists_cons in Hex as [Hx|Hl]; [|by apply IHh].
      destruct (Hdec h) as [?|Hnh]; [by right|done|].
      destruct (Hsep x h) as [_ Hf]; [left|by right|done|done|congruence].
    + exists x, (h :: t). split; [done|].
      destruct (Hdec x) as [?|Hnx]; [left|done|].
      apply Exists_cons in Hex as [Hx|Hl]; [done|].
      destruct (Hsep h x) as [Ht _]; [by right|left|by apply IHh|done|congruence].
Qed.

End SortFacts.

Section SortKeyFacts.
Context {K : Type} (lt : K → K → bool).
Context {A : Type}.

Lemma sort_by_decorated (f : A → K) l :
  sort_by lt fst (zip (f <$> l) l) = (λ x, (f x, x)) <$> sort_by lt f l.
Proof.
  induction l as [|x l IH]; cbn; [done|].
  fold (sort_by lt f l). fold (sort_by lt (@fst K A) (zip (f <$> l) l)). rewrite IH.
  generalize (sort_by lt f l). intros s.
  induction s as [|y s IHs]; cbn; [done|].
  destruct (lt (f y) (f x)); cbn; [by rewrite IHs | done].
Qed.

Lemma keys_of_ok (key : A → result K) (f : A → K) l :
  Forall (λ x, key x = Ok (f x)) l → keys_of key l = Ok (f <$> l).
Proof.
  induction 1 as [|x l Hx _ IH]; cbn; [done|]. by rewrite Hx, IH.
Qed.

Lemma keys_of_raise (key : A → result K) l :
  ¬ Forall (λ x, ∃ k, key x = Ok k) l → ∃ e, keys_of key l = Raise e.
Proof.
  induction l as [|x l IH]; intros Hn; [by destruct Hn|].
  cbn. destruct (key x) as [k|e] eqn:Hx; [|by exists e].
  destruct IH as [e ->]; [|by exists e].
  intros Hl. apply Hn. constructor; [by exists k | done].
Qed.

Lemma sort_key_ok (key : A → result K) (f : A → K) l :
  Forall (λ x, key x = Ok (f x)) l → sort_key lt key l = Ok (sort_by lt f l).
Proof.
  intros Hl. unfold sort_key. rewrite (keys_of_ok key f) by done.
  rewrite sort_by_decorated. f_equal.
  rewrite <- list_fmap_compose. apply list_fmap_id.
Qed.

Lemma sort_by_fmap {B : Type} (g : B → A) (f : A → K) l :
  sort_by lt f (g <$> l) = g <$> sort_by lt (f ∘ g) l.
Proof.
  induction l as [|x l IH]; cbn; [done|].
  fold (sort_by lt f (g <$> l)). fold (sort_by lt (f ∘ g) l). rewrite IH.
  generalize (sort_by lt (f ∘ g) l). intros s.
  induction s as [|y s IHs]; cbn; [done|].
  destruct (lt (f (g y)) (f (g x))); cbn; [by rewrite IHs | done].
Qed.

End SortKeyFacts.

(** Slices that stay inside the list. *)
Lemma slice_take_drop {A : Type} (l : list A) (start stop : Z) :
  0 ≤ start ≤ stop →
  slice l start stop = take (Z.to_nat (stop - start)) (drop (Z.to_nat start) l).
Proof.
  intros H. unfold slice, slice_bound.
  rewrite !(proj2 (Z.ltb_ge _ _)) by lia.
  destruct (Z.le_gt_cases stop (Z.of_nat (length l))) as [Hs|Hs].
  - rewrite !Z.min_l by lia. done.
  - destruct (Z.le_gt_cases start (Z.of_nat (length l))) as [Hs'|Hs'].
    + rewrite (Z.min_r stop) by lia. rewrite (Z.min_l start) by lia.
      rewrite (take_ge _ (Z.to_nat (stop - start))) by (rewrite length_drop; lia).
      by rewrite take_ge by (rewrite length_drop; lia).
    + rewrite !Z.min_r by lia. rewrite Z.sub_diag.
      rewrite (drop_ge l (Z.to_nat start)) by lia. by rewrite take_nil.
Qed.

End PyFacts.


(** * Properties of the cache *)

Module CacheFacts.

Import Cache.

Definition minutes (n : Z) : Z := n * 60 * 1000000.

Lemma set_airing_cache e m l :
  currently_airing_episodes (cache (set_currently_airing_episodes e m l))
  = Listing (Some l) (Some (TsAt (now e))) (Some (Z.of_nat (length l))).
Proof. unfold set_currently_airing_episodes, save_cache. by destruct (disk_ok e). Qed.

Lemma set_popular_cache e m l :
  popular_anime (cache (set_popular_anime e m l))
  = Listing (Some l) (Some (TsAt (now e))) (Some (Z.of_nat (length l))).
Proof. unfold set_popular_anime, save_cache. by destruct (disk_ok e). Qed.

(** What the two getters have in common, stated on the listing read. *)
Definition fresh_items (e : env) (l : listing) (r : option (list listing_item)) : Prop :=
  (∀ items, r = Some items ↔
     ∃ t, l_timestamp l = Some (TsAt t) ∧ now e - t < hours_24
          ∧ items = default [] (l_items l))
  ∧ (r = None ↔ ¬ ∃ t, l_timestamp l = Some (TsAt t) ∧ now e - t < hours_24).

Lemma fresh_items_intro e l :
  fresh_items e l
    match l_timestamp l with
    | Some (TsAt t) => if now e - t <? hours_24 then Some (default [] (l_items l)) else None
    | Some TsInvalid => None
    | None => None
    end.
Proof.
  unfold fresh_items. destruct (l_timestamp l) as [[|t]|] eqn:Hts.
  - split; [intros items|]; split; try done.
    + intros (t & ? & _); done.
    + intros _ (t & ? & _); done.
  - destruct (Z.ltb_spec (now e - t) hours_24) as [Hlt|Hge].
    + split; [intros items|]; split.
      * intros [= <-]. by exists t.
      * intros (t' & [= <-] & _ & ->). done.
      * done.
      * intros H. destruct H. by exists t.
    + split; [intros items|]; split; try done.
      * intros (t' & [= <-] & ? & _). lia.
      * intros _ (t' & [= <-] & ?). lia.
  - split; [intros items|]; split; try done.
    + intros (t & ? & _); done.
    + intros _ (t & ? & _); done.
Qed.

(** C5. Each listing getter (currently airing, popular) returns the stored
    items exactly when the entry carries a timestamp that parses and
    whose age, [now - timestamp], is strictly below 24 hours; in every
    other case it returns [None].  An entry written at time T is a hit at
    T + 23h59m and a miss at T + 24h01m. *)
Theorem listing_cache_ttl (e : env) (m : manager) :
  fresh_items e (currently_airing_episodes (cache m)) (get_currently_airing_episodes e m)
  ∧ fresh_items e (popular_anime (cache m)) (get_popular_anime e m)
  ∧ (∀ items later,
       (now later = now e + minutes (23 * 60 + 59) →
          get_currently_airing_episodes later (set_currently_airing_episodes e m items)
            = Some items
          ∧ get_popular_anime later (set_popular_anime e m items) = Some items)
       ∧ (now later = now e + minutes (24 * 60 + 1) →
          get_currently_airing_episodes later (set_currently_airing_episodes e m items)
            = None
          ∧ get_popular_anime later (set_popular_anime e m items) = None)).
Proof.
  split; [apply fresh_items_intro|]. split; [apply fresh_items_intro|].
  intros items later.
  unfold get_currently_airing_episodes, get_popular_anime.
  rewrite set_airing_cache, set_popular_cache. simpl.
  split; intros ->.
  - replace (now e + minutes (23 * 60 + 59) - now e <? hours_24) with true; [done|].
    symmetry. apply Z.ltb_lt. unfold minutes, hours_24. lia.
  - replace (now e + minutes (24 * 60 + 1) - now e <? hours_24) with false; [done|].
    symmetry. apply Z.ltb_ge. unfold minutes, hours_24. lia.
Qed.

End CacheFacts.


(** * Properties of the iframe resolver *)

Module ResolverFacts.

Import Cache Backend.

Section Facts.
Variable e : env.
Variable visit : browser.

Definition episode_url (anime_id episode_session : string) : string :=
  base_url +:+ "/play/" +:+ anime_id +:+ "/" +:+ episode_session.

Ltac run_M :=
  cbv [mbind M_bind mret M_ret emit cache_get cache_set read_manager write_manager
       store_success store_failure];
  cbn [fst snd log manager_of].

(** Every path through the strategies ends with one write to the cache. *)
Lemma extract_log anime_id episode_session p w :
  log (extract e anime_id episode_session p w).2
  = log w ++ [CacheWrite anime_id episode_session].
Proof.
  unfold extract.
  destruct (found_directly p) as [u1| |?]; [destruct (u1 =? "")%string| |]; try (by run_M);
  (destruct (found_in_javascript p) as [u2|]; [destruct (u2 =? "")%string|]; try (by run_M));
  (destruct (found_dynamic p) as [u3| |?]; [destruct (u3 =? "")%string| |]; try (by run_M));
  (destruct (found_after_interaction p) as [u4| |?]; [destruct (u4 =? "")%string| |];
   by run_M).
Qed.

Lemma scrape_log anime_id episode_session w :
  log (scrape e visit anime_id episode_session w).2
  = log w ++ [PageVisit (episode_url anime_id episode_session);
              CacheWrite anime_id episode_session].
Proof.
  unfold scrape. fold (episode_url anime_id episode_session).
  destruct (visit _) as [msg|p].
  - run_M. by rewrite <- app_assoc.
  - destruct (_ || _).
    + run_M. by rewrite <- app_assoc.
    + run_M. rewrite extract_log. cbn. by rewrite <- app_assoc.
Qed.

(** The value a scrape returns depends on the page alone, not on what the
    cache held. *)
Lemma extract_value anime_id episode_session p w w' :
  (extract e anime_id episode_session p w).1 = (extract e anime_id episode_session p w').1.
Proof.
  unfold extract.
  destruct (found_directly p) as [u1| |?]; [destruct (u1 =? "")%string| |]; try (by run_M);
  (destruct (found_in_javascript p) as [u2|]; [destruct (u2 =? "")%string|]; try (by run_M));
  (destruct (found_dynamic p) as [u3| |?]; [destruct (u3 =? "")%string| |]; try (by run_M));
  (destruct (found_after_interaction p) as [u4| |?]; [destruct (u4 =? "")%string| |];
   by run_M).
Qed.

Lemma scrape_value anime_id episode_session w w' :
  (scrape e visit anime_id episode_session w).1
  = (scrape e visit anime_id episode_session w').1.
Proof.
  unfold scrape.
  destruct (visit _) as [msg|p]; [by run_M|].
  destruct (_ || _); [by run_M|]. run_M. apply extract_value.
Qed.

(** C6. When the cache holds an entry for the (anime id, episode session)
    pair, only an entry with [success = true] is returned as it is,
    without any page visit.  An entry with [success = false] is a miss:
    the call runs the scrape from its start, visits the episode page and
    writes the new outcome, and the value it returns is the one a scrape
    yields whatever the cache holds. *)
Theorem failed_entry_is_never_a_hit (anime_id episode_session : string) (w : world)
  (entry : iframe_entry) :
  Cache.get_episode_iframe (manager_of w) anime_id episode_session = Some entry →
  let out := _scrape_episode_iframe e visit anime_id episode_session w in
  let looked_up := World (manager_of w) (log w ++ [CacheRead anime_id episode_session]) in
  if ie_success entry then
    out = (IframeData (ie_iframe_url entry) true None, looked_up)
  else
    out = scrape e visit anime_id episode_session looked_up
    ∧ log out.2 = log w ++ [CacheRead anime_id episode_session;
                            PageVisit (episode_url anime_id episode_session);
                            CacheWrite anime_id episode_session]
    ∧ ∀ w', out.1 = (scrape e visit anime_id episode_session w').1.
Proof.
  intros Hget out looked_up.
  assert (Hout : out = if ie_success entry
                       then (IframeData (ie_iframe_url entry) true None, looked_up)
                       else scrape e visit anime_id episode_session looked_up).
  { subst out. unfold _scrape_episode_iframe. run_M.
    rewrite Hget. by destruct (ie_success entry). }
  destruct (ie_success entry); [done|].
  split; [done|]. rewrite Hout. split.
  - rewrite scrape_log. subst looked_up. cbn. by rewrite <- app_assoc.
  - intros w'. apply scrape_value.
Qed.

(** C7. When the index holds a non-empty [iframe_url] for the requested
    pair, [get_episode_iframe] returns it with [success = true] and leaves
    the world as it was: the cache in memory, the cache file, and the log
    (no cache read, no cache write, no page visit). *)
Theorem indexed_iframe_bypasses_cache (all_anime : Index.store)
  (anime_id episode_session : string) (ep : Index.episode) (url : string) (w : world) :
  Index.get_episode all_anime anime_id episode_session = Some ep →
  Index.ep_iframe_url ep = Some url →
  url ≠ "" →
  get_episode_iframe e visit all_anime anime_id episode_session w
  = (IframeData (Some url) true None, w).
Proof.
  intros Hep Hurl Hne. unfold get_episode_iframe. rewrite Hep, Hurl.
  by apply String.eqb_neq in Hne as ->.
Qed.

End Facts.

Lemma failed_entry_is_never_a_hit_witness :
  let w := World Samples.failed_manager [] in
  let out := _scrape_episode_iframe Samples.noon Samples.one_page_browser "show" "s1" w in
  out.1 = IframeData (Some "https://kwik.example/e/abc") true None
  ∧ log out.2 = [CacheRead "show" "s1";
                 PageVisit "https://animepahe.si/play/show/s1";
                 CacheWrite "show" "s1"].
Proof.
  pose proof (failed_entry_is_never_a_hit Samples.noon Samples.one_page_browser
                "show" "s1" (World Samples.failed_manager [])
                (IframeEntry None (TsAt 0) false) eq_refl) as H.
  cbv zeta in H. cbn [ie_success] in H. destruct H as (_ & Hlog & Hval).
  split; [|exact Hlog].
  rewrite (Hval (World Samples.empty_manager [])). reflexivity.
Defined.

Lemma indexed_iframe_bypasses_cache_witness :
  get_episode_iframe Samples.noon Samples.one_page_browser Samples.indexed_store
    "show" "s1" (World Samples.failed_manager [])
  = (IframeData (Some "https://kwik.example/e/abc") true None,
     World Samples.failed_manager []).
Proof.
  apply (indexed_iframe_bypasses_cache Samples.noon Samples.one_page_browser
           Samples.indexed_store "show" "s1"
           (Index.Episode (Some (Index.NumInt 1)) (Some "Pilot") None (Some "s1")
              (Some "https://kwik.example/e/abc"))
           "https://kwik.example/e/abc");
    [reflexivity | reflexivity | discriminate].
Defined.

End ResolverFacts.


(** * Properties of the de-duplication *)

Module DedupFacts.

Import Cache Backend.

Definition session_is (s : string) (ep : listed_episode) : Prop := le_session ep = Some s.

Global Instance session_is_dec s ep : Decision (session_is s ep).
Proof. unfold session_is. apply _. Defined.

(** A record is kept when it carries a non-empty session id that is
    neither in the set [seen] nor on an earlier record. *)
Definition first_seen (seen : gset string) (earlier : list listed_episode)
  (ep : listed_episode) : Prop :=
  ∃ s, le_session ep = Some s ∧ s ≠ "" ∧ (s ∉ seen) ∧ (Some s ∉ le_session <$> earlier).

Global Instance first_seen_dec seen earlier ep : Decision (first_seen seen earlier ep).
Proof.
  unfold first_seen. destruct (le_session ep) as [s|] eqn:Hs.
  - destruct (decide (s ≠ "" ∧ (s ∉ seen) ∧ (Some s ∉ le_session <$> earlier))) as [Hy|Hn].
    + left. by exists s.
    + right. intros (s' & [= <-] & ?). done.
  - right. intros (s' & ? & _). done.
Defined.

Lemma unique_from_snoc seen pre ep :
  unique_from seen (pre ++ [ep])
  = unique_from seen pre ++ (if decide (first_seen seen pre ep) then [ep] else []).
Proof.
  revert seen. induction pre as [|x pre IH]; intros seen.
  - cbn [app unique_from].
    case_decide as H; unfold first_seen in H; destruct (le_session ep) as [s|] eqn:Hs.
    + destruct H as (s' & [= <-] & Hne & Hn & _).
      by rewrite !bool_decide_true by done.
    + by destruct H as (s' & ? & _).
    + destruct (decide (s ≠ "")) as [Hne|He]; destruct (decide (s ∉ seen)) as [Hn|Hi];
        rewrite ?(bool_decide_true (s ≠ "")), ?(bool_decide_false (s ≠ "")),
          ?(bool_decide_true (s ∉ seen)), ?(bool_decide_false (s ∉ seen)) by done;
        cbn [andb]; try done.
      destruct H. exists s. repeat split; try done. cbn. by intros ?%elem_of_nil.
    + done.
  - cbn [app unique_from].
    destruct (le_session x) as [sx|] eqn:Hx.
    + destruct (bool_decide (sx ≠ "") && bool_decide (sx ∉ seen)) eqn:Hkeep.
      * rewrite IH. cbn [app]. f_equal. f_equal.
        apply andb_true_iff in Hkeep as [Hne%bool_decide_eq_true Hn%bool_decide_eq_true].
        apply decide_ext. unfold first_seen. cbn [fmap list_fmap]. rewrite Hx.
        split; intros (s & Hs & ? & Hseen & Hpre); exists s; repeat split; try done.
        -- set_solver.
        -- rewrite elem_of_cons. intros [[= ->]|?]; [set_solver|done].
        -- rewrite elem_of_cons in Hpre. set_solver.
        -- rewrite elem_of_cons in Hpre. naive_solver.
      * rewrite IH. f_equal.
        apply decide_ext. unfold first_seen. cbn [fmap list_fmap]. rewrite Hx.
        split; intros (s & Hs & ? & Hseen & Hpre); exists s; repeat split; try done.
        -- rewrite elem_of_cons. intros [[= ->]|?]; [|done].
           apply andb_false_iff in Hkeep as [Hk|Hk]; apply bool_decide_eq_false in Hk; done.
        -- rewrite elem_of_cons in Hpre. naive_solver.
    + rewrite IH. f_equal.
      apply decide_ext. unfold first_seen. cbn [fmap list_fmap]. rewrite Hx.
      split; intros (s & Hs & ? & Hseen & Hpre); exists s; repeat split; try done.
      * rewrite elem_of_cons. intros [[=]|?]; done.
      * rewrite elem_of_cons in Hpre. naive_solver.
Qed.

Lemma unique_from_sublist seen l : sublist (unique_from seen l) l.
Proof.
  revert seen. induction l as [|x l IH]; intros seen; cbn [unique_from]; [done|].
  destruct (le_session x) as [sx|]; [destruct (_ && _)|].
  - by apply sublist_skip.
  - by apply sublist_cons.
  - by apply sublist_cons.
Qed.

Lemma unique_from_sessions seen l :
  Forall (λ ep, ∃ s, le_session ep = Some s ∧ s ≠ "") (unique_from seen l).
Proof.
  revert seen. induction l as [|x l IH]; intros seen; cbn [unique_from]; [done|].
  destruct (le_session x) as [sx|] eqn:Hx; [|done].
  destruct (bool_decide (sx ≠ "") && bool_decide (sx ∉ seen)) eqn:Hkeep; [|done].
  apply andb_true_iff in Hkeep as [Hne%bool_decide_eq_true _].
  constructor; [by exists sx | done].
Qed.

Lemma unique_from_filter seen l s :
  s ≠ "" →
  filter (session_is s) (unique_from seen l)
  = if decide (s ∈ seen) then [] else take 1 (filter (session_is s) l).
Proof.
  intros Hs. revert seen. induction l as [|x l IH]; intros seen; cbn [unique_from].
  - by case_decide.
  - destruct (le_session x) as [sx|] eqn:Hx.
    + destruct (decide (sx = s)) as [->|Hne].
      * rewrite (bool_decide_true (s ≠ "")) by done. cbn [andb].
        rewrite (filter_cons_True (session_is s) x l) by done.
        destruct (decide (s ∈ seen)) as [Hi|Hn].
        -- rewrite bool_decide_false by (intros H; by apply H). rewrite IH.
           by rewrite decide_True.
        -- rewrite bool_decide_true by done.
           rewrite filter_cons_True by done. rewrite IH.
           rewrite decide_True by set_solver. done.
      * rewrite (filter_cons_False (session_is s) x l)
          by (unfold session_is; rewrite Hx; congruence).
        destruct (_ && _).
        -- rewrite filter_cons_False by (unfold session_is; rewrite Hx; congruence).
           rewrite IH. apply decide_ext. set_solver.
        -- apply IH.
    + rewrite (filter_cons_False (session_is s) x l)
        by (unfold session_is; rewrite Hx; congruence).
      apply IH.
Qed.

(** C10. [remove_duplicate_episodes] keeps the records in their original
    order; every record it keeps carries a non-empty session id; for
    each non-empty session id, the records kept for it are exactly the
    first record of the input that carries it (one record when the id
    occurs, whatever the number of repetitions); and a record is kept
    exactly when it carries a non-empty session id that no earlier record
    carries, so that records without a session id or with an empty one
    are all removed. *)
Theorem remove_duplicate_episodes_keeps_first (episodes : list listed_episode) :
  let out := remove_duplicate_episodes episodes in
  sublist out episodes
  ∧ Forall (λ ep, ∃ s, le_session ep = Some s ∧ s ≠ "") out
  ∧ (∀ s, s ≠ "" →
       filter (session_is s) out = take 1 (filter (session_is s) episodes))
  ∧ (∀ ep, remove_duplicate_episodes (episodes ++ [ep])
           = out ++ (if decide (first_seen ∅ episodes ep) then [ep] else [])).
Proof.
  cbv zeta. unfold remove_duplicate_episodes. repeat split.
  - apply unique_from_sublist.
  - apply unique_from_sessions.
  - intros s Hs. rewrite unique_from_filter by done. by rewrite decide_False by set_solver.
  - intros ep. apply unique_from_snoc.
Qed.

End DedupFacts.


(** * The catalogue and [get_next_episode] *)

Module IndexFacts.

Import Index.

(** C2. The catalogue is not left as it was loaded by [get_next_episode]:
    on a catalogue whose anime lists episode 2 before episode 1, asking
    for the episode after ["s1"] answers episode 2 and leaves the stored
    list in the order 1, 2.  The sort is done on the list object the
    catalogue record holds. *)
Theorem get_next_episode_reorders_catalogue :
  get_next_episode Samples.unsorted_store "show" "s1"
  = (Some (Samples.ep 2 "s2"), Samples.sorted_store)
  ∧ Samples.sorted_store ≠ Samples.unsorted_store.
Proof. split; [reflexivity | discriminate]. Qed.

(** [float] accepts the number of the episode. *)
Definition numeric (ep : episode) : Prop := ∃ z, float_key ep = Py.Ok z.

Global Instance numeric_dec ep : Decision (numeric ep).
Proof.
  unfold numeric. destruct (float_key ep) as [z|e].
  - left. by exists z.
  - right. by intros [z ?].
Defined.

(** The key the sort compares, 0 standing for a key that raises. *)
Definition number_of (ep : episode) : Z :=
  match float_key ep with
  | Py.Ok z => z
  | Py.Raise _ => 0
  end.

(** [view] is [eps] ordered by number: the same episodes, numbers never
    decreasing, and episodes of equal number in the order they had. *)
Definition in_number_order (eps view : list episode) : Prop :=
  view ≡ₚ eps
  ∧ Sorted (λ x y, number_of x ≤ number_of y) view
  ∧ ∀ z, filter (λ x, number_of x = z) view = filter (λ x, number_of x = z) eps.

Lemma sort_episodes_numeric eps :
  Forall numeric eps → sort_episodes eps = Py.sort_by Z.ltb number_of eps.
Proof.
  intros Hnum. unfold sort_episodes.
  rewrite (PyFacts.sort_key_ok Z.ltb float_key number_of); [done|].
  eapply Forall_impl; [exact Hnum|]. intros ep [z Hz]. unfold number_of. by rewrite Hz.
Qed.

Lemma sort_episodes_not_numeric eps :
  ¬ Forall numeric eps → sort_episodes eps = eps.
Proof.
  intros Hnum. unfold sort_episodes.
  destruct (PyFacts.keys_of_raise float_key eps Hnum) as [e He].
  unfold Py.sort_key. by rewrite He.
Qed.

Lemma sort_by_number_order eps :
  in_number_order eps (Py.sort_by Z.ltb number_of eps).
Proof.
  split; [apply PyFacts.sort_by_Permutation|]. split.
  - eapply PyFacts.Sorted_weaken; [|apply (PyFacts.sort_by_Sorted Z.ltb number_of)].
    + intros x y Hxy. unfold PyFacts.in_order in Hxy. lia.
    + intros a b Hab. lia.
  - intros z. induction eps as [|x eps IH]; [done|].
    unfold Py.sort_by. cbn [foldr]. fold (Py.sort_by Z.ltb number_of eps).
    destruct (decide (number_of x = z)) as [Hx|Hx].
    + rewrite PyFacts.insert_by_filter_in; [|done|intros y Hy; lia].
      by rewrite filter_cons_True, IH.
    + rewrite PyFacts.insert_by_filter_out by done.
      by rewrite filter_cons_False, IH.
Qed.

(** The loop of [get_next_episode], on a list split at the first episode
    of the session. *)
Lemma next_after_first_match session pre ep rest :
  Forall (λ x, ¬ has_session session x) pre →
  has_session session ep →
  next_after session (pre ++ ep :: rest) = head rest.
Proof.
  intros Hpre Hep. induction Hpre as [|x pre Hx _ IH]; cbn [app next_after].
  - rewrite decide_True by done. by destruct rest.
  - by rewrite decide_False by done.
Qed.

Lemma next_after_no_match session eps :
  Forall (λ x, ¬ has_session session x) eps → next_after session eps = None.
Proof.
  induction 1 as [|x eps Hx _ IH]; cbn [next_after]; [done|].
  by rewrite decide_False by done.
Qed.

Lemma get_next_episode_value all_anime anime_id current_session a eps :
  get_anime_by_id all_anime anime_id = Some a →
  a_episodes a = Some eps →
  (get_next_episode all_anime anime_id current_session).1
  = next_after current_session (sort_episodes eps).
Proof.
  unfold get_anime_by_id, get_next_episode. intros Ha Heps.
  destruct (list_find _ _) as [[i a']|]; [|done].
  injection Ha as ->. by rewrite Heps.
Qed.

Lemma sort_episodes_Permutation eps : sort_episodes eps ≡ₚ eps.
Proof.
  destruct (decide (Forall numeric eps)) as [Hn|Hn].
  - rewrite sort_episodes_numeric by done. apply PyFacts.sort_by_Permutation.
  - by rewrite sort_episodes_not_numeric.
Qed.

(** *** The numbers as the records hold them *)

(** The integer under ["number"]; 0 stands for an absent key, as in
    [x.get('number', 0)]. *)
Definition the_number (ep : episode) : Z :=
  match ep_number ep with
  | Some (NumInt z) => z
  | _ => 0
  end.

(** The number is an integer, or is absent. *)
Definition integral (ep : episode) : Prop :=
  ep_number ep = None ∨ ∃ z, ep_number ep = Some (NumInt z).

(** The number is an integer that a double holds as it is. *)
Definition exact (ep : episode) : Prop :=
  integral ep ∧ Z.abs (the_number ep) < 2 ^ 53.

(** The number has a double: it is an integer that [float] converts. *)
Definition convertible (ep : episode) : Prop :=
  integral ep ∧ ∃ d, Py.float_of_int (the_number ep) = Py.Ok d.

(** The double of the number, as the integer it stands for. *)
Definition as_double (ep : episode) : Z :=
  match Py.float_of_int (the_number ep) with
  | Py.Ok d => d
  | Py.Raise _ => 0
  end.

(** The number makes the sort fail: it is a text, null, or an integer
    beyond the doubles. *)
Definition unsortable (ep : episode) : Prop :=
  ep_number ep = Some NumText ∨ ep_number ep = Some NumNull
  ∨ ∃ z, ep_number ep = Some (NumInt z) ∧ 2 ^ 1024 ≤ Z.abs z.

(** [found] is what a reader of [view] answers for [session]: the
    episode right after the first one that carries the session, and
    nothing when that one is the last or when there is none. *)
Definition answers_from (view : list episode) (session : string)
  (found : option episode) : Prop :=
  (∀ pre ep nxt post,
     view = pre ++ ep :: nxt :: post →
     Forall (λ x, ¬ has_session session x) pre →
     has_session session ep →
     found = Some nxt)
  ∧ (∀ pre ep,
       view = pre ++ [ep] →
       Forall (λ x, ¬ has_session session x) pre →
       has_session session ep →
       found = None)
  ∧ (Forall (λ x, ¬ has_session session x) view → found = None).

(** [view] is [eps] in the order of [key], stably: the same episodes,
    keys never decreasing, episodes of equal key in the order they had. *)
Definition ordered_by (key : episode → Z) (eps view : list episode) : Prop :=
  view ≡ₚ eps
  ∧ Sorted (λ x y, key x ≤ key y) view
  ∧ ∀ z, filter (λ x, key x = z) view = filter (λ x, key x = z) eps.

(** The stable sort by an integer key orders by the key. *)
Lemma sort_by_ordered (key : episode → Z) eps :
  ordered_by key eps (Py.sort_by Z.ltb key eps).
Proof.
  split; [apply PyFacts.sort_by_Permutation|]. split.
  - eapply PyFacts.Sorted_weaken; [|apply (PyFacts.sort_by_Sorted Z.ltb key)].
    + intros x y Hxy. unfold PyFacts.in_order in Hxy. lia.
    + intros a b Hab. lia.
  - intros z. induction eps as [|x eps IH]; [done|].
    unfold Py.sort_by. cbn [foldr]. fold (Py.sort_by Z.ltb key eps).
    destruct (decide (key x = z)) as [Hx|Hx].
    + rewrite PyFacts.insert_by_filter_in; [|done|intros y Hy; lia].
      by rewrite filter_cons_True, IH.
    + rewrite PyFacts.insert_by_filter_out by done.
      by rewrite filter_cons_False, IH.
Qed.

(** C8 as the claim words it, of one call: the answer is read from the
    episodes in the numeric order of their numbers. *)
Definition follows_in_number_order (eps : list episode) (session : string)
  (found : option episode) : Prop :=
  ∃ view, ordered_by the_number eps view ∧ answers_from view session found.

Lemma next_after_answers view session : answers_from view session (next_after session view).
Proof.
  split; [|split].
  - intros pre ep nxt post -> Hpre Hep. by rewrite next_after_first_match.
  - intros pre ep -> Hpre Hep. by rewrite next_after_first_match.
  - apply next_after_no_match.
Qed.

Lemma float_of_int_exact z : Z.abs z < 2 ^ 53 → Py.float_of_int z = Py.Ok z.
Proof. intros Hz. unfold Py.float_of_int. by rewrite (proj2 (Z.ltb_lt _ _) Hz). Qed.

Lemma float_of_int_overflow z :
  2 ^ 1024 ≤ Z.abs z → Py.float_of_int z = Py.Raise Py.OverflowError.
Proof.
  intros Hz. unfold Py.float_of_int.
  assert (2 ^ 53 < 2 ^ 1024) as Hpow by (apply Z.pow_lt_mono_r; lia).
  rewrite (proj2 (Z.ltb_ge _ _)) by lia.
  set (a := Z.abs z) in *. set (shift := Z.log2 a - 52).
  assert (1024 ≤ Z.log2 a) as Hlog by (apply Z.log2_le_pow2; lia).
  assert (0 ≤ shift) as Hshift by (unfold shift; lia).
  assert (2 ^ 52 ≤ Z.shiftr a shift) as Hq.
  { rewrite Z.shiftr_div_pow2 by done. apply Z.div_le_lower_bound; [lia|].
    rewrite <- Z.pow_add_r by lia. replace (shift + 52) with (Z.log2 a) by (unfold shift; lia).
    apply Z.log2_spec. lia. }
  match goal with |- context [Z.shiftl ?q shift] => set (q' := q) end.
  assert (2 ^ 52 ≤ q') as Hq'.
  { unfold q'. destruct (_ || _); lia. }
  rewrite (proj2 (Z.leb_le _ _)); [done|].
  rewrite Z.shiftl_mul_pow2 by done.
  replace (2 ^ 1024) with (2 ^ 52 * 2 ^ 972) by (rewrite <- Z.pow_add_r by lia; done).
  apply Z.mul_le_mono_nonneg; try lia.
  apply Z.pow_le_mono_r; lia.
Qed.

Lemma integral_key ep :
  integral ep → float_key ep = Py.float_of_int (the_number ep).
Proof.
  unfold integral, float_key, the_number. intros [-> | [z ->]]; [|done].
  symmetry. by apply float_of_int_exact.
Qed.

Lemma convertible_key ep :
  convertible ep → float_key ep = Py.Ok (as_double ep) ∧ number_of ep = as_double ep.
Proof.
  intros [Hi [d Hd]]. unfold number_of, as_double. rewrite integral_key by done.
  by rewrite Hd.
Qed.

Lemma exact_convertible ep : exact ep → convertible ep ∧ as_double ep = the_number ep.
Proof.
  intros [Hi Hz]. unfold convertible, as_double. rewrite float_of_int_exact by done.
  split; [|done]. split; [done|by eexists].
Qed.

Lemma unsortable_key ep : unsortable ep → ¬ numeric ep.
Proof.
  unfold numeric, float_key. intros [-> | [-> | (z & -> & Hz)]] [d Hd]; try done.
  by rewrite float_of_int_overflow in Hd.
Qed.

Lemma filter_on {A : Type} (P Q : A → Prop) `{!∀ x, Decision (P x)} `{!∀ x, Decision (Q x)}
  (l : list A) :
  Forall (λ x, P x ↔ Q x) l → filter P l = filter Q l.
Proof.
  induction 1 as [|x l Hx _ IH]; [done|].
  destruct (decide (P x)) as [HP|HP].
  - rewrite !filter_cons_True by tauto. by rewrite IH.
  - rewrite !filter_cons_False by tauto. done.
Qed.

Lemma Sorted_on {A : Type} (R R' : relation A) (P : A → Prop) (l : list A) :
  (∀ x y, P x → P y → R x y → R' x y) → Forall P l → Sorted R l → Sorted R' l.
Proof.
  intros HR HP Hl. induction Hl as [|x l _ IH Hhd]; [constructor|].
  apply Forall_cons in HP as [Hx HP]. constructor; [by apply IH|].
  destruct Hhd as [|y l Hxy]; constructor.
  apply Forall_cons in HP as [Hy _]. by apply HR.
Qed.

Lemma ordered_by_ext (key key' : episode → Z) eps view :
  Forall (λ x, key x = key' x) eps → ordered_by key eps view → ordered_by key' eps view.
Proof.
  intros Hk (Hperm & Hsorted & Hstable).
  assert (Forall (λ x, key x = key' x) view) as Hk' by (by rewrite Hperm).
  split; [done|]. split.
  - apply (Sorted_on (λ x y, key x ≤ key y) _ (λ x, key x = key' x)); [|done|done].
    intros x y Hx Hy. lia.
  - intros z. transitivity (filter (λ x, key x = z) view).
    + apply filter_on. eapply Forall_impl; [exact Hk'|]. intros x Hx. cbn. by rewrite Hx.
    + rewrite Hstable. apply filter_on.
      eapply Forall_impl; [exact Hk|]. intros x Hx. cbn. by rewrite Hx.
Qed.

(** On episodes whose numbers convert, the sort orders by the doubles. *)
Lemma sort_episodes_convertible eps :
  Forall convertible eps → ordered_by as_double eps (sort_episodes eps).
Proof.
  intros Hc.
  assert (Forall numeric eps) as Hn.
  { eapply Forall_impl; [exact Hc|]. intros ep [Hk _]%convertible_key. by eexists. }
  rewrite sort_episodes_numeric by done.
  apply (ordered_by_ext number_of); [|apply sort_by_number_order].
  eapply Forall_impl; [exact Hc|]. by intros ep [_ ?]%convertible_key.
Qed.


(** Two episodes whose numbers, 2^53 + 1 and 2^53, have the same double. *)
Definition big_episodes : list episode :=
  [Samples.ep 9007199254740993 "a"; Samples.ep 9007199254740992 "b"].

Definition big_store : store := [Anime (Some "show") (Some "Show") (Some big_episodes)].



End IndexFacts.


(** * The index-backed episode list *)

Module EpisodesFacts.

Import Index Cache Backend.

(** The integer the sort of [get_episodes] compares. *)
Definition listed_number (x : listed_episode) : Z :=
  match le_number x with
  | NumInt z => z
  | _ => 0
  end.

Definition numbers_from (first count : Z) : list (option number_value) :=
  (λ n, Some (NumInt n)) <$> seqZ first count.

Lemma int_key_listed ep n :
  ep_number ep = Some (NumInt n) →
  int_key (format_episode ep) = Py.Ok n ∧ listed_number (format_episode ep) = n.
Proof. intros H. unfold int_key, listed_number, format_episode. cbn. by rewrite H. Qed.

(** The pagination proper, on a list of known length. *)
Lemma paginate_inside title (l : list listed_episode) (page : Z) :
  1 ≤ page →
  paginate title l page
  = EpisodePage title
      (take 50 (drop (Z.to_nat (50 * (page - 1))) l))
      (Z.of_nat (length l))
      (bool_decide (page * 50 < Z.of_nat (length l)))
      page
      (if bool_decide (page * 50 < Z.of_nat (length l)) then Some (page + 1) else None).
Proof.
  intros Hpage. unfold paginate, EPISODES_PER_PAGE.
  rewrite PyFacts.slice_take_drop by lia.
  replace (Z.to_nat (page * 50 - (page - 1) * 50)) with 50%nat by lia.
  replace ((page - 1) * 50) with (50 * (page - 1)) by lia.
  destruct (Z.ltb_spec (page * 50) (Z.of_nat (length l))).
  - by rewrite bool_decide_true.
  - by rewrite bool_decide_false by lia.
Qed.

Local Abbreviation the_number := IndexFacts.the_number.

(** The record the listing shows for an episode of the index: its
    number, its title cleaned, its URL, and its episode id as session. *)
Definition shown (ep : episode) : listed_episode :=
  ListedEpisode (default NumNull (ep_number ep))
                (clean_episode_title (default "" (ep_title ep)))
                (ep_url ep) (ep_episode_id ep).

(** The episode carries an integer number. *)
Definition numbered (ep : episode) : Prop := ∃ n, ep_number ep = Some (NumInt n).

Lemma numbered_number ep : numbered ep → ep_number ep = Some (NumInt (the_number ep)).
Proof. intros [n Hn]. unfold IndexFacts.the_number. by rewrite Hn. Qed.

Lemma shown_number ep : numbered ep → le_number (shown ep) = NumInt (the_number ep).
Proof. intros Hn. cbn. by rewrite numbered_number. Qed.

Lemma sort_by_ext {A : Type} (f g : A → Z) (l : list A) :
  (∀ x, f x = g x) → Py.sort_by Z.ltb f l = Py.sort_by Z.ltb g l.
Proof.
  intros Hfg. induction l as [|x l IH]; [done|].
  cbn. fold (Py.sort_by Z.ltb f l). fold (Py.sort_by Z.ltb g l). rewrite IH.
  generalize (Py.sort_by Z.ltb g l). intros s.
  induction s as [|y s IHs]; cbn; [done|].
  rewrite !Hfg. by rewrite IHs.
Qed.

(** The list [get_episodes] cuts its pages from: the episodes in the
    order of their numbers. *)
Definition by_number (eps : list episode) : list episode :=
  Py.sort_by Z.ltb the_number eps.

Lemma sorted_listing eps :
  Forall numbered eps →
  Py.sort_key Z.ltb int_key (format_episode <$> eps) = Py.Ok (shown <$> by_number eps).
Proof.
  intros Hn. rewrite (PyFacts.sort_key_ok Z.ltb int_key listed_number).
  - rewrite PyFacts.sort_by_fmap. f_equal. unfold by_number.
    change format_episode with shown. f_equal. apply sort_by_ext.
    intros ep. unfold listed_number, IndexFacts.the_number. cbn.
    by destruct (ep_number ep) as [[]|].
  - apply Forall_fmap. eapply Forall_impl; [exact Hn|]. intros ep [n Hn']. cbn.
    by destruct (int_key_listed ep n Hn') as [-> ->].
Qed.

Lemma get_episodes_numbered all_anime anime_id a eps page :
  get_anime_by_id all_anime anime_id = Some a →
  a_episodes a = Some eps →
  Forall numbered eps →
  1 ≤ page →
  get_episodes all_anime anime_id page
  = Py.Ok (EpisodePage (default "Unknown Title" (a_title a))
             (shown <$> take 50 (drop (Z.to_nat (50 * (page - 1))) (by_number eps)))
             (Z.of_nat (length eps))
             (bool_decide (page * 50 < Z.of_nat (length eps))) page
             (if bool_decide (page * 50 < Z.of_nat (length eps))
              then Some (page + 1) else None)).
Proof.
  intros Ha Heps Hnum Hpage. unfold get_episodes. rewrite Ha, Heps.
  change (default [] (Some eps)) with eps.
  rewrite sorted_listing by done. rewrite paginate_inside by done.
  assert (length (shown <$> by_number eps) = length eps) as ->.
  { rewrite length_fmap. unfold by_number. apply PyFacts.sort_by_length. }
  by rewrite <- fmap_drop, <- fmap_take.
Qed.

(** The numbers of a list in number order that holds each of 1 to 120
    once. *)
Lemma by_number_sequence eps :
  the_number <$> eps ≡ₚ seqZ 1 120 → the_number <$> by_number eps = seqZ 1 120.
Proof.
  intros Hnumbers. apply (Sorted_unique Z.le).
  - apply (Sorted_fmap _ (λ x y, the_number x ≤ the_number y)); [done|].
    apply (IndexFacts.sort_by_ordered the_number eps).
  - apply (bool_decide_unpack (Sorted Z.le (seqZ 1 120))). by vm_compute.
  - unfold by_number. by rewrite PyFacts.sort_by_Permutation.
Qed.

Lemma shown_numbers (l : list episode) :
  Forall numbered l → le_number <$> (shown <$> l) = NumInt <$> (the_number <$> l).
Proof.
  intros Hl. rewrite <- !list_fmap_compose. apply Forall_fmap_ext.
  eapply Forall_impl; [exact Hl|]. intros ep Hep. by apply shown_number.
Qed.

(** C4. [get_episodes] lists the episodes of an anime of the index in
    the order of their numbers, in pages of 50.  For an anime whose
    episodes all carry an integer number, page [p] holds the records of
    the 50 episodes that follow the first [50 * (p - 1)] of the list in
    number order, each with the number, the cleaned title, the URL and
    the episode id of its episode; [total_episodes] is the number of
    episodes, [has_next_page] says whether [50 * p] is below it, and
    [next_page] is [p + 1] in that case and absent otherwise.  For an
    anime whose 120 episodes are numbered 1 to 120, in any stored order,
    page 1 holds the episodes numbered 1 to 50 with [has_next_page] set
    and [next_page = 2], and page 3 holds the episodes numbered 101 to
    120 with [has_next_page] unset and no [next_page]. *)
Theorem get_episodes_pages_of_fifty (all_anime : store) (anime_id : string)
  (a : anime) (eps : list episode) :
  get_anime_by_id all_anime anime_id = Some a →
  a_episodes a = Some eps →
  Forall numbered eps →
  let title := default "Unknown Title" (a_title a) in
  let total := Z.of_nat (length eps) in
  ∃ sorted,
    IndexFacts.ordered_by the_number eps sorted
    ∧ (∀ page, 1 ≤ page →
         get_episodes all_anime anime_id page
         = Py.Ok (EpisodePage title
                    (shown <$> take 50 (drop (Z.to_nat (50 * (page - 1))) sorted))
                    total (bool_decide (page * 50 < total)) page
                    (if bool_decide (page * 50 < total) then Some (page + 1) else None)))
    ∧ (the_number <$> eps ≡ₚ seqZ 1 120 →
         ∃ first third,
           get_episodes all_anime anime_id 1 = Py.Ok first
           ∧ get_episodes all_anime anime_id 3 = Py.Ok third
           ∧ pg_episodes first = shown <$> take 50 sorted
           ∧ le_number <$> pg_episodes first = NumInt <$> seqZ 1 50
           ∧ pg_has_next_page first = true ∧ pg_next_page first = Some 2
           ∧ pg_episodes third = shown <$> drop 100 sorted
           ∧ le_number <$> pg_episodes third = NumInt <$> seqZ 101 20
           ∧ pg_has_next_page third = false ∧ pg_next_page third = None
           ∧ pg_total_episodes first = 120 ∧ pg_total_episodes third = 120).
Proof.
  intros Ha Heps Hnum title total. exists (by_number eps).
  split; [apply IndexFacts.sort_by_ordered|]. split.
  { intros page Hpage. by apply get_episodes_numbered. }
  intros Hnumbers.
  assert (length eps = 120%nat) as Hlen.
  { by rewrite <- (length_fmap the_number), Hnumbers, length_seqZ. }
  assert (length (by_number eps) = 120%nat) as Hlen'.
  { unfold by_number. by rewrite PyFacts.sort_by_length. }
  assert (Forall numbered (by_number eps)) as Hnum'.
  { unfold by_number. by rewrite PyFacts.sort_by_Permutation. }
  pose proof (by_number_sequence eps Hnumbers) as Hseq.
  eexists _, _.
  split; [by apply (get_episodes_numbered _ _ a eps 1)|].
  split; [by apply (get_episodes_numbered _ _ a eps 3)|].
  cbn [pg_episodes pg_has_next_page pg_next_page pg_total_episodes].
  change (Z.to_nat (50 * (1 - 1))) with 0%nat. change (Z.to_nat (50 * (3 - 1))) with 100%nat.
  rewrite drop_0. rewrite (take_ge (drop 100 _)) by (rewrite length_drop; lia).
  rewrite Hlen. split; [done|]. split.
  { rewrite shown_numbers by (by apply Forall_take). rewrite (fmap_take the_number), Hseq. by vm_compute. }
  split; [done|]. split; [done|]. split; [done|]. split.
  { rewrite shown_numbers by (by apply Forall_drop). rewrite (fmap_drop the_number), Hseq. by vm_compute. }
  done.
Qed.

Lemma long_episodes_numbers :
  the_number <$> Samples.long_episodes ≡ₚ seqZ 1 120.
Proof.
  unfold Samples.long_episodes.
  rewrite <- list_fmap_compose, fmap_reverse, reverse_Permutation.
  by rewrite list_fmap_id.
Qed.

Lemma get_episodes_pages_of_fifty_witness :
  ∃ first third,
    get_episodes Samples.long_store "long" 1 = Py.Ok first
    ∧ get_episodes Samples.long_store "long" 3 = Py.Ok third
    ∧ le_number <$> pg_episodes first = NumInt <$> seqZ 1 50
    ∧ pg_has_next_page first = true ∧ pg_next_page first = Some 2
    ∧ le_number <$> pg_episodes third = NumInt <$> seqZ 101 20
    ∧ pg_has_next_page third = false ∧ pg_next_page third = None.
Proof.
  destruct (get_episodes_pages_of_fifty Samples.long_store "long" Samples.long_anime
              Samples.long_episodes eq_refl eq_refl) as (sorted & _ & _ & Hlong).
  - apply Forall_fmap, Forall_forall. intros n _. by exists n.
  - destruct (Hlong long_episodes_numbers)
      as (first & third & H1 & H3 & _ & Hn1 & Hh1 & Hp1 & _ & Hn3 & Hh3 & Hp3 & _).
    by exists first, third.
Defined.

End EpisodesFacts.


(** * Properties of the search *)

Module SearchFacts.

Import Index.

Section Facts.
Variable lower : string → string.
Variable ascii_fold : string → string.
Variable ratio : string → string → Q.

Local Abbreviation priority := (priority lower ascii_fold ratio).
Local Abbreviation keep := (keep lower ascii_fold ratio).
Local Abbreviation annotate := (annotate lower ascii_fold ratio).
Local Abbreviation candidates := (candidates lower ascii_fold ratio).
Local Abbreviation exact_match := (exact_match lower ascii_fold).
Local Abbreviation starts_with := (starts_with lower ascii_fold).
Local Abbreviation contains := (contains lower ascii_fold).
Local Abbreviation similarity := (similarity lower ratio).
Local Abbreviation match_type_of := (match_type_of lower ascii_fold).
Local Abbreviation flexible_search := (flexible_search lower ascii_fold ratio).
Local Abbreviation normalize_text := (normalize_text lower ascii_fold).

(** The sort key of a record that has a title. *)
Definition key_of (r : search_result) : Q * string :=
  (- sr_priority r, title_of (sr_anime r))%Q.

Definition titled (a : anime) : Prop := is_Some (a_title a).

Lemma Qltb_lt x y : Qltb x y = true ↔ (x < y)%Q.
Proof.
  unfold Qltb. rewrite negb_true_iff. split.
  - intros H. apply Qnot_le_lt. intros Hle%Qle_bool_iff. congruence.
  - intros H. apply not_true_is_false. intros Hle%Qle_bool_iff.
    by apply Qle_not_lt in Hle.
Qed.

Lemma keep_spec query a :
  keep query a = true
  ↔ (20 < priority query a)%Q ∨ contains query a = true ∨ starts_with query a = true.
Proof.
  unfold Index.keep. rewrite !orb_true_iff, Qltb_lt. tauto.
Qed.

Lemma candidates_spec query all_anime r :
  r ∈ candidates query all_anime
  ↔ ∃ a, a ∈ all_anime ∧ keep query a = true ∧ r = annotate query a.
Proof.
  unfold Index.candidates. rewrite list_elem_of_fmap. split.
  - intros (a & -> & [? ?]%list_elem_of_filter). by exists a.
  - intros (a & ? & ? & ->). exists a. split; [done|]. by apply list_elem_of_filter.
Qed.

Lemma candidates_keys query all_anime :
  Forall titled all_anime →
  Forall (λ r, sort_key_of r = Py.Ok (key_of r)) (candidates query all_anime).
Proof.
  intros Hall. apply Forall_forall. intros r (a & Ha & _ & ->)%candidates_spec.
  rewrite Forall_forall in Hall. destruct (Hall a Ha) as [t Ht].
  unfold sort_key_of, key_of, title_of. cbn. by rewrite Ht.
Qed.

(** The search on a catalogue whose records all have a title: nothing is
    raised, and the result is a slice of the sorted candidates. *)
Lemma flexible_search_titled all_anime query limit :
  query ≠ "" →
  Forall titled all_anime →
  flexible_search all_anime query limit
  = Py.Ok (Py.slice (Py.sort_by key_lt key_of (candidates query all_anime)) 0 limit).
Proof.
  intros Hq Hall. unfold Index.flexible_search.
  apply String.eqb_neq in Hq as ->. cbn [orb].
  case_bool_decide as Hnil.
  - subst. unfold Py.slice. cbn. by destruct (Z.to_nat _).
  - by rewrite (PyFacts.sort_key_ok key_lt sort_key_of key_of)
      by by apply candidates_keys.
Qed.

Lemma sorted_candidates_spec query all_anime r :
  r ∈ Py.sort_by key_lt key_of (candidates query all_anime)
  ↔ ∃ a, a ∈ all_anime ∧ keep query a = true ∧ r = annotate query a.
Proof. by rewrite PyFacts.sort_by_Permutation, candidates_spec. Qed.

Lemma annotate_in_sorted query all_anime a :
  a ∈ all_anime →
  annotate query a ∈ Py.sort_by key_lt key_of (candidates query all_anime)
  ↔ (20 < priority query a)%Q ∨ contains query a = true ∨ starts_with query a = true.
Proof.
  intros Ha. rewrite sorted_candidates_spec, <- keep_spec. split.
  - intros (a' & _ & Hk & Heq). by injection Heq as -> _ _.
  - intros Hk. by exists a.
Qed.

(** *** The search as the claim words it *)

(** The priority of a candidate, from the normalized query, the
    normalized title and the ratio of the lowercased strings. *)
Definition stated_priority (query : string) (a : anime) : Q :=
  let normalized_query := normalize_text query in
  let normalized_title := normalize_text (title_of a) in
  let similarity := ratio (lower query) (lower (title_of a)) in
  if (normalized_query =? normalized_title)%string then 100
  else if Py.startswith normalized_title normalized_query then 80 + similarity * 10
  else if Py.contains normalized_query normalized_title then 60 + similarity * 10
  else similarity * 50.

Definition stated_match_type (query : string) (a : anime) : match_type :=
  let normalized_query := normalize_text query in
  let normalized_title := normalize_text (title_of a) in
  if (normalized_query =? normalized_title)%string then Exact
  else if Py.startswith normalized_title normalized_query then StartsWith
  else if Py.contains normalized_query normalized_title then Contains
  else Similar.

(** The candidate is kept: its priority exceeds 20, or its normalized
    title contains or starts with the normalized query. *)
Definition stated_keep (query : string) (a : anime) : Prop :=
  (20 < stated_priority query a)%Q
  ∨ Py.contains (normalize_text query) (normalize_text (title_of a)) = true
  ∨ Py.startswith (normalize_text (title_of a)) (normalize_text query) = true.

Global Instance stated_keep_dec query a : Decision (stated_keep query a).
Proof.
  unfold stated_keep. apply or_dec; [|apply _].
  destruct (Qlt_le_dec 20 (stated_priority query a)); [by left|right].
  by apply Qle_not_lt.
Defined.

(** [r1] may stand right before [r2] in a list sorted by
    [(-priority, title)]: its priority is higher, or the priorities are
    equal and its title does not come after. *)
Definition ranked_before (r1 r2 : search_result) : Prop :=
  (sr_priority r2 < sr_priority r1)%Q
  ∨ ((sr_priority r1 == sr_priority r2)%Q
     ∧ String.ltb (title_of (sr_anime r2)) (title_of (sr_anime r1)) = false).

(** The claim C1 makes of one call: each record of the catalogue is in
    the result, with the priority the claim gives, exactly when it is
    kept. *)
Definition appears_iff_kept (all_anime : store) (query : string) (limit : Z) : Prop :=
  ∀ a, a ∈ all_anime →
    ∃ results,
      flexible_search all_anime query limit = Py.Ok results
      ∧ ((∃ r, r ∈ results ∧ sr_anime r = a
               ∧ sr_priority r = stated_priority query a
               ∧ sr_match_type r = stated_match_type query a)
         ↔ stated_keep query a).

Lemma stated_keep_spec query a : keep query a = true ↔ stated_keep query a.
Proof. apply keep_spec. Qed.

Lemma ltb_asym (s t : string) : String.ltb s t = true → String.ltb t s = false.
Proof.
  unfold String.ltb. rewrite (String.compare_antisym t s).
  by destruct (String.compare s t).
Qed.

Lemma key_lt_asym (k1 k2 : Q * string) : key_lt k1 k2 = true → key_lt k2 k1 = false.
Proof.
  unfold key_lt. destruct (Qeq_bool k1.1 k2.1) eqn:He.
  - apply Qeq_bool_iff in He.
    assert (Qeq_bool k2.1 k1.1 = true) as -> by (apply Qeq_bool_iff; lra).
    apply ltb_asym.
  - assert (Qeq_bool k2.1 k1.1 = false) as ->.
    { apply not_true_is_false. intros E%Qeq_bool_iff. apply Qeq_bool_neq in He. lra. }
    intros H%Qltb_lt. apply not_true_is_false.
    intros H'%Qltb_lt. lra.
Qed.

Lemma sorted_candidates query all_anime :
  Sorted (PyFacts.in_order key_lt key_of)
         (Py.sort_by key_lt key_of (candidates query all_anime)).
Proof. apply PyFacts.sort_by_Sorted, key_lt_asym. Qed.

Lemma in_order_ranked r1 r2 :
  PyFacts.in_order key_lt key_of r1 r2 → ranked_before r1 r2.
Proof.
  unfold PyFacts.in_order, key_lt, key_of, ranked_before. cbn [fst snd].
  destruct (Qeq_bool (- sr_priority r2) (- sr_priority r1)) eqn:He.
  - apply Qeq_bool_iff in He. intros Hlt. right. split; [lra|done].
  - intros Hlt. apply Qeq_bool_neq in He. left.
    apply Qnot_le_lt. intros Hle. apply not_true_iff_false in Hlt. apply Hlt.
    apply Qltb_lt. lra.
Qed.

Lemma sorted_candidates_anime query all_anime :
  sr_anime <$> Py.sort_by key_lt key_of (candidates query all_anime)
  ≡ₚ filter (stated_keep query) all_anime.
Proof.
  rewrite PyFacts.sort_by_Permutation. unfold Index.candidates.
  rewrite <- list_fmap_compose.
  rewrite (IndexFacts.filter_on (λ a, keep query a = true) (stated_keep query)).
  - by rewrite list_fmap_id.
  - apply Forall_forall. intros a _. apply stated_keep_spec.
Qed.

(** C1, amended.  An empty query has an empty result.  For a non-empty
    query, on a catalogue whose records all have a title, the result is
    the slice [[:limit]] (its first [limit] records when [limit] is not
    negative) of the list of matches sorted by falling priority and, at
    equal priority, by rising title.  The matches are the records of the
    catalogue that are kept, each once for each time the catalogue holds
    it: a record is kept exactly when its priority exceeds 20 or its
    normalized title contains or starts with the normalized query.  Each
    match carries its priority and its class: 100 and exact when the
    normalized query equals the normalized title; else 80 + 10 *
    similarity and starts-with when the normalized title starts with the
    normalized query; else 60 + 10 * similarity and contains when it
    contains it; else 50 * similarity and similar, the similarity being
    the ratio of the lowercased strings.  So a record is in the result,
    with this priority, exactly when it is kept, whenever the kept
    records are at most [limit]. *)
Theorem flexible_search_priority_and_filter (all_anime : store) (query : string)
  (limit : Z) :
  Forall titled all_anime →
  (query = "" → flexible_search all_anime query limit = Py.Ok [])
  ∧ (query ≠ "" →
     ∃ matches,
       flexible_search all_anime query limit = Py.Ok (Py.slice matches 0 limit)
       ∧ (0 ≤ limit → Py.slice matches 0 limit = take (Z.to_nat limit) matches)
       ∧ Sorted ranked_before matches
       ∧ sr_anime <$> matches ≡ₚ filter (stated_keep query) all_anime
       ∧ Forall (λ r, sr_priority r = stated_priority query (sr_anime r)
                      ∧ sr_match_type r = stated_match_type query (sr_anime r)) matches
       ∧ (Z.of_nat (length (filter (stated_keep query) all_anime)) ≤ limit →
          appears_iff_kept all_anime query limit)).
Proof.
  intros Hall. split; [by intros ->|].
  intros Hq. set (matches := Py.sort_by key_lt key_of (candidates query all_anime)).
  assert (Forall (λ r, sr_priority r = stated_priority query (sr_anime r)
                       ∧ sr_match_type r = stated_match_type query (sr_anime r)) matches)
    as Hrec.
  { apply Forall_forall. intros r (a & _ & _ & ->)%sorted_candidates_spec. done. }
  pose proof (sorted_candidates_anime query all_anime) as Hperm. fold matches in Hperm.
  exists matches. split; [by apply flexible_search_titled|]. split; [|split; [|split; [|split]]].
  - intros Hlimit. rewrite PyFacts.slice_take_drop by lia.
    rewrite Z.sub_0_r. change (Z.to_nat 0) with 0%nat. by rewrite drop_0.
  - eapply PyFacts.Sorted_weaken; [|apply sorted_candidates].
    intros x y. apply in_order_ranked.
  - done.
  - done.
  - intros Hlen a Ha. exists matches. split.
    + rewrite flexible_search_titled by done. f_equal.
      rewrite PyFacts.slice_take_drop by lia. rewrite Z.sub_0_r.
      change (Z.to_nat 0) with 0%nat. rewrite drop_0. apply take_ge.
      rewrite <- (length_fmap sr_anime), Hperm. lia.
    + split.
      * intros (r & Hr & <- & _). apply (list_elem_of_fmap_2 sr_anime) in Hr.
        rewrite Hperm in Hr. by apply list_elem_of_filter in Hr as [? _].
      * intros Hkeep.
        assert (a ∈ sr_anime <$> matches) as Hin.
        { rewrite Hperm. by apply list_elem_of_filter. }
        apply list_elem_of_fmap in Hin as (r & -> & Hr). exists r.
        split; [done|]. split; [done|].
        by apply (proj1 (Forall_forall _ _) Hrec).
Qed.

(** The claim C3 makes of one record [t]: the search for its title returns
    [t] first, as an exact match of priority 100. *)
Definition found_first (all_anime : store) (t : anime) (limit : Z) : Prop :=
  ∃ r rest,
    flexible_search all_anime (title_of t) limit = Py.Ok (r :: rest)
    ∧ sr_anime r = t ∧ sr_match_type r = Exact ∧ sr_priority r = 100%Q.

Hypothesis ratio_range : ∀ a b, (0 <= ratio a b <= 1)%Q.

Lemma priority_exact query a :
  exact_match query a = true → priority query a = 100%Q ∧ match_type_of query a = Exact.
Proof. intros H. unfold Index.priority, Index.match_type_of. by rewrite H. Qed.

Lemma priority_not_exact query a :
  exact_match query a = false →
  (priority query a <= 90)%Q ∧ match_type_of query a ≠ Exact.
Proof.
  intros H. unfold Index.priority, Index.match_type_of. rewrite H.
  pose proof (ratio_range (lower query) (lower (title_of a))) as Hr.
  unfold Index.similarity, similarity_score.
  destruct (starts_with query a); [split; [lra|done]|].
  destruct (contains query a); split; try done; lra.
Qed.

Definition is_exact (r : search_result) : Prop :=
  sr_match_type r = Exact ∧ sr_priority r = 100%Q.

Lemma key_lt_exact_first (r1 r2 : search_result) :
  sr_priority r1 = 100%Q → (sr_priority r2 <= 90)%Q →
  key_lt (key_of r1) (key_of r2) = true ∧ key_lt (key_of r2) (key_of r1) = false.
Proof.
  intros H1 H2. unfold key_lt, key_of. cbn [fst snd]. rewrite H1.
  assert (Qeq_bool (- (100)) (- sr_priority r2) = false) as ->.
  { apply not_true_is_false. intros E%Qeq_bool_iff. lra. }
  assert (Qeq_bool (- sr_priority r2) (- (100)) = false) as ->.
  { apply not_true_is_false. intros E%Qeq_bool_iff. lra. }
  split.
  - apply Qltb_lt. lra.
  - apply not_true_is_false. intros E%Qltb_lt. lra.
Qed.

(** C3, amended.  For a record [t] of the catalogue with a non-empty
    title, on a catalogue whose records all have a title, the search for
    the title of [t] with a limit of at least 1 returns first a record of
    the catalogue classified as an exact match, with priority 100, whose
    normalized title is the normalized title of [t]; this record is [t]
    itself when no other record of the catalogue has the same normalized
    title. *)
Theorem search_of_title_finds_exact_match (all_anime : store) (t : anime) (limit : Z) :
  t ∈ all_anime →
  title_of t ≠ "" →
  Forall titled all_anime →
  1 ≤ limit →
  ∃ r rest,
    flexible_search all_anime (title_of t) limit = Py.Ok (r :: rest)
    ∧ sr_match_type r = Exact
    ∧ sr_priority r = 100%Q
    ∧ sr_anime r ∈ all_anime
    ∧ normalize_text (title_of (sr_anime r)) = normalize_text (title_of t)
    ∧ ((∀ a, a ∈ all_anime →
          normalize_text (title_of a) = normalize_text (title_of t) → a = t) →
       found_first all_anime t limit).
Proof.
  intros Ht Htitle Hall Hlimit.
  set (query := title_of t).
  assert (exact_match query t = true) as Hexact.
  { unfold Index.exact_match. apply String.eqb_refl. }
  destruct (PyFacts.sort_by_head key_lt key_of is_exact (candidates query all_anime))
    as (h & rest & Hsorted & Hh).
  - intros x y (a & _ & _ & ->)%candidates_spec (b & _ & _ & ->)%candidates_spec Hx Hy.
    destruct Hx as [_ Hx]. apply key_lt_exact_first; [done|].
    destruct (exact_match query b) eqn:Hb.
    + destruct Hy. split; by apply priority_exact.
    + by apply priority_not_exact.
  - intros x (a & _ & _ & ->)%candidates_spec.
    destruct (exact_match query a) eqn:Ha.
    + left. split; by apply priority_exact.
    + right. intros [Hm _]. by apply priority_not_exact in Ha as [_ ?].
  - apply Exists_exists. exists (annotate query t). split.
    + apply candidates_spec. exists t. split; [done|]. split; [|done].
      apply keep_spec. left. apply priority_exact in Hexact as [-> _]. lra.
    + split; by apply priority_exact.
  - assert (h ∈ Py.sort_by key_lt key_of (candidates query all_anime)) as Hin.
    { rewrite Hsorted. left. }
    apply sorted_candidates_spec in Hin as (a & Ha & _ & ->).
    destruct Hh as [Hm Hp].
    assert (exact_match query a = true) as Hea.
    { destruct (exact_match query a) eqn:E; [done|].
      by apply priority_not_exact in E as [_ ?]. }
    assert (flexible_search all_anime query limit
            = Py.Ok (annotate query a :: take (Z.to_nat (limit - 1)) rest)) as Hres.
    { rewrite flexible_search_titled by done. rewrite Hsorted.
      rewrite PyFacts.slice_take_drop by lia. cbn [drop Z.to_nat].
      replace (Z.to_nat (limit - 0)) with (S (Z.to_nat (limit - 1))) by lia. done. }
    assert (normalize_text (title_of a) = normalize_text (title_of t)) as Hnorm.
    { unfold Index.exact_match in Hea. by apply String.eqb_eq in Hea. }
    exists (annotate query a), (take (Z.to_nat (limit - 1)) rest).
    repeat split; try done.
    intros Huniq. exists (annotate query a), (take (Z.to_nat (limit - 1)) rest).
    repeat split; try done. cbn. by apply Huniq.
Qed.

End Facts.

Lemma equal_ratio_range a b : (0 <= Samples.equal_ratio a b <= 1)%Q.
Proof. unfold Samples.equal_ratio. destruct (a =? b)%string; lra. Qed.

Abbreviation sample_appears_iff_kept :=
  (appears_iff_kept Samples.ascii_lower Samples.ascii_only Samples.equal_ratio).
Abbreviation sample_found_first :=
  (found_first Samples.ascii_lower Samples.ascii_only Samples.equal_ratio).

(** C1 as it is stated fails on an empty query (every title contains it,
    and the result is empty) and on a limit below the number of matches
    (of two exact matches, a limit of 1 returns the first only). *)
Lemma flexible_search_filter_counterexample :
  ¬ sample_appears_iff_kept [Samples.naruto_1] "" 20
  ∧ ¬ sample_appears_iff_kept [Samples.naruto_1; Samples.naruto_2] "Naruto" 1.
Proof.
  split; intros H.
  - destruct (H Samples.naruto_1) as (results & Hres & Hiff); [left|].
    injection Hres as <-.
    destruct Hiff as [_ Hin]. destruct Hin as (r & Hr & _).
    + right. left. reflexivity.
    + by apply elem_of_nil in Hr.
  - destruct (H Samples.naruto_2) as (results & Hres & Hiff); [right; left|].
    vm_compute in Hres. injection Hres as <-.
    destruct Hiff as [_ Hin]. destruct Hin as (r & Hr & Ha & _).
    + right. left. reflexivity.
    + apply list_elem_of_singleton in Hr. subst r. discriminate Ha.
Qed.

Lemma flexible_search_priority_and_filter_witness :
  sample_appears_iff_kept [Samples.naruto_1; Samples.naruto_2] "Naruto" 20.
Proof.
  destruct (flexible_search_priority_and_filter
              Samples.ascii_lower Samples.ascii_only Samples.equal_ratio
              [Samples.naruto_1; Samples.naruto_2] "Naruto" 20)
    as (_ & H).
  - repeat constructor; by eexists.
  - destruct H as (matches & _ & _ & _ & _ & _ & Hk); [discriminate|].
    apply Hk. apply Z.leb_le. by vm_compute.
Defined.

(** C3 as it is stated fails for a record that shares its title with an
    earlier record (the earlier one comes first) and for a record with an
    empty title (the result is empty). *)
Lemma search_of_title_counterexample :
  ¬ sample_found_first [Samples.naruto_1; Samples.naruto_2] Samples.naruto_2 20
  ∧ ¬ sample_found_first [Samples.untitled] Samples.untitled 20.
Proof.
  split; intros (r & rest & Hres & Hr & _).
  - vm_compute in Hres. injection Hres as <- _. discriminate Hr.
  - discriminate Hres.
Qed.

Lemma search_of_title_finds_exact_match_witness :
  sample_found_first [Samples.naruto_1; Samples.untitled] Samples.naruto_1 20.
Proof.
  destruct (search_of_title_finds_exact_match
              Samples.ascii_lower Samples.ascii_only Samples.equal_ratio
              equal_ratio_range
              [Samples.naruto_1; Samples.untitled] Samples.naruto_1 20)
    as (r & rest & _ & _ & _ & _ & _ & Huniq).
  - left.
  - discriminate.
  - repeat constructor; by eexists.
  - lia.
  - apply Huniq. intros a Ha Hnorm.
    apply elem_of_cons in Ha as [->|Ha]; [done|].
    apply list_elem_of_singleton in Ha as ->. discriminate Hnorm.
Defined.

End SearchFacts.


(** * Properties of the matcher *)

Module ReFacts.

Import Re.

#[local] Arguments String.append _ _ : simpl nomatch.

Lemma append_nil_r (s : string) : s +:+ "" = s.
Proof. induction s as [|c s IH]; simpl; [done|]. by rewrite IH. Qed.

Lemma append_assoc (s1 s2 s3 : string) : (s1 +:+ s2) +:+ s3 = s1 +:+ (s2 +:+ s3).
Proof. induction s1 as [|c s1 IH]; simpl; [done|]. by rewrite IH. Qed.

Lemma length_append (s1 s2 : string) :
  String.length (s1 +:+ s2) = (String.length s1 + String.length s2)%nat.
Proof. induction s1 as [|c s1 IH]; simpl; [done|]. by rewrite IH. Qed.

(** [rest] is what is left of [s] after some prefix. *)
Definition suffix (rest s : string) : Prop := ∃ pre, s = pre +:+ rest.

Lemma suffix_refl s : suffix s s.
Proof. by exists "". Qed.

Lemma suffix_cons c rest s : suffix rest s → suffix rest (String c s).
Proof. intros [pre ->]. by exists (String c pre). Qed.

Lemma suffix_trans s1 s2 s3 : suffix s1 s2 → suffix s2 s3 → suffix s1 s3.
Proof. intros [p1 ->] [p2 ->]. exists (p2 +:+ p1). by rewrite append_assoc. Qed.

Lemma suffix_length rest s : suffix rest s → (String.length rest ≤ String.length s)%nat.
Proof. intros [pre ->]. rewrite length_append. lia. Qed.

(** A match ends on a suffix of the text it starts on. *)
Lemma star_greedy_suffix p k prev s x :
  star_greedy p k prev s = Some x →
  ∃ prev' s', suffix s' s ∧ k prev' s' = Some x.
Proof.
  revert prev. induction s as [|a s IH]; intros prev; cbn.
  - intros H. exists prev, "". split; [apply suffix_refl | done].
  - destruct (p a).
    + destruct (star_greedy p k (Some a) s) as [y|] eqn:Hy.
      * intros [= <-]. destruct (IH _ Hy) as (prev' & s' & Hs & Hk).
        exists prev', s'. split; [by apply suffix_cons | done].
      * intros H. exists prev, (String a s). split; [apply suffix_refl | done].
    + intros H. exists prev, (String a s). split; [apply suffix_refl | done].
Qed.

Lemma star_lazy_suffix p k prev s x :
  star_lazy p k prev s = Some x →
  ∃ prev' s', suffix s' s ∧ k prev' s' = Some x.
Proof.
  revert prev. induction s as [|a s IH]; intros prev; cbn.
  - destruct (k prev "") as [y|] eqn:Hy; [|done].
    intros [= <-]. exists prev, "". split; [apply suffix_refl | done].
  - destruct (k prev (String a s)) as [y|] eqn:Hy.
    + intros [= <-]. exists prev, (String a s). split; [apply suffix_refl | done].
    + destruct (p a); [|done]. intros H.
      destruct (IH _ H) as (prev' & s' & Hs & Hk).
      exists prev', s'. split; [by apply suffix_cons | done].
Qed.

Lemma run_suffix r k prev s x :
  run r k prev s = Some x →
  ∃ prev' s', suffix s' s ∧ k prev' s' = Some x.
Proof.
  revert k prev s. induction r as [|c|p| | | |r1 IH1 r2 IH2|r1 IH1|p|p];
    intros k prev s; cbn [run].
  - intros H. exists prev, s. split; [apply suffix_refl | done].
  - destruct s as [|a s]; [done|]. destruct (Ascii.eqb _ _); [|done].
    intros H. exists (Some a), s. split; [apply suffix_cons, suffix_refl | done].
  - destruct s as [|a s]; [done|]. destruct (p a); [|done].
    intros H. exists (Some a), s. split; [apply suffix_cons, suffix_refl | done].
  - destruct prev; [done|]. intros H. exists None, s. split; [apply suffix_refl | done].
  - intros H. exists prev, s. split; [apply suffix_refl|].
    destruct s as [|a [|b s]]; try done. by destruct (Ascii.eqb a newline).
  - destruct (xorb _ _); [|done]. intros H.
    exists prev, s. split; [apply suffix_refl | done].
  - intros H. destruct (IH1 _ _ _ H) as (p1 & s1 & Hs1 & H1).
    destruct (IH2 _ _ _ H1) as (p2 & s2 & Hs2 & H2).
    exists p2, s2. split; [by eapply suffix_trans | done].
  - destruct (run r1 k prev s) as [y|] eqn:Hy.
    + intros [= <-]. by eapply IH1.
    + intros H. exists prev, s. split; [apply suffix_refl | done].
  - apply star_greedy_suffix.
  - apply star_lazy_suffix.
Qed.

Lemma match_at_suffix r prev s prev' rest :
  match_at r prev s = Some (prev', rest) → suffix rest s.
Proof.
  intros H. apply run_suffix in H as (p & s' & Hs & [= _ <-]). done.
Qed.

(** The fuel of [sub] is enough: more fuel gives the same result. *)
Lemma sub_from_fuel r repl fuel fuel' prev s :
  (String.length s < fuel)%nat → (String.length s < fuel')%nat →
  sub_from r repl fuel prev s = sub_from r repl fuel' prev s.
Proof.
  revert fuel' prev s. induction fuel as [|fuel IH]; intros fuel' prev s Hf Hf'; [lia|].
  destruct fuel' as [|fuel']; [lia|]. cbn [sub_from].
  destruct (match_at r prev s) as [[prev' rest]|].
  - destruct (Nat.ltb_spec (String.length rest) (String.length s)).
    + f_equal. apply IH; lia.
    + destruct s as [|a s]; [done|]. do 2 f_equal. cbn in Hf, Hf'. apply IH; lia.
  - destruct s as [|a s]; [done|]. f_equal. cbn in Hf, Hf'. apply IH; lia.
Qed.

(** [out] is [s] with characters deleted and copies of [repl] inserted:
    the shape of every result of [sub]. *)
Inductive edits (repl : string) : string → string → Prop :=
| edits_nil : edits repl "" ""
| edits_keep c out s : edits repl out s → edits repl (String c out) (String c s)
| edits_drop c out s : edits repl out s → edits repl out (String c s)
| edits_insert out s : edits repl out s → edits repl (repl +:+ out) s.

Lemma edits_refl repl s : edits repl s s.
Proof. induction s; by constructor. Qed.

Lemma edits_suffix repl out rest s :
  suffix rest s → edits repl out rest → edits repl out s.
Proof.
  intros [pre ->] H. induction pre as [|c pre IH]; simpl; [done|]. by constructor.
Qed.

Lemma sub_from_edits r repl fuel prev s : edits repl (sub_from r repl fuel prev s) s.
Proof.
  revert prev s. induction fuel as [|fuel IH]; intros prev s; cbn [sub_from].
  - apply edits_refl.
  - destruct (match_at r prev s) as [[prev' rest]|] eqn:Hm.
    + destruct (String.length rest <? String.length s)%nat.
      * apply edits_insert. eapply edits_suffix; [by eapply match_at_suffix | apply IH].
      * destruct s as [|a s].
        -- rewrite <- (append_nil_r repl) at 2. apply edits_insert, edits_nil.
        -- apply edits_insert, edits_keep, IH.
    + destruct s as [|a s]; [apply edits_nil|]. apply edits_keep, IH.
Qed.

Lemma sub_edits r repl s : edits repl (sub r repl s) s.
Proof. apply sub_from_edits. Qed.

Lemma all_chars_append p s1 s2 :
  Py.all_chars p (s1 +:+ s2) = Py.all_chars p s1 && Py.all_chars p s2.
Proof. induction s1 as [|c s1 IH]; simpl; [done|]. by rewrite IH, andb_assoc. Qed.

Lemma edits_all_chars p repl out s :
  Py.all_chars p repl = true → edits repl out s →
  Py.all_chars p s = true → Py.all_chars p out = true.
Proof.
  intros Hrepl. induction 1 as [|c out s _ IH|c out s _ IH|out s _ IH]; cbn.
  - done.
  - intros [-> ?]%andb_true_iff. by rewrite IH.
  - intros [_ ?]%andb_true_iff. by apply IH.
  - intros H. rewrite all_chars_append, Hrepl. by apply IH.
Qed.

End ReFacts.

(** * Properties of the title cleaner *)

Module TitleFacts.

Import Re Backend ReFacts.

#[local] Arguments String.append _ _ : simpl nomatch.

(** The first character of [s] has [p]. *)
Definition headed_by (p : ascii → bool) (s : string) : bool :=
  match s with
  | String c _ => p c
  | EmptyString => false
  end.

(** [c] occurs in [s]. *)
Fixpoint occurs (c : ascii) (s : string) : bool :=
  match s with
  | EmptyString => false
  | String a s' => Ascii.eqb a c || occurs c s'
  end.

(** [s] has an [o] with a [c] somewhere after it. *)
Fixpoint has_pair (o c : ascii) (s : string) : bool :=
  match s with
  | EmptyString => false
  | String a s' => (Ascii.eqb a o && occurs c s') || has_pair o c s'
  end.

(** Every separator of [s] is a single space between two other
    characters or at an end of [s]. *)
Fixpoint collapsed (s : string) : bool :=
  match s with
  | EmptyString => true
  | String c s' =>
      (if Ascii.eqb c " " then negb (headed_by hyphen_or_space s')
       else negb (hyphen_or_space c))
      && collapsed s'
  end.

(** A character that is a plain space, or neither a hyphen nor white
    space. *)
Definition plain (c : ascii) : bool := Ascii.eqb c " " || negb (hyphen_or_space c).

(** The continuation that ends a match. *)
Definition final : cont := λ prev s, Some (prev, s).

(** [s] without its longest prefix of characters that have [p]. *)
Fixpoint skip (p : ascii → bool) (s : string) : string :=
  match s with
  | String a s' => if p a then skip p s' else s
  | EmptyString => EmptyString
  end.

Lemma skip_head p s : headed_by p (skip p s) = false.
Proof.
  induction s as [|a s IH]; cbn; [done|]. destruct (p a) eqn:Ha; [done|]. cbn. done.
Qed.

Lemma skip_length p s : (String.length (skip p s) ≤ String.length s)%nat.
Proof. induction s as [|a s IH]; cbn; [done|]. destruct (p a); cbn; lia. Qed.

Lemma star_greedy_final p prev s :
  ∃ prev', star_greedy p final prev s = Some (prev', skip p s).
Proof.
  revert prev. induction s as [|a s IH]; intros prev; cbn.
  - by exists prev.
  - destruct (p a); [|by exists prev].
    destruct (IH (Some a)) as [prev' ->]. by exists prev'.
Qed.

Lemma match_at_plus p prev s :
  match s with
  | String a s' =>
      if p a then ∃ prev', match_at (plus p) prev s = Some (prev', skip p s')
      else match_at (plus p) prev s = None
  | EmptyString => match_at (plus p) prev s = None
  end.
Proof.
  destruct s as [|a s]; [done|]. unfold match_at, plus. cbn [run].
  destruct (p a); [|done]. apply star_greedy_final.
Qed.

(** *** The separators are collapsed *)

Lemma sub_from_separators fuel prev s :
  (String.length s < fuel)%nat →
  collapsed (sub_from separators " " fuel prev s) = true
  ∧ (headed_by hyphen_or_space s = false →
     headed_by hyphen_or_space (sub_from separators " " fuel prev s) = false).
Proof.
  revert prev s. induction fuel as [|fuel IH]; intros prev s Hfuel; [lia|].
  cbn [sub_from]. pose proof (match_at_plus hyphen_or_space prev s) as Hm.
  fold separators in Hm.
  destruct s as [|a s]; [by rewrite Hm|].
  cbn in Hfuel. destruct (hyphen_or_space a) eqn:Ha.
  - destruct Hm as [prev' ->].
    pose proof (skip_length hyphen_or_space s).
    rewrite (proj2 (Nat.ltb_lt _ _)) by (cbn; lia).
    destruct (IH prev' (skip hyphen_or_space s)) as [Hc Hh]; [lia|].
    split; [|cbn [headed_by]; congruence].
    cbn. rewrite Hc, Hh; [done|]. apply skip_head.
  - rewrite Hm. destruct (IH (Some a) s) as [Hc _]; [lia|].
    split; [|by cbn]. cbn. rewrite Hc, Ha.
    destruct (Ascii.eqb_spec a " ") as [-> | _]; [by vm_compute in Ha|done].
Qed.

Lemma collapsed_lstrip s : collapsed s = true → collapsed (Py.lstrip s) = true.
Proof.
  induction s as [|c s IH]; [done|]. cbn [Py.lstrip].
  destruct (Py.isspace c); [|done].
  intros [_ Hs]%andb_true_iff. by apply IH.
Qed.

Lemma rstrip_head p s :
  Py.rstrip s = "" ∨ headed_by p (Py.rstrip s) = headed_by p s.
Proof.
  destruct s as [|c s]; [by left|]. cbn.
  destruct (Py.rstrip s); [destruct (Py.isspace c)|]; by auto.
Qed.

Lemma collapsed_rstrip s : collapsed s = true → collapsed (Py.rstrip s) = true.
Proof.
  induction s as [|c s IH]; [done|]. cbn [collapsed Py.rstrip].
  intros [Hc Hs]%andb_true_iff. specialize (IH Hs).
  destruct (rstrip_head hyphen_or_space s) as [He|Hh].
  - rewrite He. destruct (Py.isspace c) eqn:Hsp; [done|]. cbn.
    destruct (Ascii.eqb_spec c " ") as [-> | _]; [done|]. by rewrite Hc.
  - destruct (Py.rstrip s) as [|b r] eqn:Hr.
    + destruct (Py.isspace c) eqn:Hsp; [done|]. cbn.
      destruct (Ascii.eqb_spec c " ") as [-> | _]; [done|]. by rewrite Hc.
    + remember (String b r) as r' eqn:Hr'. cbn [collapsed]. by rewrite Hh, Hc, IH.
Qed.

Lemma lstrip_head s : headed_by Py.isspace (Py.lstrip s) = false.
Proof.
  induction s as [|c s IH]; [done|]. cbn [Py.lstrip].
  destruct (Py.isspace c) eqn:Hc; [done|]. cbn. done.
Qed.

Lemma lstrip_id s : headed_by Py.isspace s = false → Py.lstrip s = s.
Proof. destruct s as [|c s]; [done|]. cbn. by intros ->. Qed.

Lemma rstrip_idem s : Py.rstrip (Py.rstrip s) = Py.rstrip s.
Proof.
  induction s as [|c s IH]; [done|]. cbn [Py.rstrip].
  destruct (Py.rstrip s) as [|b r] eqn:Hr.
  - destruct (Py.isspace c) eqn:Hc; [done|]. cbn. by rewrite Hc.
  - cbn [Py.rstrip]. cbn [Py.rstrip] in IH. rewrite IH. done.
Qed.

Lemma strip_idem s : Py.strip (Py.strip s) = Py.strip s.
Proof.
  unfold Py.strip.
  rewrite (lstrip_id (Py.rstrip (Py.lstrip s))); [apply rstrip_idem|].
  destruct (rstrip_head Py.isspace (Py.lstrip s)) as [-> | ->]; [done|apply lstrip_head].
Qed.

Lemma collapsed_plain s : collapsed s = true → Py.all_chars plain s = true.
Proof.
  induction s as [|c s IH]; [done|]. cbn [collapsed Py.all_chars].
  intros [Hc Hs]%andb_true_iff. rewrite IH, andb_true_r by done. unfold plain.
  destruct (Ascii.eqb c " "); [done|]. by rewrite Hc.
Qed.

Lemma collapsed_no_double_space s : collapsed s = true → Py.contains "  " s = false.
Proof.
  induction s as [|c s IH]; [done|]. cbn [collapsed Py.contains].
  intros [Hc Hs]%andb_true_iff. rewrite IH, orb_false_r by done.
  cbn [String.prefix]. destruct (ascii_dec " " c) as [<- | ?]; [|done].
  destruct s as [|b s]; [done|]. cbn [String.prefix].
  destruct (ascii_dec " " b) as [<- | ?]; [|done]. by vm_compute in Hc.
Qed.

(** *** No bracket pair is left *)

Lemma occurs_append c s1 s2 : occurs c (s1 +:+ s2) = occurs c s1 || occurs c s2.
Proof. induction s1 as [|a s1 IH]; simpl; [done|]. by rewrite IH, orb_assoc. Qed.

Lemma has_pair_append o c s1 s2 :
  occurs o s1 = false → has_pair o c (s1 +:+ s2) = has_pair o c s2.
Proof.
  induction s1 as [|a s1 IH]; simpl; [done|].
  intros [-> Ho]%orb_false_iff. by rewrite IH.
Qed.

Lemma edits_occurs c repl out s :
  occurs c repl = false → edits repl out s → occurs c out = true → occurs c s = true.
Proof.
  intros Hrepl. induction 1 as [|a out s _ IH|a out s _ IH|out s _ IH]; cbn.
  - done.
  - intros [->|?]%orb_true_iff; [done|]. rewrite IH by done. apply orb_true_r.
  - intros ?. rewrite IH by done. apply orb_true_r.
  - rewrite occurs_append, Hrepl. apply IH.
Qed.

Lemma edits_has_pair o c repl out s :
  occurs o repl = false → occurs c repl = false →
  edits repl out s → has_pair o c out = true → has_pair o c s = true.
Proof.
  intros Ho Hc. induction 1 as [|a out s H IH|a out s _ IH|out s _ IH]; cbn.
  - done.
  - intros [[-> Hout]%andb_true_iff|?]%orb_true_iff.
    + by rewrite (edits_occurs c repl out s).
    + rewrite IH by done. apply orb_true_r.
  - intros ?. rewrite IH by done. apply orb_true_r.
  - by rewrite has_pair_append.
Qed.

Lemma edits_lstrip repl s : edits repl (Py.lstrip s) s.
Proof.
  induction s as [|c s IH]; [constructor|]. cbn [Py.lstrip].
  destruct (Py.isspace c); [by constructor | apply edits_refl].
Qed.

Lemma edits_rstrip repl s : edits repl (Py.rstrip s) s.
Proof.
  induction s as [|c s IH]; [constructor|]. cbn [Py.rstrip].
  destruct (Py.rstrip s) as [|b r].
  - destruct (Py.isspace c); by constructor.
  - by constructor.
Qed.

(** The text after the first [c] of [s]. *)
Fixpoint after_first (c : ascii) (s : string) : string :=
  match s with
  | EmptyString => EmptyString
  | String a s' => if Ascii.eqb a c then s' else after_first c s'
  end.

Lemma after_first_suffix c s : suffix (after_first c s) s.
Proof.
  induction s as [|a s IH]; [apply suffix_refl|]. cbn.
  destruct (Ascii.eqb a c); apply suffix_cons; [apply suffix_refl | done].
Qed.

(** A literal that is not a letter matches itself only. *)
Definition caseless (c : ascii) : Prop :=
  ∀ a, Ascii.eqb (Py.lower_char a) (Py.lower_char c) = Ascii.eqb a c.

Lemma caseless_brackets : caseless "[" ∧ caseless "]" ∧ caseless "(" ∧ caseless ")".
Proof. repeat split; intros [[] [] [] [] [] [] [] []]; reflexivity. Qed.

(** The pattern [o.*?c] for two literals [o] and [c]. *)
Definition enclosed (o c : ascii) : regex := seq [Lit o; LazyStar dot; Lit c].

Lemma star_lazy_until c prev s :
  caseless c → Py.all_chars dot s = true →
  if occurs c s
  then ∃ prev', star_lazy dot (run (Cat (Lit c) Eps) final) prev s
                = Some (prev', after_first c s)
  else star_lazy dot (run (Cat (Lit c) Eps) final) prev s = None.
Proof.
  intros Hc. revert prev. induction s as [|a s IH]; intros prev; [done|].
  cbn [Py.all_chars occurs after_first star_lazy run]. rewrite Hc.
  intros [Ha Hs]%andb_true_iff.
  destruct (Ascii.eqb a c); cbn [orb]; [by eexists|].
  rewrite Ha. by apply IH.
Qed.

Lemma match_at_enclosed o c prev s :
  caseless o → caseless c → Py.all_chars dot s = true →
  match s with
  | String a s' =>
      if Ascii.eqb a o && occurs c s'
      then ∃ prev', match_at (enclosed o c) prev s = Some (prev', after_first c s')
      else match_at (enclosed o c) prev s = None
  | EmptyString => match_at (enclosed o c) prev s = None
  end.
Proof.
  intros Ho Hc Hs. destruct s as [|a s]; [done|].
  unfold match_at, enclosed, seq. cbn [foldr run]. rewrite Ho.
  cbn [Py.all_chars] in Hs. apply andb_true_iff in Hs as [_ Hs].
  destruct (Ascii.eqb a o); [|done]. cbn [andb].
  apply (star_lazy_until c (Some a) s Hc Hs).
Qed.

Lemma all_chars_suffix p rest s :
  suffix rest s → Py.all_chars p s = true → Py.all_chars p rest = true.
Proof. intros [pre ->]. rewrite all_chars_append. by intros [_ ?]%andb_true_iff. Qed.

Lemma sub_from_enclosed o c fuel prev s :
  caseless o → caseless c →
  (String.length s < fuel)%nat →
  Py.all_chars dot s = true →
  has_pair o c (sub_from (enclosed o c) "" fuel prev s) = false.
Proof.
  intros Ho Hc. revert prev s.
  induction fuel as [|fuel IH]; intros prev s Hfuel Hs; [lia|].
  cbn [sub_from]. pose proof (match_at_enclosed o c prev s Ho Hc Hs) as Hm.
  destruct s as [|a s]; [by rewrite Hm|].
  cbn in Hfuel. pose proof Hs as Hs'. cbn [Py.all_chars] in Hs'.
  apply andb_true_iff in Hs' as [_ Hs'].
  destruct (Ascii.eqb a o && occurs c s) eqn:Hpair.
  - destruct Hm as [prev' ->].
    pose proof (suffix_length _ _ (after_first_suffix c s)).
    rewrite (proj2 (Nat.ltb_lt _ _)) by (cbn; lia). simpl.
    apply IH; [lia|]. eapply all_chars_suffix; [apply after_first_suffix | done].
  - rewrite Hm. cbn [has_pair]. rewrite IH by (done || lia). rewrite orb_false_r.
    destruct (Ascii.eqb a o); [|done]. cbn [andb] in *.
    apply not_true_is_false. intros Hin.
    assert (occurs c s = true) as Hocc
      by (eapply (edits_occurs c ""); [done | apply sub_from_edits | exact Hin]).
    congruence.
Qed.

(** *** The text the patterns are applied to *)

Definition spaced (c : ascii) : bool := negb (Py.isspace c) || Ascii.eqb c " ".

Lemma all_chars_impl (p q : ascii → bool) s :
  (∀ c, p c = true → q c = true) → Py.all_chars p s = true → Py.all_chars q s = true.
Proof.
  intros Hpq. induction s as [|c s IH]; [done|]. cbn.
  intros [Hc Hs]%andb_true_iff. by rewrite (Hpq c Hc), IH.
Qed.

Lemma split_go_tokens tok s :
  Py.all_chars spaced tok = true →
  Forall (λ w, Py.all_chars spaced w = true) (Py.split_go tok s).
Proof.
  revert tok. induction s as [|c s IH]; intros tok Htok; cbn [Py.split_go].
  - destruct (tok =? "")%string; by repeat constructor.
  - destruct (Py.isspace c) eqn:Hc.
    + destruct (tok =? "")%string; [by apply IH|]. constructor; [done|by apply IH].
    + apply IH. rewrite all_chars_append, Htok. cbn. unfold spaced. by rewrite Hc.
Qed.

Lemma join_spaced l :
  Forall (λ w, Py.all_chars spaced w = true) l →
  Py.all_chars spaced (Py.join " " l) = true.
Proof.
  unfold Py.join. induction 1 as [|w l Hw Hl IH]; [done|].
  destruct l as [|w' l]; [done|].
  change (String.concat " " (w :: w' :: l))
    with (w +:+ " " +:+ String.concat " " (w' :: l)).
  rewrite !all_chars_append, Hw, IH. done.
Qed.

Lemma joined_no_newline title : Py.all_chars dot (Py.join " " (Py.split title)) = true.
Proof.
  apply (all_chars_impl spaced).
  - intros [[] [] [] [] [] [] [] []]; by vm_compute.
  - apply join_spaced, split_go_tokens. done.
Qed.

Lemma sub_no_newline r s : Py.all_chars dot s = true → Py.all_chars dot (sub r "" s) = true.
Proof. intros Hs. eapply edits_all_chars; [|apply sub_edits|done]. done. Qed.

Lemma sub_enclosed o c s :
  caseless o → caseless c → Py.all_chars dot s = true →
  has_pair o c (sub (enclosed o c) "" s) = false.
Proof. intros Ho Hc Hs. apply sub_from_enclosed; try done. lia. Qed.

Lemma edits_no_pair o c repl out s :
  occurs o repl = false → occurs c repl = false →
  edits repl out s → has_pair o c s = false → has_pair o c out = false.
Proof.
  intros Ho Hc He Hs. apply not_true_is_false. intros Hout.
  rewrite (edits_has_pair o c repl out s) in Hs; done.
Qed.

Lemma strip_no_pair o c s : has_pair o c s = false → has_pair o c (Py.strip s) = false.
Proof.
  intros Hs. unfold Py.strip.
  apply (edits_no_pair o c "" _ (Py.lstrip s)); [done|done|apply edits_rstrip|].
  by apply (edits_no_pair o c "" _ s); [done|done|apply edits_lstrip|].
Qed.

Lemma strip_separators_collapsed s : collapsed (Py.strip (sub separators " " s)) = true.
Proof.
  unfold Py.strip. apply collapsed_rstrip, collapsed_lstrip.
  apply sub_from_separators. lia.
Qed.

(** The residual title is made of words without hyphen or white space,
    single spaces between them, and holds no bracket or parenthesis
    pair. *)
Lemma residual_title_shape title :
  let r := residual_title title in
  Py.all_chars plain r = true
  ∧ Py.contains "  " r = false
  ∧ Py.strip r = r
  ∧ has_pair "[" "]" r = false
  ∧ has_pair "(" ")" r = false.
Proof.
  cbv zeta. unfold residual_title.
  pose proof caseless_brackets as (Hsq1 & Hsq2 & Hpa1 & Hpa2).
  set (t0 := Py.join " " (Py.split title)).
  assert (Py.all_chars dot t0 = true) as H0 by apply joined_no_newline.
  unfold patterns_to_remove. cbn [foldl].
  set (t7 := sub _ "" (sub _ "" (sub _ "" (sub _ "" (sub _ "" (sub _ "" (sub _ "" t0))))))).
  assert (Py.all_chars dot t7 = true) as H7 by (subst t7; by do 7 apply sub_no_newline).
  fold (enclosed "[" "]"). fold (enclosed "(" ")").
  set (t8 := sub (enclosed "[" "]") "" t7).
  set (t9 := sub (enclosed "(" ")") "" t8).
  assert (has_pair "[" "]" t8 = false) as Hsq8 by by apply sub_enclosed.
  assert (has_pair "[" "]" t9 = false) as Hsq9.
  { by apply (edits_no_pair "[" "]" "" t9 t8); [done|done|apply sub_edits|]. }
  assert (has_pair "(" ")" t9 = false) as Hpa9.
  { apply sub_enclosed; try done. by apply sub_no_newline. }
  pose proof (strip_separators_collapsed t9) as Hc.
  split; [by apply collapsed_plain|]. split; [by apply collapsed_no_double_space|].
  split; [apply strip_idem|]. split.
  - apply strip_no_pair.
    by apply (edits_no_pair "[" "]" " " _ t9); [done|done|apply sub_edits|].
  - apply strip_no_pair.
    by apply (edits_no_pair "(" ")" " " _ t9); [done|done|apply sub_edits|].
Qed.

(** *** Leading markers *)

Lemma digit_not_space d : Py.is_digit d = true → Py.isspace d = false.
Proof. revert d. intros [[] [] [] [] [] [] [] []]; by vm_compute. Qed.

Lemma digit_not_p d :
  Py.is_digit d = true → Ascii.eqb (Py.lower_char d) (Py.lower_char "p") = false.
Proof. revert d. intros [[] [] [] [] [] [] [] []]; by vm_compute. Qed.

(** The character before the position reached once [w] is read. *)
Fixpoint last_of (prev : option ascii) (w : string) : option ascii :=
  match w with
  | EmptyString => prev
  | String a w' => last_of (Some a) w'
  end.

(** A greedy star takes a whole run when the rest of the pattern matches
    after it. *)
Lemma star_greedy_span p k prev w s :
  Py.all_chars p w = true →
  headed_by p s = false →
  is_Some (k (last_of prev w) s) →
  star_greedy p k prev (w +:+ s) = k (last_of prev w) s.
Proof.
  revert prev. induction w as [|a w IH]; intros prev Hw Hs Hk.
  - simpl. destruct s as [|b s]; [done|]. cbn in *. by rewrite Hs.
  - simpl. cbn [Py.all_chars] in Hw. apply andb_true_iff in Hw as [-> Hw].
    rewrite IH by done. cbn [last_of] in *. by destruct Hk as [x ->].
Qed.

Lemma star_greedy_stop p k prev s :
  headed_by p s = false → star_greedy p k prev s = k prev s.
Proof. destruct s as [|a s]; [done|]. cbn. by intros ->. Qed.

(** The three anchored patterns, and what follows their digits. *)
Definition after_digits : regex := Re.seq sep_opt.

Definition episode_marker : regex :=
  Re.seq ([Re.Bol; Re.str "Episode"; Re.plus Re.space; Re.plus Re.digit] ++ sep_opt).
Definition ep_marker : regex :=
  Re.seq ([Re.Bol; Re.str "EP"; Re.Star Re.space; Re.plus Re.digit] ++ sep_opt).
Definition e_marker : regex :=
  Re.seq ([Re.Bol; Re.str "E"; Re.plus Re.digit] ++ sep_opt).

(** The digits of a marker, read by [\d+] when the separator pattern
    matches after them. *)
Lemma run_digits k prev d N rest :
  Py.is_digit d = true → Py.all_chars Py.is_digit N = true →
  headed_by digit rest = false →
  is_Some (k (last_of (Some d) N) rest) →
  run (plus digit) k prev (String d N +:+ rest) = k (last_of (Some d) N) rest.
Proof.
  intros Hd HN Hrest Hk. unfold plus. simpl. unfold digit at 1. rewrite Hd.
  by apply star_greedy_span.
Qed.

(** A pattern that starts with [^] matches at the start of the text
    only: [sub] removes that match, if any, and copies the rest. *)
Definition anchored (r : regex) : Prop := ∀ p s, match_at r (Some p) s = None.

Lemma markers_anchored : anchored episode_marker ∧ anchored ep_marker ∧ anchored e_marker.
Proof. by repeat split. Qed.

Lemma sub_from_anchored r repl fuel p s :
  anchored r → sub_from r repl fuel (Some p) s = s.
Proof.
  intros Hr. revert p s. induction fuel as [|fuel IH]; intros p s; [done|].
  cbn [sub_from]. rewrite Hr. destruct s as [|a s]; [done|]. by rewrite IH.
Qed.

Lemma sub_anchored_match r s p rest :
  anchored r → match_at r None s = Some (Some p, rest) →
  (String.length rest < String.length s)%nat →
  sub r "" s = rest.
Proof.
  intros Hr Hm Hlen. unfold sub. cbn [sub_from]. rewrite Hm.
  rewrite (proj2 (Nat.ltb_lt _ _)) by done. simpl. by apply sub_from_anchored.
Qed.

Lemma sub_anchored_none r repl s :
  anchored r → match_at r None s = None → sub r repl s = s.
Proof.
  intros Hr Hm. unfold sub. cbn [sub_from]. rewrite Hm.
  destruct s as [|a s]; [done|]. by rewrite sub_from_anchored.
Qed.

(** [split] reads a word without white space in one go. *)
Lemma split_go_word tok w s :
  Py.all_chars (λ c, negb (Py.isspace c)) w = true →
  Py.split_go tok (w +:+ s) = Py.split_go (tok +:+ w) s.
Proof.
  revert tok. induction w as [|c w IH]; intros tok Hw.
  - simpl. by rewrite append_nil_r.
  - cbn [Py.all_chars] in Hw. apply andb_true_iff in Hw as [Hc Hw].
    apply negb_true_iff in Hc. simpl. rewrite Hc, IH by done.
    by rewrite append_assoc.
Qed.

Lemma digits_word N :
  Py.all_chars Py.is_digit N = true →
  Py.all_chars (λ c, negb (Py.isspace c)) N = true.
Proof.
  apply all_chars_impl. intros c Hc. by rewrite digit_not_space.
Qed.

Lemma isdigit_inv N :
  Py.isdigit N = true →
  ∃ d N', N = String d N' ∧ Py.is_digit d = true ∧ Py.all_chars Py.is_digit N' = true.
Proof.
  unfold Py.isdigit. destruct N as [|d N']; [done|]. cbn.
  intros [? ?]%andb_true_iff. by exists d, N'.
Qed.

Lemma length_lt_append (pre mid post rest : string) :
  (String.length rest < String.length pre + String.length post)%nat →
  (String.length rest < String.length (pre +:+ mid +:+ post))%nat.
Proof. rewrite !length_append. lia. Qed.

(** [^Episode...] and [^EP...] do not match a text that starts with [E]
    and a digit; [^Episode...] does not match one that starts with
    [EP ]. *)
Lemma episode_marker_unmatched_e d s :
  Py.is_digit d = true → match_at episode_marker None (String "E" (String d s)) = None.
Proof.
  intros Hd. unfold match_at, episode_marker.
  cbn [seq app foldr run str]. rewrite (digit_not_p d Hd).
  by destruct (Ascii.eqb _ _).
Qed.

Lemma ep_marker_unmatched_e d s :
  Py.is_digit d = true → match_at ep_marker None (String "E" (String d s)) = None.
Proof.
  intros Hd. unfold match_at, ep_marker.
  cbn [seq app foldr run str].
  change (Py.lower_char "P") with (Py.lower_char "p"). rewrite (digit_not_p d Hd).
  by destruct (Ascii.eqb _ _).
Qed.

Lemma episode_marker_unmatched_ep s :
  match_at episode_marker None ("EP " +:+ s) = None.
Proof. reflexivity. Qed.

(** The patterns left once the three anchored ones are applied. *)
Definition later_patterns : list regex := drop 3 patterns_to_remove.

Lemma residual_title_markers title :
  residual_title title
  = Py.strip (sub separators " "
      (foldl (λ t pattern, sub pattern "" t)
         (sub e_marker "" (sub ep_marker "" (sub episode_marker ""
            (Py.join " " (Py.split title)))))
         later_patterns)).
Proof.
  unfold residual_title, later_patterns, patterns_to_remove,
    episode_marker, ep_marker, e_marker.
  cbn [foldl drop]. reflexivity.
Qed.

(** *** The trailing "Watch Online" suffix *)

Definition watch_online : regex :=
  Re.seq [Re.str "Watch"; Re.plus Re.space; Re.str "Online"; Re.Star Re.dot; Re.Eol].

Lemma join_cons w l : l ≠ [] → Py.join " " (w :: l) = w +:+ " " +:+ Py.join " " l.
Proof. by destruct l. Qed.

Lemma split_go_join tok x :
  tok ≠ "" →
  Py.split_go tok x ≠ [] ∧ ∃ y, Py.join " " (Py.split_go tok x) = tok +:+ y.
Proof.
  revert tok. induction x as [|c x IH]; intros tok Htok; cbn [Py.split_go].
  - apply String.eqb_neq in Htok as ->. split; [done|]. exists "".
    by rewrite append_nil_r.
  - destruct (Py.isspace c).
    + apply String.eqb_neq in Htok as ->. split; [done|].
      destruct (Py.split_go "" x) as [|w l] eqn:Hx; [exists ""; by rewrite append_nil_r|].
      exists (" " +:+ Py.join " " (w :: l)). by rewrite join_cons.
    + destruct (IH (tok +:+ String c "")) as [Hne [y Hy]].
      { by destruct tok. }
      split; [done|]. exists (String c y). rewrite Hy. by rewrite append_assoc.
Qed.

Lemma match_watch_online prev y :
  Py.all_chars dot y = true →
  ∃ prev', match_at watch_online prev ("Watch Online" +:+ y) = Some (prev', "").
Proof.
  intros Hy. exists (last_of (Some "e"%char) y). unfold match_at.
  change (star_greedy dot (run Eol final) (Some "e"%char) y
          = Some (last_of (Some "e"%char) y, "")).
  rewrite <- (append_nil_r y) at 1. by rewrite star_greedy_span.
Qed.

(** *** Leading markers before any title *)

(** The text the patterns are applied to. *)
Definition joined (title : string) : string := Py.join " " (Py.split title).

(** [rest] starts a title: its first character is not white space, not a
    hyphen or a colon, and not the letter E. *)
Definition starts_title (rest : string) : bool :=
  headed_by (λ c, negb (Py.isspace c) && negb (one_of "-:" c)
                  && negb (Ascii.eqb (Py.lower_char c) "e")) rest.

Lemma starts_title_inv rest :
  starts_title rest = true →
  ∃ c r, rest = String c r ∧ Py.isspace c = false ∧ one_of "-:" c = false
         ∧ Ascii.eqb (Py.lower_char c) "e" = false.
Proof.
  destruct rest as [|c r]; [done|]. cbn.
  intros [[Hs Ho]%andb_true_iff He]%andb_true_iff.
  exists c, r. by rewrite (negb_true_iff _), (negb_true_iff _), (negb_true_iff _) in *.
Qed.

Lemma joined_head c r :
  Py.isspace c = false →
  Py.split (String c r) ≠ [] ∧ ∃ y, joined (String c r) = String c y.
Proof.
  intros Hc. unfold joined, Py.split. cbn [Py.split_go]. rewrite Hc.
  change ("" +:+ String c "") with (String c "").
  destruct (split_go_join (String c "") r) as [Hne [y Hy]]; [done|].
  split; [done|]. exists y. by rewrite Hy.
Qed.

Lemma run_after_dash prev c y :
  Py.isspace c = false →
  run after_digits final prev (" - " +:+ String c y) = Some (Some " "%char, String c y).
Proof.
  intros Hc. unfold after_digits, sep_opt, seq. cbn. unfold space. by rewrite Hc.
Qed.

Lemma run_after_colon prev c y :
  Py.isspace c = false →
  run after_digits final prev (": " +:+ String c y) = Some (Some " "%char, String c y).
Proof.
  intros Hc. unfold after_digits, sep_opt, seq. cbn. unfold space. by rewrite Hc.
Qed.

Lemma run_after_space prev c y :
  Py.isspace c = false → one_of "-:" c = false →
  run after_digits final prev (" " +:+ String c y) = Some (Some " "%char, String c y).
Proof.
  intros Hc Ho. unfold after_digits, sep_opt, seq. cbn -[one_of]. unfold space.
  rewrite Hc, Ho. done.
Qed.

Lemma marker_digits prev d N rest out :
  Py.is_digit d = true → Py.all_chars Py.is_digit N = true →
  headed_by digit rest = false →
  run after_digits final (last_of (Some d) N) rest = Some out →
  run (plus digit) (run after_digits final) prev (String d N +:+ rest) = Some out.
Proof.
  intros Hd HN Hsep Hrun. rewrite run_digits; try done; by rewrite Hrun.
Qed.

Lemma match_episode_dash d N c y :
  Py.is_digit d = true → Py.all_chars Py.is_digit N = true → Py.isspace c = false →
  match_at episode_marker None ("Episode " +:+ String d N +:+ " - " +:+ String c y)
  = Some (Some " "%char, String c y).
Proof.
  intros Hd HN Hc. unfold match_at.
  change (star_greedy space (run (plus digit) (run after_digits final)) (Some " "%char)
            (String d N +:+ " - " +:+ String c y)
          = Some (Some " "%char, String c y)).
  rewrite star_greedy_stop by (by apply digit_not_space).
  apply marker_digits; try done. by apply run_after_dash.
Qed.

Lemma match_ep_colon d N c y :
  Py.is_digit d = true → Py.all_chars Py.is_digit N = true → Py.isspace c = false →
  match_at ep_marker None ("EP " +:+ String d N +:+ ": " +:+ String c y)
  = Some (Some " "%char, String c y).
Proof.
  intros Hd HN Hc. unfold match_at.
  change (star_greedy space (run (plus digit) (run after_digits final)) (Some "P"%char)
            (" " +:+ (String d N +:+ ": " +:+ String c y))
          = Some (Some " "%char, String c y)).
  assert (run (plus digit) (run after_digits final) (Some " "%char)
            (String d N +:+ ": " +:+ String c y) = Some (Some " "%char, String c y)) as Hrun.
  { apply marker_digits; try done. by apply run_after_colon. }
  rewrite star_greedy_span; [done | done | by apply digit_not_space |].
  cbn [last_of]. by rewrite Hrun.
Qed.

Lemma match_e_space d N c y :
  Py.is_digit d = true → Py.all_chars Py.is_digit N = true →
  Py.isspace c = false → one_of "-:" c = false →
  match_at e_marker None ("E" +:+ String d N +:+ " " +:+ String c y)
  = Some (Some " "%char, String c y).
Proof.
  intros Hd HN Hc Ho. unfold match_at.
  change (run (plus digit) (run after_digits final) (Some "E"%char)
            (String d N +:+ " " +:+ String c y)
          = Some (Some " "%char, String c y)).
  apply marker_digits; try done. by apply run_after_space.
Qed.

(** None of the three patterns matches a text that does not start with
    the letter E. *)
Lemma markers_unmatched c y :
  Ascii.eqb (Py.lower_char c) "e" = false →
  match_at episode_marker None (String c y) = None
  ∧ match_at ep_marker None (String c y) = None
  ∧ match_at e_marker None (String c y) = None.
Proof.
  intros He. unfold match_at, episode_marker, ep_marker, e_marker.
  cbn [seq app foldr run str]. change (Py.lower_char "E") with "e"%char.
  by rewrite He.
Qed.

Lemma markers_quiet s :
  headed_by (λ c, Ascii.eqb (Py.lower_char c) "e") s = false →
  sub e_marker "" (sub ep_marker "" (sub episode_marker "" s)) = s.
Proof.
  intros Hs. destruct s as [|c y]; [done|]. cbn in Hs.
  destruct (markers_unmatched c y Hs) as (H1 & H2 & H3).
  rewrite (sub_anchored_none episode_marker) by (done || apply markers_anchored).
  rewrite (sub_anchored_none ep_marker) by (done || apply markers_anchored).
  by rewrite (sub_anchored_none e_marker) by (done || apply markers_anchored).
Qed.

Lemma joined_episode_dash N c r :
  Py.isdigit N = true → Py.isspace c = false →
  joined ("Episode " +:+ N +:+ " - " +:+ String c r)
  = "Episode " +:+ N +:+ " - " +:+ joined (String c r).
Proof.
  intros (d & N' & -> & Hd & HN)%isdigit_inv Hc.
  destruct (joined_head c r Hc) as [Hne _]. unfold joined, Py.split in *.
  change (Py.split_go "" ("Episode " +:+ String d N' +:+ " - " +:+ String c r))
    with ("Episode" :: Py.split_go "" (String d N' +:+ " - " +:+ String c r)).
  rewrite split_go_word
    by (cbn [Py.all_chars]; rewrite digit_not_space by done; by apply digits_word).
  change (Py.split_go ("" +:+ String d N') (" - " +:+ String c r))
    with (String d N' :: "-" :: Py.split_go "" (String c r)).
  destruct (Py.split_go "" (String c r)) as [|w l]; [done|].
  rewrite !join_cons by done. simpl. done.
Qed.

Lemma joined_ep_colon N c r :
  Py.isdigit N = true → Py.isspace c = false →
  joined ("EP " +:+ N +:+ ": " +:+ String c r) = "EP " +:+ N +:+ ": " +:+ joined (String c r).
Proof.
  intros (d & N' & -> & Hd & HN)%isdigit_inv Hc.
  destruct (joined_head c r Hc) as [Hne _]. unfold joined, Py.split in *.
  change (Py.split_go "" ("EP " +:+ String d N' +:+ ": " +:+ String c r))
    with ("EP" :: Py.split_go "" (String d N' +:+ ": " +:+ String c r)).
  rewrite split_go_word
    by (cbn [Py.all_chars]; rewrite digit_not_space by done; by apply digits_word).
  change (Py.split_go ("" +:+ String d N') (": " +:+ String c r))
    with ((String d N' +:+ ":") :: Py.split_go "" (String c r)).
  destruct (Py.split_go "" (String c r)) as [|w l]; [done|].
  rewrite !join_cons by done. simpl. by rewrite ?append_assoc.
Qed.

Lemma joined_e_space N c r :
  Py.isdigit N = true → Py.isspace c = false →
  joined ("E" +:+ N +:+ " " +:+ String c r) = "E" +:+ N +:+ " " +:+ joined (String c r).
Proof.
  intros (d & N' & -> & Hd & HN)%isdigit_inv Hc.
  destruct (joined_head c r Hc) as [Hne _]. unfold joined, Py.split in *.
  change (Py.split_go "" ("E" +:+ String d N' +:+ " " +:+ String c r))
    with (Py.split_go "E" (String d N' +:+ " " +:+ String c r)).
  rewrite split_go_word
    by (cbn [Py.all_chars]; rewrite digit_not_space by done; by apply digits_word).
  change (Py.split_go ("E" +:+ String d N') (" " +:+ String c r))
    with (("E" +:+ String d N') :: Py.split_go "" (String c r)).
  destruct (Py.split_go "" (String c r)) as [|w l]; [done|].
  rewrite !join_cons by done. simpl. done.
Qed.

Lemma clean_of_residual title title' :
  title ≠ "" → title' ≠ "" → residual_title title = residual_title title' →
  clean_episode_title title = clean_episode_title title'.
Proof.
  intros H1%String.eqb_neq H2%String.eqb_neq Hr. unfold clean_episode_title.
  by rewrite H1, H2, Hr.
Qed.

Lemma residual_title_joined title :
  residual_title title
  = Py.strip (sub separators " "
      (foldl (λ t pattern, sub pattern "" t)
         (sub e_marker "" (sub ep_marker "" (sub episode_marker "" (joined title))))
         later_patterns)).
Proof. apply residual_title_markers. Qed.

(** A leading marker is removed, and the rest is cleaned as it is
    without the marker. *)
Lemma clean_after_marker N rest :
  Py.isdigit N = true → starts_title rest = true →
  clean_episode_title ("Episode " +:+ N +:+ " - " +:+ rest) = clean_episode_title rest
  ∧ clean_episode_title ("EP " +:+ N +:+ ": " +:+ rest) = clean_episode_title rest
  ∧ clean_episode_title ("E" +:+ N +:+ " " +:+ rest) = clean_episode_title rest.
Proof.
  intros HN (c & r & -> & Hc & Ho & He)%starts_title_inv.
  destruct (joined_head c r Hc) as [_ [y Hy]].
  destruct (markers_unmatched c y He) as (H1 & H2 & H3).
  pose proof markers_anchored as (A1 & A2 & A3).
  assert (residual_title (String c r)
          = Py.strip (sub separators " "
              (foldl (λ t pattern, sub pattern "" t) (String c y) later_patterns))) as Hrest.
  { rewrite residual_title_joined, Hy.
    by rewrite (sub_anchored_none episode_marker), (sub_anchored_none ep_marker),
      (sub_anchored_none e_marker). }
  split; [|split]; (apply clean_of_residual; [by destruct N|done|]);
    rewrite Hrest, residual_title_joined.
  - rewrite joined_episode_dash, Hy by done.
    destruct (isdigit_inv N HN) as (d & N' & -> & Hd & HN').
    rewrite (sub_anchored_match episode_marker _ " " (String c y));
      [| done | by apply match_episode_dash
       | apply (length_lt_append "Episode " _ (" - " +:+ String c y)); simpl; lia].
    by rewrite (sub_anchored_none ep_marker), (sub_anchored_none e_marker).
  - rewrite joined_ep_colon, Hy by done.
    destruct (isdigit_inv N HN) as (d & N' & -> & Hd & HN').
    rewrite (sub_anchored_none episode_marker);
      [| done | apply episode_marker_unmatched_ep].
    rewrite (sub_anchored_match ep_marker _ " " (String c y));
      [| done | by apply match_ep_colon
       | apply (length_lt_append "EP " _ (": " +:+ String c y)); simpl; lia].
    by rewrite (sub_anchored_none e_marker).
  - rewrite joined_e_space, Hy by done.
    destruct (isdigit_inv N HN) as (d & N' & -> & Hd & HN').
    rewrite (sub_anchored_none episode_marker);
      [| done | by apply episode_marker_unmatched_e].
    rewrite (sub_anchored_none ep_marker);
      [| done | by apply ep_marker_unmatched_e].
    rewrite (sub_anchored_match e_marker _ " " (String c y));
      [done | done | by apply match_e_space
       | apply (length_lt_append "E" _ (" " +:+ String c y)); simpl; lia].
Qed.

(** *** Texts a pattern does not match *)

(** No match of [r] starts inside [a] when [a +:+ b] is read from a
    position that [prev] precedes. *)
Fixpoint unmatched (r : regex) (prev : option ascii) (a b : string) : Prop :=
  match a with
  | EmptyString => True
  | String c a' =>
      match_at r prev (String c (a' +:+ b)) = None ∧ unmatched r (Some c) a' b
  end.

Lemma sub_from_unmatched r repl fuel prev a b :
  unmatched r prev a b →
  sub_from r repl (String.length a + fuel) prev (a +:+ b)
  = a +:+ sub_from r repl fuel (last_of prev a) b.
Proof.
  revert prev. induction a as [|c a IH]; intros prev; [done|].
  intros [Hm Ha]. cbn [String.length Nat.add sub_from String.append last_of].
  rewrite Hm. by rewrite IH.
Qed.

Lemma sub_from_nil r fuel prev : sub_from r "" fuel prev "" = "".
Proof.
  destruct fuel as [|fuel]; [done|]. cbn [sub_from].
  by destruct (match_at r prev "") as [[p rest]|].
Qed.

Lemma sub_prefix r repl a b :
  unmatched r None a b →
  sub r repl (a +:+ b)
  = a +:+ sub_from r repl (S (String.length b)) (last_of None a) b.
Proof.
  intros H. unfold sub.
  rewrite (sub_from_fuel _ _ _ (String.length a + S (String.length b)))
    by (rewrite length_append; lia).
  by apply sub_from_unmatched.
Qed.

Lemma sub_quiet r a : unmatched r None a "" → sub r "" a = a.
Proof.
  intros H. rewrite <- (append_nil_r a) at 1. rewrite sub_prefix by done.
  by rewrite sub_from_nil, append_nil_r.
Qed.

(** The match at the end of a text: what [sub] does once it has copied
    the part before it. *)
Lemma sub_from_last r fuel prev prev' b :
  b ≠ "" → match_at r prev b = Some (prev', "") →
  sub_from r "" (S fuel) prev b = "".
Proof.
  intros Hb Hm. cbn [sub_from]. rewrite Hm. destruct b as [|c b]; [done|].
  cbn. apply sub_from_nil.
Qed.

Lemma sub_suffix_removed r a b prev' :
  unmatched r None a b → b ≠ "" →
  match_at r (last_of None a) b = Some (prev', "") →
  sub r "" (a +:+ b) = a.
Proof.
  intros Ha Hb Hm. rewrite sub_prefix by done.
  by rewrite (sub_from_last _ _ _ prev'), append_nil_r.
Qed.

Lemma unmatched_app r prev a1 a2 b :
  unmatched r prev a1 (a2 +:+ b) → unmatched r (last_of prev a1) a2 b →
  unmatched r prev (a1 +:+ a2) b.
Proof.
  revert prev. induction a1 as [|c a1 IH]; intros prev; cbn [unmatched String.append last_of].
  - by intros _.
  - intros [Hm H1] H2. split; [by rewrite append_assoc | by apply IH].
Qed.

(** [h] tells where a match of [r] can start. *)
Definition starts_only (r : regex) (h : string → bool) : Prop :=
  ∀ prev s, h s = false → match_at r prev s = None.

Fixpoint silent (h : string → bool) (a b : string) : bool :=
  match a with
  | EmptyString => true
  | String c a' => negb (h (String c (a' +:+ b))) && silent h a' b
  end.

Lemma unmatched_silent r h prev a b :
  starts_only r h → silent h a b = true → unmatched r prev a b.
Proof.
  intros Hr. revert prev. induction a as [|c a IH]; intros prev; [done|].
  cbn [silent unmatched]. intros [Hh Ha]%andb_true_iff.
  split; [apply Hr; by apply negb_true_iff | by apply IH].
Qed.

(** Some character of [s] has [q]. *)
Definition mentions (q : ascii → bool) (s : string) : bool :=
  negb (Py.all_chars (λ c, negb (q c)) s).

(** [s] starts with [w], case apart. *)
Definition begins (w s : string) : bool := String.prefix w (Py.lower s).

Lemma silent_head p a b :
  Py.all_chars (λ c, negb (p c)) a = true → silent (headed_by p) a b = true.
Proof.
  induction a as [|c a IH]; [done|]. cbn [Py.all_chars silent headed_by].
  intros [-> Ha]%andb_true_iff. by rewrite IH.
Qed.

Lemma silent_mentions q a b :
  Py.all_chars (λ c, negb (q c)) (a +:+ b) = true → silent (mentions q) a b = true.
Proof.
  induction a as [|c a IH]; [done|]. cbn [String.append silent].
  intros H. unfold mentions at 1. rewrite H. cbn [negb andb].
  cbn [Py.all_chars] in H. apply andb_true_iff in H as [_ H]. by apply IH.
Qed.

Lemma lower_app s1 s2 : Py.lower (s1 +:+ s2) = Py.lower s1 +:+ Py.lower s2.
Proof. induction s1 as [|c s1 IH]; [done|]. cbn. by rewrite IH. Qed.

Lemma silent_begins w a b :
  Py.contains w (Py.lower (a +:+ b)) = false → silent (begins w) a b = true.
Proof.
  induction a as [|c a IH]; [done|]. cbn [String.append silent Py.lower Py.contains].
  intros [Hp Hc]%orb_false_iff. unfold begins at 1. cbn [Py.lower]. rewrite Hp.
  by rewrite IH.
Qed.

Lemma prefix_before w c0 s1 s2 :
  occurs c0 w = false →
  String.prefix w (s1 +:+ String c0 s2) = String.prefix w s1.
Proof.
  revert s1. induction w as [|a w IH]; intros s1; [by destruct s1|].
  cbn [occurs]. intros [Ha Hw]%orb_false_iff.
  destruct s1 as [|x s1]; cbn [String.append String.prefix].
  - destruct (ascii_dec a c0) as [->|?]; [|done]. by rewrite Ascii.eqb_refl in Ha.
  - destruct (ascii_dec a x); [by apply IH|done].
Qed.

Lemma contains_sep w a c0 b :
  w ≠ "" → occurs c0 w = false →
  Py.contains w (a +:+ String c0 b) = Py.contains w a || Py.contains w b.
Proof.
  intros Hw Hc. induction a as [|x a IH].
  - cbn [String.append Py.contains].
    pose proof (prefix_before w c0 "" b Hc) as Hp.
    change ("" +:+ String c0 b) with (String c0 b) in Hp. rewrite Hp. by destruct w.
  - cbn [String.append Py.contains]. rewrite IH.
    change (String x (a +:+ String c0 b)) with (String x a +:+ String c0 b).
    rewrite prefix_before by done. by rewrite orb_assoc.
Qed.

Lemma silent_begins_space w a b :
  w ≠ "" → occurs " " w = false →
  Py.contains w (Py.lower a) = false → silent (begins w) (a +:+ " ") b = true.
Proof.
  intros Hw Hsp.
  assert (∀ s, String.prefix w (String " " s) = false) as Hhead.
  { intros s. pose proof (prefix_before w " " "" s Hsp) as Hp.
    change ("" +:+ String " " s) with (String " " s) in Hp. rewrite Hp. by destruct w. }
  induction a as [|c a IH].
  - intros _.
    change (negb (String.prefix w (String " " (Py.lower b))) && true = true).
    by rewrite Hhead.
  - cbn [String.append silent Py.lower Py.contains].
    intros [Hp Hc]%orb_false_iff. rewrite IH by done. rewrite andb_true_r.
    unfold begins. rewrite append_assoc. cbn [Py.lower]. rewrite lower_app.
    change (Py.lower (" " +:+ b)) with (String " " (Py.lower b)).
    change (String (Py.lower_char c) (Py.lower a +:+ String " " (Py.lower b)))
      with (String (Py.lower_char c) (Py.lower a) +:+ String " " (Py.lower b)).
    rewrite prefix_before by done. by rewrite Hp.
Qed.

(** *** Where the patterns can match *)

Definition disc : regex := Re.seq [Re.WordB; Re.str "BD"; Re.WordB].

Definition timestamp : regex :=
  Re.seq [Re.Set_ Re.digit; Re.Set_ Re.digit; Re.Lit ":";
          Re.Set_ Re.digit; Re.Set_ Re.digit; Re.Lit ":";
          Re.Set_ Re.digit; Re.Set_ Re.digit].

Definition resolution : regex := Re.seq [Re.WordB; Re.plus Re.digit; Re.Lit "k"; Re.WordB].

Lemma patterns_named :
  patterns_to_remove
  = [episode_marker; ep_marker; e_marker; watch_online; disc; timestamp; resolution;
     enclosed "[" "]"; enclosed "(" ")"].
Proof. reflexivity. Qed.

Definition is_k (c : ascii) : bool := Ascii.eqb (Py.lower_char c) "k".
Definition is_colon (c : ascii) : bool := Ascii.eqb c ":".

Lemma run_str_begins w k prev s x :
  run (str w) k prev s = Some x → String.prefix (Py.lower w) (Py.lower s) = true.
Proof.
  revert prev s. induction w as [|c w IH]; intros prev s; [by destruct s|].
  cbn [str run]. destruct s as [|a s]; [done|].
  destruct (Ascii.eqb (Py.lower_char a) (Py.lower_char c)) eqn:E; [|done].
  intros H%IH. cbn [Py.lower String.prefix]. apply Ascii.eqb_eq in E.
  destruct (ascii_dec (Py.lower_char c) (Py.lower_char a)); [done|congruence].
Qed.

Lemma watch_online_starts : starts_only watch_online (begins "watch").
Proof.
  intros prev s Hh. destruct (match_at watch_online prev s) as [x|] eqn:Hm; [|done].
  unfold match_at, watch_online, seq in Hm. cbn [foldr run] in Hm.
  apply run_str_begins in Hm. unfold begins in Hh.
  change (Py.lower "Watch") with "watch" in Hm. congruence.
Qed.

Lemma disc_starts : starts_only disc (begins "bd").
Proof.
  intros prev s Hh. destruct (match_at disc prev s) as [x|] eqn:Hm; [|done].
  unfold match_at, disc, seq in Hm. cbn [foldr run] in Hm.
  destruct (xorb _ _); [|done].
  apply run_str_begins in Hm. unfold begins in Hh.
  change (Py.lower "BD") with "bd" in Hm. congruence.
Qed.

Lemma timestamp_starts : starts_only timestamp (headed_by Py.is_digit).
Proof.
  intros prev s Hh. destruct s as [|a s]; [done|]. cbn in Hh.
  unfold match_at, timestamp, seq. cbn [foldr run]. unfold digit. by rewrite Hh.
Qed.

Lemma caseless_colon : caseless ":".
Proof. intros [[] [] [] [] [] [] [] []]; reflexivity. Qed.

Lemma timestamp_colon : starts_only timestamp (mentions is_colon).
Proof.
  intros prev s Hh. unfold mentions in Hh. apply negb_false_iff in Hh.
  unfold match_at, timestamp, seq. cbn [foldr run].
  destruct s as [|a1 [|a2 [|a3 s]]]; try done.
  - by destruct (digit a1).
  - by destruct (digit a1), (digit a2).
  - destruct (digit a1); [|done]. destruct (digit a2); [|done].
    rewrite caseless_colon. cbn [Py.all_chars] in Hh.
    apply andb_true_iff in Hh as [_ [_ [H3 _]%andb_true_iff]%andb_true_iff].
    unfold is_colon in H3. apply negb_true_iff in H3. by rewrite H3.
Qed.

Lemma resolution_starts : starts_only resolution (headed_by Py.is_digit).
Proof.
  intros prev s Hh. unfold match_at, resolution, seq, plus. cbn [foldr run].
  destruct (xorb _ _); [|done]. destruct s as [|a s]; [done|].
  cbn in Hh. unfold digit. by rewrite Hh.
Qed.

Lemma mentions_suffix q rest s : suffix rest s → mentions q rest = true → mentions q s = true.
Proof.
  unfold mentions. intros Hs H%negb_true_iff. apply negb_true_iff.
  apply not_true_is_false. intros Hall.
  by rewrite (all_chars_suffix _ rest s Hs Hall) in H.
Qed.

Lemma resolution_k : starts_only resolution (mentions is_k).
Proof.
  intros prev s Hh. destruct (match_at resolution prev s) as [x|] eqn:Hm; [|done].
  unfold match_at, resolution, seq in Hm. cbn [foldr] in Hm.
  cbn [run] in Hm. destruct (xorb _ _); [|done].
  change (run (plus digit) (run (Cat (Lit "k") (Cat WordB Eps)) final) prev s = Some x) in Hm.
  apply run_suffix in Hm as (prev' & s' & Hs & Hk).
  cbn [run] in Hk. destruct s' as [|a s']; [done|].
  destruct (Ascii.eqb (Py.lower_char a) (Py.lower_char "k")) eqn:Ha; [|done].
  rewrite (mentions_suffix is_k (String a s') s) in Hh; [done|done|].
  unfold mentions. cbn [Py.all_chars]. unfold is_k at 1.
  change (Py.lower_char "k") with "k"%char in Ha. by rewrite Ha.
Qed.

Lemma enclosed_starts o c : caseless o → starts_only (enclosed o c) (headed_by (λ a, Ascii.eqb a o)).
Proof.
  intros Ho prev s Hh. destruct s as [|a s]; [done|]. cbn in Hh.
  unfold match_at, enclosed, seq. cbn [foldr run]. by rewrite Ho, Hh.
Qed.

(** *** Plain titles *)

Definition letter (c : ascii) : bool := Py.is_upper c || Py.is_lower c.

(** A word: one letter or more. *)
Definition word (w : string) : bool := negb (w =? "")%string && Py.all_chars letter w.

(** Letters, and single spaces each before a letter. *)
Fixpoint worded (s : string) : bool :=
  match s with
  | EmptyString => true
  | String c s' => (letter c || (Ascii.eqb c " " && headed_by letter s')) && worded s'
  end.

Lemma letter_facts c :
  letter c = true →
  Py.isspace c = false ∧ hyphen_or_space c = false ∧ Ascii.eqb c " " = false
  ∧ Py.is_digit c = false ∧ Ascii.eqb c "[" = false ∧ Ascii.eqb c "(" = false
  ∧ is_colon c = false.
Proof. revert c. intros [[] [] [] [] [] [] [] []]; by vm_compute. Qed.

Lemma space_facts :
  letter " " = false ∧ Py.is_digit " " = false ∧ is_colon " " = false ∧ is_k " " = false.
Proof. done. Qed.

Lemma worded_inv c s :
  worded (String c s) = true →
  worded s = true
  ∧ (letter c = true ∨ (c = " "%char ∧ headed_by letter s = true)).
Proof.
  cbn [worded]. intros [Hc Hs]%andb_true_iff. split; [done|].
  apply orb_true_iff in Hc as [?|[->%Ascii.eqb_eq ?]%andb_true_iff]; auto.
Qed.

Lemma worded_word w s : Py.all_chars letter w = true → worded (w +:+ s) = worded s.
Proof.
  induction w as [|c w IH]; [done|]. cbn [Py.all_chars String.append worded].
  intros [-> Hw]%andb_true_iff. by rewrite IH.
Qed.

Lemma word_inv w :
  word w = true → ∃ c w', w = String c w' ∧ letter c = true ∧ Py.all_chars letter w' = true.
Proof.
  unfold word. destruct w as [|c w']; [done|]. cbn.
  intros [? ?]%andb_true_iff. by exists c, w'.
Qed.

Lemma worded_join ws :
  forallb word ws = true → ws ≠ [] →
  headed_by letter (Py.join " " ws) = true ∧ worded (Py.join " " ws) = true.
Proof.
  induction ws as [|w ws IH]; [done|]. cbn [forallb].
  intros [Hw Hws]%andb_true_iff _.
  destruct (word_inv w Hw) as (c & w' & -> & Hc & Hw').
  destruct ws as [|v ws].
  - cbn. rewrite Hc. split; [done|]. cbn.
    rewrite <- (append_nil_r w'). by rewrite worded_word.
  - rewrite join_cons by done. destruct IH as [Hh Hj]; [done|done|].
    split; [by cbn|]. cbn [String.append worded]. rewrite Hc. cbn [orb andb].
    rewrite worded_word by done.
    change (" " +:+ Py.join " " (v :: ws)) with (String " " (Py.join " " (v :: ws))).
    cbn [worded]. by rewrite Hh, Hj.
Qed.

Lemma worded_chars s :
  worded s = true → Py.all_chars (λ c, letter c || Ascii.eqb c " ") s = true.
Proof.
  induction s as [|c s IH]; [done|]. intros [Hs Hc]%worded_inv.
  cbn [Py.all_chars]. rewrite IH by done.
  destruct Hc as [->|[-> _]]; done.
Qed.

Lemma worded_collapsed s : worded s = true → collapsed s = true ∧ collapsed (s +:+ " ") = true.
Proof.
  induction s as [|c s IH]; [done|]. intros [Hs Hc]%worded_inv.
  destruct (IH Hs) as [IH1 IH2]. cbn [String.append collapsed]. rewrite IH1, IH2.
  destruct Hc as [Hc|[-> Hh]].
  - destruct (letter_facts c Hc) as (_ & -> & -> & _). done.
  - destruct s as [|l s]; [done|]. cbn in Hh.
    destruct (letter_facts l Hh) as (_ & Hl & _). cbn. by rewrite Hl.
Qed.

Lemma rstrip_cons c s : Py.isspace c = false → Py.rstrip (String c s) = String c (Py.rstrip s).
Proof. intros Hc. cbn [Py.rstrip]. rewrite Hc. by destruct (Py.rstrip s). Qed.

Lemma rstrip_space s : Py.rstrip (s +:+ " ") = Py.rstrip s.
Proof.
  induction s as [|c s IH]; [done|]. cbn [String.append Py.rstrip]. by rewrite IH.
Qed.

Lemma worded_rstrip s : worded s = true → Py.rstrip s = s.
Proof.
  induction s as [|c s IH]; [done|]. intros [Hs Hc]%worded_inv.
  destruct Hc as [Hc|[-> Hh]].
  - destruct (letter_facts c Hc) as (Hsp & _). by rewrite rstrip_cons, IH.
  - cbn [Py.rstrip]. rewrite IH by done. by destruct s.
Qed.

Lemma phrase_strip s :
  headed_by letter s = true → worded s = true →
  Py.strip s = s ∧ Py.strip (s +:+ " ") = s.
Proof.
  intros Hh Hs. destruct s as [|c s]; [done|]. cbn in Hh.
  destruct (letter_facts c Hh) as (Hsp & _). unfold Py.strip.
  cbn [String.append Py.lstrip]. rewrite Hsp.
  change (String c (s +:+ " ")) with (String c s +:+ " ").
  by rewrite rstrip_space, worded_rstrip.
Qed.

Lemma skip_id p s : headed_by p s = false → skip p s = s.
Proof. destruct s as [|a s]; [done|]. cbn. by intros ->. Qed.

Lemma sub_from_separators_id fuel prev s :
  (String.length s < fuel)%nat → collapsed s = true →
  sub_from separators " " fuel prev s = s.
Proof.
  revert prev s. induction fuel as [|fuel IH]; intros prev s Hfuel Hs; [lia|].
  cbn [sub_from]. pose proof (match_at_plus hyphen_or_space prev s) as Hm.
  fold separators in Hm. destruct s as [|a s]; [by rewrite Hm|].
  cbn in Hfuel. cbn [collapsed] in Hs. apply andb_true_iff in Hs as [Ha Hs].
  destruct (hyphen_or_space a) eqn:Hsep.
  - destruct (Ascii.eqb_spec a " ") as [->|_]; [|done].
    apply negb_true_iff in Ha. destruct Hm as [prev' ->]. rewrite skip_id by done.
    rewrite (proj2 (Nat.ltb_lt _ _)) by (cbn; lia).
    rewrite IH by (done || lia). done.
  - rewrite Hm. by rewrite IH by (done || lia).
Qed.

Lemma separators_id s : collapsed s = true → sub separators " " s = s.
Proof. intros Hs. apply sub_from_separators_id; [lia|done]. Qed.

(** [split] and [join] leave a plain title as it is, also before a
    space and more text. *)
Lemma joined_worded tok s b bb :
  (∀ tok, tok ≠ "" → Py.join " " (Py.split_go tok b) = tok +:+ bb) →
  worded s = true → tok ≠ "" ∨ headed_by letter s = true →
  Py.join " " (Py.split_go tok (s +:+ b)) = tok +:+ s +:+ bb.
Proof.
  intros Hb. revert tok. induction s as [|c s IH]; intros tok Hs Htok.
  - destruct Htok as [Htok|?]; [|done]. by apply Hb.
  - apply worded_inv in Hs as [Hs Hc]. cbn [String.append Py.split_go].
    destruct Hc as [Hc|[-> Hh]].
    + destruct (letter_facts c Hc) as (-> & _).
      rewrite IH; [|done|left; by destruct tok]. by rewrite append_assoc.
    + change (Py.isspace " ") with true. cbn match.
      destruct Htok as [Htok|?]; [|done].
      apply String.eqb_neq in Htok as Htok'. rewrite Htok'.
      destruct s as [|l s]; [done|]. cbn in Hh.
      destruct (letter_facts l Hh) as (Hsp & _).
      assert (Py.split_go "" (String l s +:+ b) ≠ []) as Hne.
      { cbn [String.append Py.split_go]. rewrite Hsp.
        destruct (split_go_join ("" +:+ String l "") (s +:+ b)) as [? _]; done. }
      rewrite join_cons by done. rewrite IH by (done || by right). done.
Qed.

Lemma joined_phrase s :
  headed_by letter s = true → worded s = true → joined s = s.
Proof.
  intros Hh Hs. unfold joined, Py.split.
  rewrite <- (append_nil_r s) at 1. rewrite (joined_worded "" s "" ""); [|..].
  - by rewrite append_nil_r.
  - intros tok Htok. cbn. apply String.eqb_neq in Htok as ->. cbn.
    by rewrite append_nil_r.
  - done.
  - by right.
Qed.

Lemma joined_phrase_space s x :
  headed_by letter s = true → worded s = true → Py.split x ≠ [] →
  joined (s +:+ " " +:+ x) = s +:+ " " +:+ joined x.
Proof.
  intros Hh Hs Hx. unfold joined, Py.split.
  rewrite (joined_worded "" s (" " +:+ x) (" " +:+ Py.join " " (Py.split x))); [done|..].
  - intros tok Htok. cbn [String.append Py.split_go].
    change (Py.isspace " ") with true. cbn match.
    apply String.eqb_neq in Htok as ->. by rewrite join_cons.
  - done.
  - by right.
Qed.

(** *** The patterns on a plain title *)

Definition is_e (c : ascii) : bool := Ascii.eqb (Py.lower_char c) "e".

Definition plain_char (c : ascii) : bool := letter c || Ascii.eqb c " ".

Lemma quiet_by_head r p s :
  starts_only r (headed_by p) → Py.all_chars (λ c, negb (p c)) s = true → sub r "" s = s.
Proof.
  intros Hr Hs. apply sub_quiet. eapply unmatched_silent; [done|]. by apply silent_head.
Qed.

Lemma quiet_by_mention r q s :
  starts_only r (mentions q) → Py.all_chars (λ c, negb (q c)) s = true → sub r "" s = s.
Proof.
  intros Hr Hs. apply sub_quiet. eapply unmatched_silent; [done|].
  apply silent_mentions. by rewrite append_nil_r.
Qed.

Lemma quiet_by_begin r w s :
  starts_only r (begins w) → Py.contains w (Py.lower s) = false → sub r "" s = s.
Proof.
  intros Hr Hs. apply sub_quiet. eapply unmatched_silent; [done|].
  apply silent_begins. by rewrite append_nil_r.
Qed.

Lemma plain_char_facts c :
  plain_char c = true →
  negb (Py.is_digit c) = true ∧ negb (is_colon c) = true
  ∧ negb (Ascii.eqb c "[") = true ∧ negb (Ascii.eqb c "(") = true.
Proof. revert c. intros [[] [] [] [] [] [] [] []]; by vm_compute. Qed.

Lemma plain_chars s :
  Py.all_chars plain_char s = true →
  Py.all_chars (λ c, negb (Py.is_digit c)) s = true
  ∧ Py.all_chars (λ c, negb (is_colon c)) s = true
  ∧ Py.all_chars (λ c, negb (Ascii.eqb c "[")) s = true
  ∧ Py.all_chars (λ c, negb (Ascii.eqb c "(")) s = true.
Proof.
  intros Hs. repeat split; (eapply all_chars_impl; [|exact Hs]); intros c Hc;
    by destruct (plain_char_facts c Hc) as (? & ? & ? & ?).
Qed.

(** The five patterns after ["Watch Online"] leave a text of letters and
    spaces without ["bd"] as it is. *)
Lemma later_quiet s :
  Py.all_chars plain_char s = true → Py.contains "bd" (Py.lower s) = false →
  sub (enclosed "(" ")") ""
    (sub (enclosed "[" "]") "" (sub resolution "" (sub timestamp "" (sub disc "" s)))) = s.
Proof.
  intros (Hd & Hc & Hsq & Hpa)%plain_chars Hbd.
  pose proof caseless_brackets as (Hsq1 & _ & Hpa1 & _).
  rewrite (quiet_by_begin disc "bd") by (done || apply disc_starts).
  rewrite (quiet_by_head timestamp Py.is_digit) by (done || apply timestamp_starts).
  rewrite (quiet_by_head resolution Py.is_digit) by (done || apply resolution_starts).
  rewrite (quiet_by_head (enclosed "[" "]") (λ a, Ascii.eqb a "["))
    by (done || by apply enclosed_starts).
  by rewrite (quiet_by_head (enclosed "(" ")") (λ a, Ascii.eqb a "("))
    by (done || by apply enclosed_starts).
Qed.

(** The title after the nine patterns. *)
Definition stages (s : string) : string :=
  sub (enclosed "(" ")") ""
    (sub (enclosed "[" "]") ""
       (sub resolution ""
          (sub timestamp ""
             (sub disc ""
                (sub watch_online ""
                   (sub e_marker "" (sub ep_marker "" (sub episode_marker "" s)))))))).

Lemma residual_title_stages title :
  residual_title title = Py.strip (sub separators " " (stages (joined title))).
Proof.
  unfold residual_title, stages, joined, patterns_to_remove, episode_marker, ep_marker,
    e_marker, watch_online, disc, timestamp, resolution, enclosed.
  cbn [foldl]. reflexivity.
Qed.

(** A plain title: words of letters with single spaces between them, two
    characters or more, that does not start with the letter E and holds
    neither ["watch"] nor ["bd"], case apart. *)
Definition plain_title (ws : list string) : bool :=
  let title := Py.join " " ws in
  forallb word ws
  && (2 <=? String.length title)%nat
  && negb (headed_by is_e title)
  && negb (Py.contains "watch" (Py.lower title))
  && negb (Py.contains "bd" (Py.lower title)).

Record plain_text (t : string) : Prop := PlainText {
  plain_head : headed_by letter t = true;
  plain_worded : worded t = true;
  plain_long : (2 ≤ String.length t)%nat;
  plain_no_e : headed_by is_e t = false;
  plain_no_watch : Py.contains "watch" (Py.lower t) = false;
  plain_no_bd : Py.contains "bd" (Py.lower t) = false
}.

Lemma plain_title_plain ws : plain_title ws = true → plain_text (Py.join " " ws).
Proof.
  unfold plain_title. cbv zeta.
  intros [[[[Hws Hlen]%andb_true_iff He]%andb_true_iff Hw]%andb_true_iff Hb]%andb_true_iff.
  assert (ws ≠ []) as Hne by (intros ->; done).
  destruct (worded_join ws Hws Hne) as [Hh Hwd].
  split; try done.
  - by apply Nat.leb_le.
  - by apply negb_true_iff.
  - by apply negb_true_iff.
  - by apply negb_true_iff.
Qed.

Lemma last_of_app prev a b : last_of prev (a +:+ b) = last_of (last_of prev a) b.
Proof. revert prev. induction a as [|c a IH]; intros prev; [done|]. cbn. apply IH. Qed.

Section Plain.

Variable t : string.
Hypothesis Ht : plain_text t.

Lemma plain_chars_all : Py.all_chars plain_char t = true.
Proof. apply worded_chars, Ht. Qed.

Lemma plain_space_chars : Py.all_chars plain_char (t +:+ " ") = true.
Proof. by rewrite all_chars_append, plain_chars_all. Qed.

Lemma plain_head_e b : headed_by is_e (t +:+ b) = false.
Proof.
  destruct Ht as [Hh _ _ He _ _]. destruct t as [|c s]; [done|]. done.
Qed.

Lemma plain_contains w b :
  w ≠ "" → occurs " " w = false →
  Py.contains w (Py.lower t) = false →
  Py.contains w (Py.lower (t +:+ " " +:+ b)) = Py.contains w (Py.lower b).
Proof.
  intros Hw Hsp Hc. rewrite lower_app.
  change (Py.lower (" " +:+ b)) with (String " " (Py.lower b)).
  by rewrite contains_sep, Hc.
Qed.

Lemma plain_last : last_of None (t +:+ " ") = Some " "%char.
Proof. by rewrite last_of_app. Qed.

(** The nine patterns, the separators and [strip] on the title with or
    without a space after it. *)
Lemma plain_stages b : b = "" ∨ b = " " → stages (t +:+ b) = t +:+ b.
Proof.
  intros Hb. unfold stages. rewrite markers_quiet by apply plain_head_e.
  assert (Py.all_chars plain_char (t +:+ b) = true) as Hchars.
  { destruct Hb as [->| ->]; [rewrite append_nil_r; apply plain_chars_all
                              | apply plain_space_chars]. }
  assert (∀ w, w ≠ "" → occurs " " w = false → Py.contains w (Py.lower t) = false →
               Py.contains w (Py.lower (t +:+ b)) = false) as Hcont.
  { intros w Hw Hsp Hc. destruct Hb as [->| ->]; [by rewrite append_nil_r|].
    rewrite <- (append_nil_r " "). rewrite plain_contains by done. by destruct w. }
  rewrite (quiet_by_begin watch_online "watch");
    [| apply watch_online_starts | apply Hcont; [done|done|apply Ht] ].
  apply later_quiet; [done|]. apply Hcont; [done|done|apply Ht].
Qed.

Lemma plain_finish b :
  b = "" ∨ b = " " → Py.strip (sub separators " " (t +:+ b)) = t.
Proof.
  destruct Ht as [Hh Hw _ _ _ _].
  destruct (worded_collapsed t Hw) as [Hc1 Hc2].
  destruct (phrase_strip t Hh Hw) as [Hs1 Hs2].
  intros [->| ->].
  - rewrite append_nil_r. by rewrite separators_id.
  - by rewrite separators_id.
Qed.

Lemma plain_returned s :
  s ≠ "" → residual_title s = t → clean_episode_title s = t.
Proof.
  intros Hs%String.eqb_neq Hr. unfold clean_episode_title. rewrite Hs, Hr.
  destruct Ht as [Hh _ Hlen _ _ _].
  destruct t as [|c s']; [done|]. cbn in Hh.
  destruct (letter_facts c Hh) as (_ & _ & _ & Hd & _).
  unfold Py.isdigit. cbn [Py.all_chars]. rewrite Hd. cbn [andb orb String.eqb].
  rewrite andb_false_r. cbn [orb].
  by rewrite (proj2 (Nat.ltb_ge _ _)).
Qed.

(** What is left when the patterns turn the decorated title into the
    title, with or without a space after it. *)
Lemma clean_decorated s s' b :
  s ≠ "" → joined s = s' → b = "" ∨ b = " " → stages s' = t +:+ b →
  clean_episode_title s = t.
Proof.
  intros Hs Hj Hb Hst. apply plain_returned; [done|].
  rewrite residual_title_stages, Hj, Hst. by apply plain_finish.
Qed.

End Plain.

(** *** Decorated titles *)

Lemma watch_quiet s :
  Py.contains "watch" (Py.lower s) = false → sub watch_online "" s = s.
Proof. intros. by apply (quiet_by_begin watch_online "watch"); [apply watch_online_starts|]. Qed.

Lemma disc_quiet s : Py.contains "bd" (Py.lower s) = false → sub disc "" s = s.
Proof. intros. by apply (quiet_by_begin disc "bd"); [apply disc_starts|]. Qed.

Lemma timestamp_quiet s :
  Py.all_chars (λ c, negb (is_colon c)) s = true → sub timestamp "" s = s.
Proof. intros. by apply (quiet_by_mention timestamp is_colon); [apply timestamp_colon|]. Qed.

Lemma square_quiet s :
  Py.all_chars (λ c, negb (Ascii.eqb c "[")) s = true → sub (enclosed "[" "]") "" s = s.
Proof.
  intros. apply (quiet_by_head _ (λ a, Ascii.eqb a "[")); [|done].
  apply enclosed_starts, caseless_brackets.
Qed.

Lemma round_quiet s :
  Py.all_chars (λ c, negb (Ascii.eqb c "(")) s = true → sub (enclosed "(" ")") "" s = s.
Proof.
  intros. apply (quiet_by_head _ (λ a, Ascii.eqb a "(")); [|done].
  apply enclosed_starts, caseless_brackets.
Qed.

(** [\b\d+k\b] on a text without digits followed by one without [k]. *)
Lemma resolution_quiet a b :
  Py.all_chars (λ c, negb (Py.is_digit c)) a = true →
  Py.all_chars (λ c, negb (is_k c)) b = true →
  sub resolution "" (a +:+ b) = a +:+ b.
Proof.
  intros Ha Hb. apply sub_quiet. apply unmatched_app.
  - eapply unmatched_silent; [apply resolution_starts|]. by apply silent_head.
  - eapply unmatched_silent; [apply resolution_k|].
    apply silent_mentions. by rewrite append_nil_r.
Qed.

Lemma contains_lower_absent w0 w' s :
  Py.all_chars (λ c, negb (Ascii.eqb (Py.lower_char c) w0)) s = true →
  Py.contains (String w0 w') (Py.lower s) = false.
Proof.
  induction s as [|c s IH]; [done|]. cbn [Py.all_chars Py.lower Py.contains String.prefix].
  intros [Hc Hs]%andb_true_iff. rewrite IH by done. rewrite orb_false_r.
  destruct (ascii_dec w0 (Py.lower_char c)) as [->|?]; [|done].
  by rewrite Ascii.eqb_refl in Hc.
Qed.

Lemma split_token tok :
  tok ≠ "" → Py.all_chars (λ c, negb (Py.isspace c)) tok = true → Py.split tok = [tok].
Proof.
  intros Hne Htok. unfold Py.split. rewrite <- (append_nil_r tok) at 1.
  rewrite split_go_word by done. cbn. by apply String.eqb_neq in Hne as ->.
Qed.

Definition alnum (c : ascii) : bool := letter c || Py.is_digit c.

(** A tag: letters and digits, without the letter K and without ["bd"]
    and ["watch"], case apart. *)
Definition tag (x : string) : bool :=
  Py.all_chars alnum x
  && Py.all_chars (λ c, negb (is_k c)) x
  && negb (Py.contains "bd" (Py.lower x))
  && negb (Py.contains "watch" (Py.lower x)).

Definition two_digits (x : string) : bool :=
  (String.length x =? 2)%nat && Py.all_chars Py.is_digit x.

Lemma two_digits_inv x :
  two_digits x = true →
  ∃ a b, x = String a (String b "") ∧ Py.is_digit a = true ∧ Py.is_digit b = true.
Proof.
  unfold two_digits. destruct x as [|a [|b [|c x]]]; try done.
  cbn [String.length Nat.eqb Py.all_chars andb].
  intros [Ha [Hb _]%andb_true_iff]%andb_true_iff. by exists a, b.
Qed.

Lemma alnum_facts c :
  alnum c = true →
  negb (Py.isspace c) = true ∧ negb (is_colon c) = true
  ∧ negb (Ascii.eqb c "[") = true ∧ negb (Ascii.eqb c "(") = true
  ∧ Ascii.eqb c "]" = false ∧ Ascii.eqb c ")" = false ∧ dot c = true.
Proof. revert c. intros [[] [] [] [] [] [] [] []]; by vm_compute. Qed.

Lemma digit_facts c :
  Py.is_digit c = true →
  negb (Py.isspace c) = true
  ∧ negb (Ascii.eqb (Py.lower_char c) "w") = true
  ∧ negb (Ascii.eqb (Py.lower_char c) "b") = true
  ∧ negb (is_colon c) = true ∧ is_word c = true.
Proof. revert c. intros [[] [] [] [] [] [] [] []]; by vm_compute. Qed.

Lemma k_facts c :
  is_k c = true →
  negb (Py.isspace c) = true
  ∧ negb (Ascii.eqb (Py.lower_char c) "w") = true
  ∧ negb (Ascii.eqb (Py.lower_char c) "b") = true
  ∧ negb (is_colon c) = true ∧ is_word c = true ∧ Py.is_digit c = false
  ∧ Ascii.eqb (Py.lower_char c) (Py.lower_char "k") = true.
Proof. revert c. intros [[] [] [] [] [] [] [] []]; by vm_compute. Qed.

Lemma after_first_absent c x s :
  occurs c x = false → after_first c (x +:+ String c s) = s ∧ occurs c (x +:+ String c s) = true.
Proof.
  induction x as [|a x IH]; cbn [occurs String.append after_first].
  - intros _. by rewrite Ascii.eqb_refl.
  - intros [-> Hx]%orb_false_iff. by apply IH.
Qed.

Definition clock (h m s : string) : string := h +:+ ":" +:+ m +:+ ":" +:+ s.

Lemma clock_char_facts c :
  Py.is_digit c || is_colon c || is_k c = true →
  negb (Py.isspace c) = true
  ∧ negb (Ascii.eqb (Py.lower_char c) "w") = true
  ∧ negb (Ascii.eqb (Py.lower_char c) "b") = true.
Proof. revert c. intros [[] [] [] [] [] [] [] []]; by vm_compute. Qed.

Lemma clock_chars s :
  Py.all_chars (λ c, Py.is_digit c || is_colon c || is_k c) s = true →
  Py.all_chars (λ c, negb (Py.isspace c)) s = true
  ∧ Py.contains "watch" (Py.lower s) = false
  ∧ Py.contains "bd" (Py.lower s) = false.
Proof.
  intros Hs. split; [|split].
  - eapply all_chars_impl; [|exact Hs]. intros c Hc. by apply clock_char_facts.
  - apply contains_lower_absent. eapply all_chars_impl; [|exact Hs].
    intros c Hc. by apply clock_char_facts.
  - apply contains_lower_absent. eapply all_chars_impl; [|exact Hs].
    intros c Hc. by apply clock_char_facts.
Qed.

Lemma contains_wrapped w o c x :
  w ≠ "" → occurs o w = false → occurs c w = false →
  Py.contains w (String o (x +:+ String c "")) = Py.contains w x.
Proof.
  intros Hw Ho Hc. change (String o (x +:+ String c "")) with ("" +:+ String o (x +:+ String c "")).
  rewrite contains_sep by done. rewrite contains_sep by done.
  destruct w; [done|]. cbn. by rewrite orb_false_r.
Qed.

Lemma tag_inv x :
  tag x = true →
  Py.all_chars alnum x = true ∧ Py.all_chars (λ c, negb (is_k c)) x = true
  ∧ Py.contains "bd" (Py.lower x) = false ∧ Py.contains "watch" (Py.lower x) = false.
Proof.
  unfold tag. intros [[[? ?]%andb_true_iff ?%negb_true_iff]%andb_true_iff ?%negb_true_iff]%andb_true_iff.
  done.
Qed.

Lemma alnum_chars x :
  Py.all_chars alnum x = true →
  Py.all_chars (λ c, negb (Py.isspace c)) x = true
  ∧ Py.all_chars (λ c, negb (is_colon c)) x = true
  ∧ Py.all_chars (λ c, negb (Ascii.eqb c "[")) x = true
  ∧ Py.all_chars (λ c, negb (Ascii.eqb c "(")) x = true
  ∧ Py.all_chars dot x = true
  ∧ occurs "]" x = false ∧ occurs ")" x = false.
Proof.
  intros Hx.
  assert (∀ p : ascii → bool, (∀ c, alnum c = true → p c = true) → Py.all_chars p x = true)
    as Hall by (intros p Hp; by eapply all_chars_impl).
  assert (∀ b, (∀ c, alnum c = true → Ascii.eqb c b = false) → occurs b x = false) as Hocc.
  { intros b Hb. induction x as [|c x IH]; [done|]. cbn in Hx |- *.
    apply andb_true_iff in Hx as [Hc Hx]. rewrite (Hb c Hc). cbn. apply IH; [done|].
    intros p Hp. by eapply all_chars_impl. }
  repeat split; try (apply Hall; intros c Hc; by apply alnum_facts);
    apply Hocc; intros c Hc; by apply alnum_facts.
Qed.

Section Decorated.

Variable t : string.
Hypothesis Ht : plain_text t.

Lemma plain_nonempty b : t +:+ b ≠ "".
Proof. destruct Ht as [Hh _ _ _ _ _]. by destruct t. Qed.

Lemma plain_space_quiet :
  Py.all_chars (λ c, negb (Py.is_digit c)) (t +:+ " ") = true
  ∧ Py.all_chars (λ c, negb (is_colon c)) (t +:+ " ") = true
  ∧ Py.all_chars (λ c, negb (Ascii.eqb c "[")) (t +:+ " ") = true
  ∧ Py.all_chars (λ c, negb (Ascii.eqb c "(")) (t +:+ " ") = true.
Proof. apply plain_chars, plain_space_chars, Ht. Qed.

Lemma joined_token tok :
  tok ≠ "" → Py.all_chars (λ c, negb (Py.isspace c)) tok = true →
  joined (t +:+ " " +:+ tok) = t +:+ " " +:+ tok.
Proof.
  intros Hne Htok. rewrite joined_phrase_space; try apply Ht.
  - unfold joined. by rewrite split_token.
  - by rewrite split_token.
Qed.

(** The title alone. *)
Lemma clean_plain : clean_episode_title t = t.
Proof.
  apply (clean_decorated t Ht t t ""); [|by apply joined_phrase; apply Ht|by left|].
  - pose proof (plain_nonempty "") as H. by rewrite append_nil_r in H.
  - pose proof (plain_stages t Ht "" (or_introl eq_refl)) as H.
    rewrite append_nil_r in H. by rewrite H, append_nil_r.
Qed.

(** The stages once one of them has turned the text into the title and
    a space. *)
Lemma rest_quiet :
  sub disc "" (t +:+ " ") = t +:+ " "
  ∧ sub timestamp "" (t +:+ " ") = t +:+ " "
  ∧ sub resolution "" (t +:+ " ") = t +:+ " "
  ∧ sub (enclosed "[" "]") "" (t +:+ " ") = t +:+ " "
  ∧ sub (enclosed "(" ")") "" (t +:+ " ") = t +:+ " ".
Proof.
  destruct plain_space_quiet as (Hd & Hc & Hsq & Hpa).
  split; [|split; [|split; [|split]]].
  - apply disc_quiet. rewrite <- (append_nil_r " ").
    rewrite plain_contains; [done|done|done|apply Ht].
  - by apply timestamp_quiet.
  - rewrite <- (append_nil_r (t +:+ " ")). by apply resolution_quiet.
  - by apply square_quiet.
  - by apply round_quiet.
Qed.

(** ["Watch Online"] and what follows it. *)
Lemma clean_watch x : clean_episode_title (t +:+ " Watch Online" +:+ x) = t.
Proof.
  destruct (split_go_join "Online" x) as [Hne [y Hy]]; [done|].
  assert (Py.split ("Watch Online" +:+ x) = "Watch" :: Py.split_go "Online" x) as Hsplit
    by done.
  assert (joined ("Watch Online" +:+ x) = "Watch Online" +:+ y) as Hj.
  { unfold joined. rewrite Hsplit, join_cons, Hy by done. done. }
  assert (Py.all_chars dot y = true) as Hy'.
  { pose proof (joined_no_newline ("Watch Online" +:+ x)) as Hall.
    fold (joined ("Watch Online" +:+ x)) in Hall. rewrite Hj, all_chars_append in Hall.
    by apply andb_true_iff in Hall as [_ ?]. }
  destruct rest_quiet as (H5 & H6 & H7 & H8 & H9).
  apply (clean_decorated t Ht _ (t +:+ " " +:+ "Watch Online" +:+ y) " ");
    [apply plain_nonempty| |by right|].
  - change (t +:+ " Watch Online" +:+ x) with (t +:+ " " +:+ ("Watch Online" +:+ x)).
    rewrite joined_phrase_space; [by rewrite Hj|apply Ht|apply Ht|by rewrite Hsplit].
  - unfold stages. rewrite markers_quiet by apply (plain_head_e t Ht).
    destruct (match_watch_online (Some " "%char) y Hy') as [prev' Hm].
    rewrite <- (append_assoc t " ").
    rewrite (sub_suffix_removed watch_online (t +:+ " ") _ prev');
      [by rewrite H5, H6, H7, H8, H9| |done|by rewrite (plain_last t)].
    eapply unmatched_silent; [apply watch_online_starts|].
    apply silent_begins_space; [done|done|apply Ht].
Qed.

(** The quality marker [BD]. *)
Lemma clean_disc : clean_episode_title (t +:+ " BD") = t.
Proof.
  destruct rest_quiet as (H5 & H6 & H7 & H8 & H9).
  apply (clean_decorated t Ht _ (t +:+ " " +:+ "BD") " ");
    [apply plain_nonempty|by apply joined_token|by right|].
  unfold stages. rewrite markers_quiet by apply (plain_head_e t Ht).
  rewrite watch_quiet by (rewrite plain_contains; [done|done|done|apply Ht]).
  rewrite <- (append_assoc t " ").
  rewrite (sub_suffix_removed disc (t +:+ " ") _ (Some "D"%char));
    [by rewrite H6, H7, H8, H9| |done|by rewrite (plain_last t)].
  eapply unmatched_silent; [apply disc_starts|].
  apply silent_begins_space; [done|done|apply Ht].
Qed.

(** A timestamp of three pairs of digits. *)
Lemma clean_clock h m s :
  two_digits h = true → two_digits m = true → two_digits s = true →
  clean_episode_title (t +:+ " " +:+ clock h m s) = t.
Proof.
  intros (a & b & -> & Ha & Hb)%two_digits_inv (c & d & -> & Hc & Hd)%two_digits_inv
         (e & f & -> & He & Hf)%two_digits_inv.
  unfold clock. cbn [String.append].
  set (ts := String a (String b (String ":" (String c (String d
               (String ":" (String e (String f "")))))))).
  assert (Py.all_chars (λ c, Py.is_digit c || is_colon c || is_k c) ts = true) as Hts.
  { subst ts. cbn [Py.all_chars]. by rewrite Ha, Hb, Hc, Hd, He, Hf. }
  destruct (clock_chars ts Hts) as (Hsp & Hw & Hbd).
  destruct rest_quiet as (H5 & H6 & H7 & H8 & H9).
  destruct plain_space_quiet as (Hdig & _).
  apply (clean_decorated t Ht _ (t +:+ " " +:+ ts) " ");
    [apply plain_nonempty|by apply joined_token|by right|].
  unfold stages. rewrite markers_quiet by apply (plain_head_e t Ht).
  rewrite watch_quiet by (rewrite plain_contains; [done|done|done|apply Ht]).
  rewrite disc_quiet by (rewrite plain_contains; [done|done|done|apply Ht]).
  rewrite <- (append_assoc t " ").
  rewrite (sub_suffix_removed timestamp (t +:+ " ") _ (Some f));
    [by rewrite H7, H8, H9| |done|].
  - eapply unmatched_silent; [apply timestamp_starts|]. by apply silent_head.
  - rewrite (plain_last t). unfold match_at, timestamp, seq, ts. cbn [foldr run].
    unfold digit. rewrite Ha, Hb, Hc, Hd, He, Hf. by rewrite !caseless_colon.
Qed.

(** A quality marker made of a number and the letter K. *)
Lemma clean_resolution N k :
  Py.isdigit N = true → is_k k = true →
  clean_episode_title (t +:+ " " +:+ N +:+ String k "") = t.
Proof.
  intros (d & N' & -> & Hd & HN)%isdigit_inv Hk.
  destruct (k_facts k Hk) as (Hk1 & Hk2 & Hk3 & Hk4 & Hk5 & Hk6 & Hk7).
  destruct (digit_facts d Hd) as (Hd1 & Hd2 & Hd3 & Hd4 & Hd5).
  set (tok := String d N' +:+ String k "").
  assert (Py.all_chars (λ c, Py.is_digit c || is_colon c || is_k c) tok = true) as Htok.
  { subst tok. rewrite all_chars_append. cbn [Py.all_chars]. rewrite Hd, Hk.
    rewrite orb_true_r. cbn [orb andb]. rewrite andb_true_r.
    eapply all_chars_impl; [|exact HN]. by intros c ->. }
  destruct (clock_chars tok Htok) as (Hsp & Hw & Hbd).
  destruct rest_quiet as (H5 & H6 & H7 & H8 & H9).
  destruct plain_space_quiet as (Hdig & Hcol & _).
  apply (clean_decorated t Ht _ (t +:+ " " +:+ tok) " ");
    [apply plain_nonempty|by apply joined_token|by right|].
  unfold stages. rewrite markers_quiet by apply (plain_head_e t Ht).
  rewrite watch_quiet by (rewrite plain_contains; [done|done|done|apply Ht]).
  rewrite disc_quiet by (rewrite plain_contains; [done|done|done|apply Ht]).
  rewrite timestamp_quiet.
  2:{ rewrite <- (append_assoc t " "), all_chars_append, Hcol. subst tok.
      rewrite all_chars_append. cbn [Py.all_chars]. rewrite Hd4, Hk4.
      cbn [andb]. rewrite andb_true_r.
      eapply all_chars_impl; [|exact HN]. intros c Hc. by apply digit_facts. }
  rewrite <- (append_assoc t " ").
  rewrite (sub_suffix_removed resolution (t +:+ " ") _ (Some k));
    [by rewrite H8, H9| |done|].
  - eapply unmatched_silent; [apply resolution_starts|]. by apply silent_head.
  - rewrite (plain_last t). unfold match_at, resolution, seq, tok. cbn [foldr].
    change ((if xorb false (is_word d)
             then run (plus digit) (run (Cat (Lit "k") (Cat WordB Eps)) final)
                      (Some " "%char) (String d N' +:+ String k "")
             else None) = Some (Some k, "")).
    rewrite Hd5. cbn [xorb].
    assert (run (Cat (Lit "k") (Cat WordB Eps)) final (last_of (Some d) N') (String k "")
            = Some (Some k, "")) as Hrun.
    { cbn [run]. rewrite Hk7. cbn [word_before word_after]. by rewrite Hk5. }
    rewrite run_digits; [done|done|done| |by rewrite Hrun].
    cbn. unfold digit. by rewrite Hk6.
Qed.

(** The seven patterns before the bracket ones leave a tag between
    [o] and [c] after the title as it is. *)
Lemma tag_first_stages (o c : ascii) x :
  tag x = true →
  Py.isspace o = false → Py.isspace c = false →
  is_colon o = false → is_colon c = false →
  Py.is_digit o = false → is_k c = false →
  Py.lower_char o = o → Py.lower_char c = c →
  occurs o "watch" = false → occurs c "watch" = false →
  occurs o "bd" = false → occurs c "bd" = false →
  let tok := String o (x +:+ String c "") in
  joined (t +:+ " " +:+ tok) = t +:+ " " +:+ tok
  ∧ sub resolution ""
      (sub timestamp ""
         (sub disc ""
            (sub watch_online ""
               (sub e_marker "" (sub ep_marker "" (sub episode_marker ""
                  (t +:+ " " +:+ tok)))))))
    = t +:+ " " +:+ tok.
Proof.
  intros (Hx & Hk & Hbd & Hw)%tag_inv Ho1 Hc1 Ho2 Hc2 Ho3 Hc3 Ho6 Hc6 Ho4 Hc4 Ho5 Hc5 tok.
  destruct (alnum_chars x Hx) as (Hsp & Hcol & Hsq & Hpa & Hdot & Hsq' & Hpa').
  destruct plain_space_quiet as (Hdig & Hcol' & Hsq0 & Hpa0).
  assert (Py.lower tok = String o (Py.lower x +:+ String c "")) as Hlow.
  { subst tok. cbn [Py.lower]. rewrite lower_app. cbn [Py.lower]. by rewrite Ho6, Hc6. }
  split.
  - apply joined_token; [done|]. subst tok. cbn [Py.all_chars]. rewrite Ho1.
    rewrite all_chars_append, Hsp. cbn. by rewrite Hc1.
  - rewrite markers_quiet by apply (plain_head_e t Ht).
    rewrite watch_quiet
      by (rewrite plain_contains; [|done|done|apply Ht]; by rewrite Hlow, contains_wrapped).
    rewrite disc_quiet
      by (rewrite plain_contains; [|done|done|apply Ht]; by rewrite Hlow, contains_wrapped).
    rewrite timestamp_quiet.
    2:{ rewrite <- (append_assoc t " "), all_chars_append, Hcol'. subst tok.
        cbn [Py.all_chars]. rewrite Ho2, all_chars_append, Hcol. cbn. by rewrite Hc2. }
    assert (t +:+ " " +:+ tok = (t +:+ String " " (String o "")) +:+ (x +:+ String c "")) as ->.
    { subst tok. rewrite append_assoc. done. }
    apply resolution_quiet.
    + change (String " " (String o "")) with (" " +:+ String o "").
      rewrite <- (append_assoc t " "), all_chars_append, Hdig. cbn. by rewrite Ho3.
    + rewrite all_chars_append, Hk. cbn. by rewrite Hc3.
Qed.

(** An annotation in brackets or in parentheses. *)
Lemma clean_tag x :
  tag x = true →
  clean_episode_title (t +:+ " [" +:+ x +:+ "]") = t
  ∧ clean_episode_title (t +:+ " (" +:+ x +:+ ")") = t.
Proof.
  intros Htag. pose proof Htag as (Hx & _)%tag_inv.
  destruct (alnum_chars x Hx) as (Hsp & Hcol & Hsq & Hpa & Hdot & Hsq' & Hpa').
  destruct rest_quiet as (H5 & H6 & H7 & H8 & H9).
  destruct plain_space_quiet as (Hdig & Hcol' & Hsq0 & Hpa0).
  pose proof caseless_brackets as (C1 & C2 & C3 & C4).
  split.
  - destruct (tag_first_stages "[" "]" x Htag) as [Hj Hst]; try done.
    apply (clean_decorated t Ht _ (t +:+ " " +:+ String "[" (x +:+ "]")) " ");
      [apply plain_nonempty|exact Hj|by right|].
    unfold stages. rewrite Hst. rewrite <- (append_assoc t " ").
    destruct (after_first_absent "]" x "" Hsq') as [Hrest Hocc].
    pose proof (match_at_enclosed "[" "]" (Some " "%char) (String "[" (x +:+ "]")) C1 C2)
      as Hm.
    cbn [Py.all_chars] in Hm. rewrite all_chars_append, Hdot in Hm.
    specialize (Hm eq_refl). rewrite Ascii.eqb_refl, Hocc in Hm.
    destruct Hm as [prev' Hm]. rewrite Hrest in Hm.
    rewrite (sub_suffix_removed (enclosed "[" "]") (t +:+ " ") _ prev');
      [by rewrite H9| |done|by rewrite (plain_last t)].
    eapply unmatched_silent; [by apply enclosed_starts|]. by apply silent_head.
  - destruct (tag_first_stages "(" ")" x Htag) as [Hj Hst]; try done.
    apply (clean_decorated t Ht _ (t +:+ " " +:+ String "(" (x +:+ ")")) " ");
      [apply plain_nonempty|exact Hj|by right|].
    unfold stages. rewrite Hst.
    rewrite square_quiet.
    2:{ rewrite <- (append_assoc t " "), all_chars_append, Hsq0.
        cbn [Py.all_chars]. rewrite all_chars_append, Hsq. done. }
    rewrite <- (append_assoc t " ").
    destruct (after_first_absent ")" x "" Hpa') as [Hrest Hocc].
    pose proof (match_at_enclosed "(" ")" (Some " "%char) (String "(" (x +:+ ")")) C3 C4)
      as Hm.
    cbn [Py.all_chars] in Hm. rewrite all_chars_append, Hdot in Hm.
    specialize (Hm eq_refl). rewrite Ascii.eqb_refl, Hocc in Hm.
    destruct Hm as [prev' Hm]. rewrite Hrest in Hm.
    rewrite (sub_suffix_removed (enclosed "(" ")") (t +:+ " ") _ prev');
      [done| |done|by rewrite (plain_last t)].
    eapply unmatched_silent; [by apply enclosed_starts|]. by apply silent_head.
Qed.

End Decorated.

(** *** The claim, and the titles it is stated for *)

(** The titles the model of the library calls is faithful on: the
    characters below 128, where [split], [strip], [isdigit], [len] and
    the classes [\s], [\d], [\b] and the folding of case of [re] are the
    ones defined here. *)
Definition ascii_text (s : string) : Prop :=
  Py.all_chars (λ c, (Py.code c <? 128)%N) s = true.

(** What C9 says of a marker in a title: the cleaned title does not hold
    it. *)
Definition strips (marker title : string) : Prop :=
  Py.contains marker (clean_episode_title title) = false.

Lemma plain_starts_title t b : plain_text t → starts_title (t +:+ b) = true.
Proof.
  intros [Hh _ _ He _ _]. destruct t as [|c s]; [done|]. cbn in Hh, He |- *.
  unfold is_e in He. rewrite He.
  revert Hh. clear. revert c. intros [[] [] [] [] [] [] [] []]; by vm_compute.
Qed.




End TitleFacts.


(** * More on the cache: round trips, persistence, reload, sweep *)

Module CacheMoreFacts.

Import Cache.

Lemma save_cache_data e m :
  cache (save_cache e m) = set_last_updated (now e) (cache m).
Proof. unfold save_cache. by destruct (disk_ok e). Qed.

(** X1. An iframe entry written for a pair is read back for that pair,
    with the time of the write; the entries of the other pairs, the
    episode lists and the two listings are left as they were. *)
Theorem set_then_get_episode_iframe (e : env) (m : manager) (anime_id session : string)
  (url : option string) (ok : bool) :
  let m' := set_episode_iframe e m anime_id session url ok in
  get_episode_iframe m' anime_id session = Some (IframeEntry url (TsAt (now e)) ok)
  ∧ (∀ a s, (a, s) ≠ (anime_id, session) →
       get_episode_iframe m' a s = get_episode_iframe m a s)
  ∧ anime_episodes (cache m') = anime_episodes (cache m)
  ∧ currently_airing_episodes (cache m') = currently_airing_episodes (cache m)
  ∧ popular_anime (cache m') = popular_anime (cache m).
Proof.
  cbv zeta. unfold set_episode_iframe, get_episode_iframe.
  rewrite save_cache_data. cbn [cache set_last_updated episode_iframes anime_episodes
    currently_airing_episodes popular_anime].
  split; [|split; [|done]].
  - rewrite lookup_insert_eq. cbn. by rewrite lookup_insert_eq.
  - intros a s Hne. destruct (decide (a = anime_id)) as [->|Ha].
    + rewrite lookup_insert_eq. cbn. rewrite lookup_insert_ne; [done|]. congruence.
    + by rewrite lookup_insert_ne.
Qed.

(** What a setter leaves behind: the cache in memory carries the time of
    the call and keeps its date of creation, whether or not the file
    could be written; when the write succeeds, the file holds the cache
    the manager holds and [last_mtime] is the time of the write.  Of the
    file after a failed write nothing is said: it may be as it was, or
    emptied. *)
Definition persisted (e : env) (before after : manager) : Prop :=
  last_updated (meta (cache after)) = now e
  ∧ created_at (meta (cache after)) = created_at (meta (cache before))
  ∧ (disk_ok e = true →
     cache_file after = Some (cache after, now e) ∧ last_mtime after = now e).

Lemma save_cache_persisted e before m :
  created_at (meta (cache m)) = created_at (meta (cache before)) →
  persisted e before (save_cache e m).
Proof.
  intros Hc. unfold persisted, save_cache.
  destruct (disk_ok e); cbn; by rewrite ?Hc.
Qed.

(** X2. Every setter stamps [last_updated] and keeps [created_at] in the
    cache it holds, also when the file cannot be written; when the write
    succeeds, the whole cache is in the file, with the time of the write
    as [last_mtime], before the setter returns. *)
Theorem setters_write_through (e : env) (m : manager) :
  (∀ a s url ok, persisted e m (set_episode_iframe e m a s url ok))
  ∧ (∀ a title eps total more page next,
       persisted e m (set_anime_episodes e m a title eps total more page next))
  ∧ (∀ l, persisted e m (set_currently_airing_episodes e m l))
  ∧ (∀ l, persisted e m (set_popular_anime e m l)).
Proof.
  split; [|split; [|split]]; intros; by apply save_cache_persisted.
Qed.

(** X3. [check_and_reload] follows the file: it does nothing without a
    file or when the file is not newer than the last load or save; when
    the file is newer it replaces the cache in memory by the content of
    the file, whatever the memory held, or by the default cache when the
    file cannot be read; a save of the manager itself never causes a
    reload; and a reload that succeeded is not repeated. *)
Theorem check_and_reload_follows_file (e : env) (readable : bool) (m : manager) :
  (cache_file m = None → check_and_reload e readable m = m)
  ∧ (∀ d t, cache_file m = Some (d, t) → t ≤ last_mtime m →
       check_and_reload e readable m = m)
  ∧ (∀ d t, cache_file m = Some (d, t) → last_mtime m < t →
       check_and_reload e true m = Manager d (Some (d, t)) t
       ∧ check_and_reload e false m = Manager (get_default_cache e) (Some (d, t)) 0)
  ∧ (∀ e0, disk_ok e0 = true →
       check_and_reload e readable (save_cache e0 m) = save_cache e0 m)
  ∧ (∀ e', check_and_reload e' true (check_and_reload e true m)
           = check_and_reload e true m).
Proof.
  unfold check_and_reload, load_cache. split; [|split; [|split; [|split]]].
  - by intros ->.
  - intros d t -> Ht. by rewrite (proj2 (Z.ltb_ge _ _)).
  - intros d t -> Ht. by rewrite (proj2 (Z.ltb_lt _ _)).
  - intros e0 Hok. unfold save_cache. rewrite Hok. cbn. by rewrite Z.ltb_irrefl.
  - intros e'. destruct (cache_file m) as [[d t]|] eqn:Hf; [|by rewrite Hf].
    destruct (Z.ltb_spec (last_mtime m) t).
    + cbn. by rewrite Z.ltb_irrefl.
    + rewrite Hf. by rewrite (proj2 (Z.ltb_ge _ _)).
Qed.

End CacheMoreFacts.

(** * The sweep of old cache entries *)

Module SweepFacts.

Import Cache.

Lemma guard_not {A} (P : Prop) `{!Decision P} (b : bool) (x : A) :
  (P ↔ b = true) → (guard (¬ P);; Some x) = if b then None else Some x.
Proof. intros HP. case_guard as Hg; destruct b; cbn; try done; naive_solver. Qed.

Section Filter.

Context {A : Type} (P : string * A → Prop) `{!∀ x, Decision (P x)}.

Lemma size_filter_split (m : gmap string A) :
  (size (filter P m) + size (filter (λ kv, ¬ P kv) m) = size m)%nat.
Proof.
  induction m as [|i x m Hi IH] using map_ind.
  - by rewrite !map_filter_empty, map_size_empty.
  - rewrite map_size_insert_None by done.
    destruct (decide (P (i, x))) as [HP|HP].
    + rewrite map_filter_insert_True by done.
      rewrite (map_filter_insert_not' (λ kv, ¬ P kv)).
      * rewrite map_size_insert_None; [lia|].
        rewrite map_lookup_filter, Hi. done.
      * cbn. tauto.
      * intros y Hy. congruence.
    + rewrite (map_filter_insert_True (λ kv, ¬ P kv)) by done.
      rewrite (map_filter_insert_not' P).
      * rewrite map_size_insert_None; [lia|].
        rewrite map_lookup_filter, Hi. done.
      * done.
      * intros y Hy. congruence.
Qed.

Lemma filter_twice_empty (m : gmap string A) :
  filter P (filter (λ kv, ¬ P kv) m) = ∅.
Proof.
  apply map_empty_filter_2. intros i x Hx.
  apply map_lookup_filter_Some in Hx. tauto.
Qed.

End Filter.

Definition entries (iframes : gmap string (gmap string iframe_entry)) : nat :=
  map_fold (λ _ episodes n, (size episodes + n)%nat) O iframes.

Lemma entries_insert i x iframes :
  iframes !! i = None → entries (<[i := x]> iframes) = (size x + entries iframes)%nat.
Proof.
  intros Hi. unfold entries. rewrite map_fold_insert_L; [done| |done].
  intros. lia.
Qed.

Lemma fold_insert (f : gmap string iframe_entry → nat) i x
  (iframes : gmap string (gmap string iframe_entry)) :
  iframes !! i = None →
  map_fold (λ _ episodes n, (f episodes + n)%nat) O (<[i := x]> iframes)
  = (f x + map_fold (λ _ episodes n, (f episodes + n)%nat) O iframes)%nat.
Proof.
  intros Hi. rewrite map_fold_insert_L; [done| |done].
  intros. lia.
Qed.

Definition sweep (cutoff : Z) (iframes : gmap string (gmap string iframe_entry))
  : gmap string (gmap string iframe_entry) :=
  filter has_entries (filter (λ kv, ¬ iframe_expired cutoff kv) <$> iframes).

Lemma sweep_entries cutoff iframes :
  (map_fold (λ _ episodes n, (size (filter (iframe_expired cutoff) episodes) + n)%nat)
            O iframes
   + entries (sweep cutoff iframes) = entries iframes)%nat.
Proof.
  unfold sweep.
  induction iframes as [|i x m Hi IH] using map_ind.
  - rewrite fmap_empty, map_filter_empty. unfold entries. by rewrite !map_fold_empty.
  - rewrite fold_insert, entries_insert by done.
    rewrite fmap_insert.
    pose proof (size_filter_split (iframe_expired cutoff) x) as Hx.
    destruct (decide (filter (λ kv, ¬ iframe_expired cutoff kv) x = ∅)) as [He|He].
    + rewrite map_filter_insert_not'.
      * rewrite He, map_size_empty in Hx. lia.
      * unfold has_entries. cbn. tauto.
      * intros y Hy. by rewrite lookup_fmap, Hi in Hy.
    + rewrite map_filter_insert_True by done.
      rewrite entries_insert; [lia|].
      by rewrite map_lookup_filter, lookup_fmap, Hi.
Qed.

Lemma sweep_lookup cutoff iframes a s :
  default ∅ (sweep cutoff iframes !! a) !! s
  = x ← default ∅ (iframes !! a) !! s;
    if older_than cutoff (ie_timestamp x) then None else Some x.
Proof.
  unfold sweep. rewrite map_lookup_filter, lookup_fmap.
  destruct (iframes !! a) as [eps|] eqn:Ha; cbn.
  - case_guard as Hg; cbn.
    + rewrite map_lookup_filter. destruct (eps !! s) as [x|]; [|done]. cbn.
      by apply guard_not.
    + unfold has_entries in Hg. cbn in Hg. apply dec_stable in Hg.
      rewrite lookup_empty.
      assert (filter (λ kv, ¬ iframe_expired cutoff kv) eps !! s = None) as Hs
        by (by rewrite Hg).
      rewrite map_lookup_filter in Hs. destruct (eps !! s) as [x|]; [|done].
      cbn in *. by rewrite (guard_not _ (older_than cutoff (ie_timestamp x))) in Hs.
  - by rewrite !lookup_empty.
Qed.

Lemma sweep_no_empty cutoff iframes a : sweep cutoff iframes !! a ≠ Some ∅.
Proof.
  unfold sweep. intros H. apply map_lookup_filter_Some in H as [_ H]. by apply H.
Qed.

Lemma sweep_again cutoff iframes :
  map_fold (λ _ episodes n, (size (filter (iframe_expired cutoff) episodes) + n)%nat)
           O (sweep cutoff iframes) = O.
Proof.
  unfold sweep.
  induction iframes as [|i x m Hi IH] using map_ind.
  - by rewrite fmap_empty, map_filter_empty, map_fold_empty.
  - rewrite fmap_insert.
    destruct (decide (filter (λ kv, ¬ iframe_expired cutoff kv) x = ∅)) as [He|He].
    + rewrite map_filter_insert_not'; [done| |].
      * unfold has_entries. cbn. tauto.
      * intros y Hy. by rewrite lookup_fmap, Hi in Hy.
    + rewrite map_filter_insert_True by done.
      rewrite fold_insert by (by rewrite map_lookup_filter, lookup_fmap, Hi).
      by rewrite IH, filter_twice_empty, map_size_empty.
Qed.

Definition swept (e : env) (cutoff : Z) (m : manager) : manager :=
  (clear_before e cutoff m).2.

Definition cleared (e : env) (cutoff : Z) (m : manager) : nat :=
  (clear_before e cutoff m).1.

Lemma swept_cache e cutoff m :
  let d := cache m in
  anime_episodes (cache (swept e cutoff m))
  = filter (λ kv, ¬ episodes_expired cutoff kv) (anime_episodes d)
  ∧ episode_iframes (cache (swept e cutoff m)) = sweep cutoff (episode_iframes d)
  ∧ currently_airing_episodes (cache (swept e cutoff m)) = currently_airing_episodes d
  ∧ popular_anime (cache (swept e cutoff m)) = popular_anime d.
Proof.
  cbv zeta. unfold swept, clear_before. cbn [snd].
  case_match; [rewrite CacheMoreFacts.save_cache_data|]; done.
Qed.

(** The calls [clear_old_cache] answers: [timedelta] takes the number of
    days, and the cutoff is a date [datetime] can hold. *)
Definition in_range (e : env) (days : Z) : Prop :=
  Z.abs days ≤ timedelta_max_days ∧ 0 ≤ now e - days * hours_24 < datetime_span.

Lemma cutoff_of_spec e days :
  match cutoff_of e days with
  | Py.Raise err => err = Py.OverflowError ∧ ¬ in_range e days
  | Py.Ok cutoff => cutoff = now e - days * hours_24 ∧ in_range e days
  end.
Proof.
  unfold cutoff_of, in_range.
  destruct (Z.ltb_spec timedelta_max_days (Z.abs days)); [split; [done|lia]|].
  destruct (Z.ltb_spec (now e - days * hours_24) 0); [split; [done|lia]|].
  destruct (Z.leb_spec datetime_span (now e - days * hours_24)); cbn; [split; [done|lia]|].
  split; [done|lia].
Qed.

Lemma clear_old_cache_spec e days m :
  match clear_old_cache e days m with
  | Py.Raise err => err = Py.OverflowError ∧ ¬ in_range e days
  | Py.Ok r => r = clear_before e (now e - days * hours_24) m ∧ in_range e days
  end.
Proof.
  unfold clear_old_cache. pose proof (cutoff_of_spec e days) as H.
  destruct (cutoff_of e days) as [cutoff|err]; [|done].
  destruct H as [-> ?]. done.
Qed.

(** X4. [clear_old_cache] raises [OverflowError], before it touches the
    cache, when [timedelta] refuses the number of days or the cutoff is
    not a date [datetime] can hold.  Otherwise, after it, an entry is in
    the cache exactly when it was there and its timestamp is not older
    than [days] days (an entry whose timestamp does not parse is kept);
    no anime is left with an empty map of iframe entries; the two
    listings are not touched. *)
Theorem clear_old_cache_keeps_recent (e : env) (days : Z) (m : manager) :
  let cutoff := now e - days * hours_24 in
  match clear_old_cache e days m with
  | Py.Raise err => err = Py.OverflowError ∧ ¬ in_range e days
  | Py.Ok (_, m') =>
      in_range e days
      ∧ (∀ a, get_anime_episodes m' a
              = x ← get_anime_episodes m a;
                if older_than cutoff (ee_timestamp x) then None else Some x)
      ∧ (∀ a s, get_episode_iframe m' a s
                = x ← get_episode_iframe m a s;
                  if older_than cutoff (ie_timestamp x) then None else Some x)
      ∧ (∀ a, episode_iframes (cache m') !! a ≠ Some ∅)
      ∧ currently_airing_episodes (cache m') = currently_airing_episodes (cache m)
      ∧ popular_anime (cache m') = popular_anime (cache m)
  end.
Proof.
  cbv zeta. pose proof (clear_old_cache_spec e days m) as H.
  destruct (clear_old_cache e days m) as [[n m']|err]; [|done].
  destruct H as [Hr Hin]. split; [done|].
  set (cutoff := now e - days * hours_24) in *.
  assert (m' = swept e cutoff m) as -> by (unfold swept; by rewrite <- Hr).
  destruct (swept_cache e cutoff m) as (He & Hi & Hc & Hp).
  unfold get_anime_episodes, get_episode_iframe.
  rewrite He, Hi. split; [|split; [|split; [|done]]].
  - intros a. rewrite map_lookup_filter.
    destruct (anime_episodes (cache m) !! a) as [x|]; [|done]. cbn.
    by apply guard_not.
  - intros a s. apply sweep_lookup.
  - intros a. apply sweep_no_empty.
Qed.

Lemma cleared_eq e cutoff m :
  cleared e cutoff m
  = (size (filter (episodes_expired cutoff) (anime_episodes (cache m)))
     + map_fold (λ _ episodes n,
          (size (filter (iframe_expired cutoff) episodes) + n)%nat)
         O (episode_iframes (cache m)))%nat.
Proof. done. Qed.

Lemma swept_eq e cutoff m :
  swept e cutoff m
  = let d := cache m in
    let kept :=
      Manager (Data (filter (λ kv, ¬ episodes_expired cutoff kv) (anime_episodes d))
                    (sweep cutoff (episode_iframes d))
                    (currently_airing_episodes d) (popular_anime d) (meta d))
              (cache_file m) (last_mtime m) in
    if (0 <? cleared e cutoff m)%nat then save_cache e kept else kept.
Proof. done. Qed.

(** X5. When [clear_old_cache] returns (it raises [OverflowError] when
    the cutoff cannot be computed), the number it returns is the number
    of entries that left the cache, as [get_cache_stats] counts them
    (episode lists plus iframe entries).  When it is 0 nothing is written:
    the file, [last_mtime] and the metadata are the ones of before.  When
    it is not 0 the swept cache is saved as by a setter.  A second sweep
    at the same time finds nothing to remove. *)
Theorem clear_old_cache_counts_removed (e : env) (days : Z) (m : manager) :
  let cached m :=
    (anime_cached (get_cache_stats m) + iframes_cached (get_cache_stats m))%nat in
  match clear_old_cache e days m with
  | Py.Raise err => err = Py.OverflowError ∧ ¬ in_range e days
  | Py.Ok (n, m') =>
      in_range e days
      ∧ (n + cached m' = cached m)%nat
      ∧ (n = O → cache_file m' = cache_file m ∧ last_mtime m' = last_mtime m
                 ∧ meta (cache m') = meta (cache m))
      ∧ (n ≠ O → CacheMoreFacts.persisted e m m')
      ∧ ∃ m'', clear_old_cache e days m' = Py.Ok (O, m'')
  end.
Proof.
  cbv zeta. pose proof (clear_old_cache_spec e days m) as H.
  destruct (clear_old_cache e days m) as [[n m']|err]; [|done].
  destruct H as [Hr Hin]. split; [done|].
  set (cutoff := now e - days * hours_24) in *.
  assert (m' = swept e cutoff m) as -> by (unfold swept; by rewrite <- Hr).
  assert (n = cleared e cutoff m) as -> by (unfold cleared; by rewrite <- Hr).
  destruct (swept_cache e cutoff m) as (He & Hi & Hc & Hp).
  split; [|split; [|split]].
  - unfold get_cache_stats. cbn [anime_cached iframes_cached].
    rewrite He, Hi, cleared_eq.
    pose proof (size_filter_split (episodes_expired cutoff) (anime_episodes (cache m))).
    pose proof (sweep_entries cutoff (episode_iframes (cache m))).
    unfold entries in *. lia.
  - intros H0. rewrite swept_eq. cbv zeta. by rewrite H0.
  - intros H0. rewrite swept_eq. cbv zeta.
    destruct (cleared e cutoff m); [done|]. cbn [Nat.ltb Nat.leb].
    by apply CacheMoreFacts.save_cache_persisted.
  - pose proof (clear_old_cache_spec e days (swept e cutoff m)) as H2.
    destruct (clear_old_cache e days (swept e cutoff m)) as [[n2 m2]|err]; [|tauto].
    destruct H2 as [H2 _]. exists m2. do 2 f_equal.
    change n2 with ((n2, m2).1). rewrite H2. fold cutoff.
    change (cleared e cutoff (swept e cutoff m) = O).
    rewrite cleared_eq, He, Hi, filter_twice_empty, sweep_again. done.
Qed.

End SweepFacts.

(** * The home-page listings at the level of the backend *)

Module ListingFacts.

Import Cache Backend.

Ltac run_M :=
  cbv [mbind M_bind mret M_ret emit read_manager write_manager];
  cbn [fst snd log manager_of].

(** The loop over the listing pages visits the first pages of its range,
    one after the other, touches nothing but the log, and gathers rows of
    the pages it loaded. *)
Lemma airing_pages_spec load page_nums all_episodes w :
  let r := airing_pages load page_nums all_episodes w in
  manager_of r.2 = manager_of w
  ∧ (∃ visited, visited `prefix_of` page_nums
                ∧ (page_nums ≠ [] → visited ≠ [])
                ∧ log r.2 = log w ++ (PageVisit ∘ airing_url <$> visited))
  ∧ (∀ x, x ∈ r.1 →
       x ∈ all_episodes
       ∨ ∃ n found, n ∈ page_nums ∧ load (airing_url n) = Some found ∧ x ∈ found).
Proof.
  cbv zeta. revert all_episodes w.
  induction page_nums as [|n rest IH]; intros all_episodes w; cbn [airing_pages].
  - run_M. split; [done|]. split; [|by left].
    exists []. split; [done|]. split; [done|]. cbn. by rewrite app_nil_r.
  - run_M. destruct (load (airing_url n)) as [found|] eqn:Hload.
    2:{ cbn. split; [done|]. split; [|by left].
        exists [n]. split; [by apply prefix_cons, prefix_nil|]. done. }
    destruct (30 <=? length (all_episodes ++ found))%nat.
    { cbn. split; [done|]. split.
      - exists [n]. split; [by apply prefix_cons, prefix_nil|]. done.
      - intros x [?|?]%elem_of_app; [by left|right].
        exists n, found. split; [left|done]. }
    specialize (IH (all_episodes ++ found)
                  (World (manager_of w) (log w ++ [PageVisit (airing_url n)]))).
    destruct IH as (Hm & (visited & Hpre & _ & Hlog) & Hin).
    split; [done|]. split.
    + exists (n :: visited). split; [by apply prefix_cons|]. split; [done|].
      rewrite Hlog. cbn. by rewrite <- app_assoc.
    + intros x [[?|?]%elem_of_app|(k & f & Hk & Hf & Hx)]%Hin.
      * by left.
      * right. exists n, found. split; [left|done].
      * right. exists k, f. split; [by right|done].
Qed.

Lemma airing_miss e load pages fallback w :
  Cache.get_currently_airing_episodes e (manager_of w) = None →
  Backend.get_currently_airing_episodes e load pages fallback w
  = let out := airing_pages load (seqZ 1 pages) [] w in
    let rows := match out.1 with [] => fallback | _ => out.1 end in
    (rows, World (set_currently_airing_episodes e (manager_of out.2) rows) (log out.2)).
Proof.
  intros Hmiss. unfold Backend.get_currently_airing_episodes. run_M. rewrite Hmiss.
  by destruct (airing_pages load (seqZ 1 pages) [] w) as [all w1].
Qed.

Lemma popular_miss e scraped fallback w :
  Cache.get_popular_anime e (manager_of w) = None →
  Backend.get_popular_anime e scraped fallback w
  = let rows := match scraped with [] => fallback | _ => scraped end in
    (rows, World (set_popular_anime e (manager_of w) rows)
                 (log w ++ [PageVisit base_url])).
Proof.
  intros Hmiss. unfold Backend.get_popular_anime. run_M. by rewrite Hmiss.
Qed.

(** X6. When the cache has no fresh listing, the listing functions go to
    the site and store what they return, so that every call of the 24
    hours that follow returns the same list and visits nothing, whatever
    the site would serve by then.  [get_currently_airing_episodes] visits
    the listing pages in order, from the first, and at least one when
    [pages] is positive; it returns rows read from pages it loaded, or
    the fallback list when it read none.  [get_popular_anime] visits the
    home page once and returns the scraped list, or the fallback list
    when nothing was scraped. *)
Theorem listings_scraped_once_a_day (e : env) (fallback : list listing_item) (w : world) :
  (∀ load pages,
     Cache.get_currently_airing_episodes e (manager_of w) = None →
     let r := Backend.get_currently_airing_episodes e load pages fallback w in
     (∃ visited,
        visited `prefix_of` seqZ 1 pages ∧ (0 < pages → visited ≠ [])
        ∧ log r.2 = log w ++ (PageVisit ∘ airing_url <$> visited))
     ∧ (r.1 = fallback
        ∨ r.1 ≠ [] ∧ ∀ x, x ∈ r.1 →
            ∃ n found, 1 ≤ n ≤ pages ∧ load (airing_url n) = Some found ∧ x ∈ found)
     ∧ (∀ later load' pages' fallback',
          now later - now e < hours_24 →
          Backend.get_currently_airing_episodes later load' pages' fallback' r.2 = r))
  ∧ (∀ scraped,
       Cache.get_popular_anime e (manager_of w) = None →
       let r := Backend.get_popular_anime e scraped fallback w in
       log r.2 = log w ++ [PageVisit base_url]
       ∧ r.1 = match scraped with [] => fallback | _ => scraped end
       ∧ (∀ later scraped' fallback',
            now later - now e < hours_24 →
            Backend.get_popular_anime later scraped' fallback' r.2 = r)).
Proof.
  split.
  - intros load pages Hmiss. rewrite airing_miss by done. cbv zeta.
    pose proof (airing_pages_spec load (seqZ 1 pages) [] w) as Hspec. cbv zeta in Hspec.
    destruct (airing_pages load (seqZ 1 pages) [] w) as [all w1].
    cbn [fst snd log manager_of] in *.
    destruct Hspec as (Hm & (visited & Hpre & Hne & Hlog) & Hin).
    split; [|split].
    + exists visited. split; [done|]. split; [|done].
      intros Hpages. apply Hne. rewrite seqZ_cons by done. done.
    + destruct all as [|x all]; [by left|]. right. split; [done|].
      intros y [[]%elem_of_nil|(n & found & Hn & Hf & Hy)]%Hin.
      exists n, found. split; [|done]. apply elem_of_seqZ in Hn. lia.
    + intros later load' pages' fallback' Hlt.
      unfold Backend.get_currently_airing_episodes. run_M.
      unfold Cache.get_currently_airing_episodes.
      rewrite CacheFacts.set_airing_cache. cbn.
      by rewrite (proj2 (Z.ltb_lt _ _) Hlt).
  - intros scraped Hmiss. rewrite popular_miss by done. cbv zeta.
    cbn [fst snd log manager_of].
    split; [done|]. split; [done|]. intros later scraped' fallback' Hlt.
    unfold Backend.get_popular_anime. run_M.
    unfold Cache.get_popular_anime. rewrite CacheFacts.set_popular_cache. cbn.
    by rewrite (proj2 (Z.ltb_lt _ _) Hlt).
Qed.

Lemma listings_scraped_once_a_day_witness :
  (Backend.get_popular_anime (Env (2 * hours_24) true)
     [] [ListingItem "One Piece" "op" "/anime/op"] (World Samples.empty_manager [])).1
  = [ListingItem "One Piece" "op" "/anime/op"].
Proof.
  destruct (listings_scraped_once_a_day (Env (2 * hours_24) true)
              [ListingItem "One Piece" "op" "/anime/op"]
              (World Samples.empty_manager [])) as [_ Hpopular].
  apply (Hpopular []). reflexivity.
Defined.

(** X7. A manager created without a cache file, or with one that cannot
    be read, starts from the default cache, whose two listings are empty
    and stamped with the time of creation: for the 24 hours that follow,
    both listing functions return the empty list and visit nothing. *)
Theorem fresh_manager_serves_empty_listings (e0 later : env) (readable : bool)
  (file : option (data * Z)) (events : list event)
  (load : string → option (list listing_item)) (pages : Z)
  (scraped fallback : list listing_item) :
  file = None ∨ readable = false →
  now later - now e0 < hours_24 →
  let w := World (Cache.init e0 readable file) events in
  Backend.get_currently_airing_episodes later load pages fallback w = ([], w)
  ∧ Backend.get_popular_anime later scraped fallback w = ([], w)
  ∧ get_cache_stats (manager_of w)
    = Stats 0 0 0 0 (now e0) (now e0).
Proof.
  intros Hfile Hlt. cbv zeta.
  assert (cache (init e0 readable file) = get_default_cache e0) as Hd.
  { unfold init, load_cache. cbn. destruct Hfile as [-> | ->]; [done|].
    by destruct file as [[? ?]|]. }
  unfold Backend.get_currently_airing_episodes, Backend.get_popular_anime. run_M.
  unfold Cache.get_currently_airing_episodes, Cache.get_popular_anime, get_cache_stats.
  rewrite Hd. cbn. rewrite (proj2 (Z.ltb_lt _ _) Hlt). done.
Qed.

Lemma fresh_manager_serves_empty_listings_witness :
  Backend.get_currently_airing_episodes (Env (now Samples.noon + hours_24 - 1) true)
    (λ _, Some [ListingItem "One Piece" "op" "/anime/op"]) 3 []
    (World (Cache.init Samples.noon true None) [])
  = ([], World (Cache.init Samples.noon true None) []).
Proof.
  apply (fresh_manager_serves_empty_listings Samples.noon
           (Env (now Samples.noon + hours_24 - 1) true) true None []
           (λ _, Some [ListingItem "One Piece" "op" "/anime/op"]) 3 [] []).
  - by left.
  - cbn. unfold hours_24. lia.
Defined.

End ListingFacts.

(** * The live episode list *)

Module ScrapeFacts.

Import Index Cache Backend.

Ltac run_M :=
  cbv [mbind M_bind mret M_ret emit read_manager write_manager finish_page];
  cbn [fst snd log manager_of].

(** ** [remove_duplicate_episodes] once more *)

Definition carries_session (ep : listed_episode) : Prop :=
  ∃ s, le_session ep = Some s ∧ s ≠ "".

Lemma unique_from_fresh seen l x :
  x ∈ unique_from seen l → ∃ s, le_session x = Some s ∧ s ≠ "" ∧ s ∉ seen.
Proof.
  revert seen. induction l as [|y l IH]; intros seen; cbn [unique_from].
  - by intros ?%elem_of_nil.
  - destruct (le_session y) as [sy|] eqn:Hy; [|by apply IH].
    destruct (bool_decide (sy ≠ "") && bool_decide (sy ∉ seen)) eqn:Hkeep; [|by apply IH].
    apply andb_prop in Hkeep as [H1%bool_decide_eq_true H2%bool_decide_eq_true].
    intros [-> | Hin]%elem_of_cons.
    + by exists sy.
    + destruct (IH _ Hin) as (s & Hs & Hne & Hfresh). exists s. set_solver.
Qed.

Lemma unique_from_NoDup seen l : NoDup (le_session <$> unique_from seen l).
Proof.
  revert seen. induction l as [|y l IH]; intros seen; cbn [unique_from].
  - constructor.
  - destruct (le_session y) as [sy|] eqn:Hy; [|by apply IH].
    destruct (bool_decide (sy ≠ "") && bool_decide (sy ∉ seen)) eqn:Hkeep; [|by apply IH].
    cbn. constructor; [|by apply IH].
    intros (x & Hx & Hin)%list_elem_of_fmap.
    destruct (unique_from_fresh _ _ _ Hin) as (s & Hs & _ & Hfresh).
    rewrite Hy in Hx. rewrite Hs in Hx. set_solver.
Qed.

Lemma unique_from_id seen l :
  Forall (λ ep, ∃ s, le_session ep = Some s ∧ s ≠ "" ∧ s ∉ seen) l →
  NoDup (le_session <$> l) →
  unique_from seen l = l.
Proof.
  revert seen. induction l as [|y l IH]; intros seen Hl Hnd; cbn [unique_from]; [done|].
  apply Forall_cons in Hl as [(s & Hs & Hne & Hfresh) Hl].
  cbn in Hnd. apply NoDup_cons in Hnd as [Hy Hnd].
  rewrite Hs, !bool_decide_true by done. cbn. f_equal.
  apply IH; [|done].
  apply Forall_forall. intros x Hx.
  destruct (proj1 (Forall_forall _ _) Hl x Hx) as (sx & Hsx & Hnx & Hfx).
  exists sx. split; [done|]. split; [done|].
  assert (sx ≠ s); [|set_solver].
  intros ->. apply Hy. rewrite Hs, <- Hsx. by apply list_elem_of_fmap_2.
Qed.

(** X8. The list [remove_duplicate_episodes] returns holds no session id
    twice and is never longer than its input; a list whose records all
    carry a non-empty session id, no two the same, is returned as it is;
    so the function applied twice gives what it gives applied once. *)
Theorem remove_duplicate_episodes_idempotent (episodes : list listed_episode) :
  NoDup (le_session <$> remove_duplicate_episodes episodes)
  ∧ (length (remove_duplicate_episodes episodes) ≤ length episodes)%nat
  ∧ (Forall carries_session episodes → NoDup (le_session <$> episodes) →
       remove_duplicate_episodes episodes = episodes)
  ∧ remove_duplicate_episodes (remove_duplicate_episodes episodes)
    = remove_duplicate_episodes episodes.
Proof.
  unfold remove_duplicate_episodes.
  assert (∀ l, Forall carries_session l → NoDup (le_session <$> l) → unique_from ∅ l = l) as Hid.
  { intros l Hl Hnd. apply unique_from_id; [|done].
    eapply Forall_impl; [exact Hl|]. intros x (s & ? & ?). exists s. set_solver. }
  split; [apply unique_from_NoDup|]. split; [|split; [apply Hid|]].
  - apply sublist_length, DedupFacts.unique_from_sublist.
  - apply Hid; [apply DedupFacts.unique_from_sessions | apply unique_from_NoDup].
Qed.

(** ** [check_pagination] *)

(** A link at which the loop over the links ends: one whose reading
    raises, or one that carries a number above the current page. *)
Definition decisive (current_page : Z) (text : link_text) : bool :=
  match text with
  | PageNumber page_num => current_page <? page_num
  | LinkRaises => true
  | NoText | NotDigits => false
  end.

(** [text] is the first decisive link of [texts]. *)
Definition first_decisive (current_page : Z) (texts : list link_text) (text : link_text)
  : Prop :=
  ∃ before after, texts = before ++ text :: after
                  ∧ Forall (λ t, decisive current_page t = false) before
                  ∧ decisive current_page text = true.

Lemma first_later_page_Some current_page texts n :
  first_later_page current_page texts = Some n
  ↔ first_decisive current_page texts (PageNumber n).
Proof.
  unfold first_decisive. induction texts as [|text texts IH]; cbn [first_later_page].
  - split; [done|]. intros (before & after & H & _). by destruct before.
  - assert ((∃ before after, texts = before ++ PageNumber n :: after
               ∧ Forall (λ t, decisive current_page t = false) before
               ∧ decisive current_page (PageNumber n) = true)
            → decisive current_page text = false
            → ∃ before after, text :: texts = before ++ PageNumber n :: after
               ∧ Forall (λ t, decisive current_page t = false) before
               ∧ decisive current_page (PageNumber n) = true) as Hstep.
    { intros (before & after & -> & Hb & Hn) Ht.
      exists (text :: before), after. split; [done|]. split; [by constructor|done]. }
    assert ((∃ before after, text :: texts = before ++ PageNumber n :: after
               ∧ Forall (λ t, decisive current_page t = false) before
               ∧ decisive current_page (PageNumber n) = true)
            → decisive current_page text = false
            → ∃ before after, texts = before ++ PageNumber n :: after
               ∧ Forall (λ t, decisive current_page t = false) before
               ∧ decisive current_page (PageNumber n) = true) as Hback.
    { intros (before & after & Heq & Hb & Hn) Ht.
      destruct before as [|b before]; cbn in Heq.
      - injection Heq as Heq _. subst text. congruence.
      - injection Heq as _ Heq. subst texts. apply Forall_cons in Hb as [_ Hb].
        by exists before, after. }
    destruct text as [| |page_num|].
    + rewrite IH. split; [by intros ?%Hstep|by intros ?%Hback].
    + rewrite IH. split; [by intros ?%Hstep|by intros ?%Hback].
    + destruct (current_page <? page_num) eqn:Hlt.
      * split.
        -- intros [= <-]. by exists [], texts.
        -- intros (before & after & Heq & Hb & Hn).
           destruct before as [|b before]; cbn in Heq.
           ++ congruence.
           ++ injection Heq as <- _. apply Forall_cons in Hb as [Hb _].
              cbn in Hb. congruence.
      * rewrite IH. split; [by intros ?%Hstep|by intros ?%Hback].
    + split; [done|]. intros (before & after & Heq & Hb & Hn).
      destruct before as [|b before]; cbn in Heq; [done|].
      injection Heq as <- _. by apply Forall_cons in Hb as [Hb _].
Qed.

Lemma first_later_page_later current_page texts n :
  first_later_page current_page texts = Some n → current_page < n.
Proof.
  intros (_ & _ & _ & _ & Hn)%first_later_page_Some. by apply Z.ltb_lt.
Qed.

Lemma pagination_answer controls current_page :
  ((check_pagination controls current_page).1 = true
   ↔ ∃ n, (check_pagination controls current_page).2 = Some n)
  ∧ (∀ n, (check_pagination controls current_page).2 = Some n → current_page < n).
Proof.
  unfold check_pagination. destruct controls as [c|]; cbn [fst snd].
  2:{ split; [split; [done|(by intros [? ?])]|done]. }
  destruct (existsb id (next_visible c)); cbn [fst snd].
  { split; [split; [by eexists|done]|]. intros n [= <-]. lia. }
  destruct (first_later_page current_page (link_texts c)) as [n|] eqn:Hf; cbn [fst snd].
  - apply first_later_page_later in Hf.
    split; [split; [by eexists|done]|]. by intros ? [= <-].
  - split; [split; [done|(by intros [? ?])]|done].
Qed.

(** X9. [check_pagination] answers either [(True, n)] with [n] a page
    after the current one, or [(False, None)].  A visible "next" control
    gives the page that follows the current one, whatever the numbered
    links say.  Without one, the links are read in order up to the first
    that carries a number above the current page or whose reading raises
    (its text cannot be read, or passes [isdigit] and is refused by
    [int]): the answer is that number in the first case and
    [(False, None)] in the second, although a later link may carry a
    later page; it is [(False, None)] too when no link is such, and when
    the queries raise. *)
Theorem check_pagination_next_is_later (controls : option pagination_controls)
  (current_page : Z) :
  let has_next_page := (check_pagination controls current_page).1 in
  let next_page := (check_pagination controls current_page).2 in
  (has_next_page = true ↔ ∃ n, next_page = Some n)
  ∧ (has_next_page = false ↔ next_page = None)
  ∧ (∀ n, next_page = Some n → current_page < n)
  ∧ (controls = None → next_page = None)
  ∧ (∀ c, controls = Some c → true ∈ next_visible c →
       next_page = Some (current_page + 1))
  ∧ (∀ c, controls = Some c → true ∉ next_visible c →
       (∀ n, next_page = Some n
             ↔ first_decisive current_page (link_texts c) (PageNumber n))
       ∧ (first_decisive current_page (link_texts c) LinkRaises → next_page = None)
       ∧ (Forall (λ t, decisive current_page t = false) (link_texts c) →
          next_page = None)).
Proof.
  cbv zeta. destruct (pagination_answer controls current_page) as [Hiff Hlater].
  split; [done|]. split; [|split; [done|]].
  { destruct (check_pagination controls current_page) as [[] [n|]]; cbn [fst snd] in *;
      split; try done.
    - intros _. by destruct (proj1 Hiff eq_refl).
    - intros _. assert (false = true); [|done]. apply Hiff. by eexists. }
  unfold check_pagination. split; [by intros ->|]. split.
  - intros c -> Hv.
    assert (existsb id (next_visible c) = true) as ->; [|done].
    apply existsb_exists. exists true. split; [by apply list_elem_of_In|done].
  - intros c -> Hv.
    assert (existsb id (next_visible c) = false) as ->.
    { apply not_true_iff_false. intros (b & Hb%list_elem_of_In & Hid)%existsb_exists.
      unfold id in Hid. by subst b. }
    split; [|split].
    + intros n. rewrite <- first_later_page_Some.
      destruct (first_later_page current_page (link_texts c)); cbn [snd]; done.
    + intros (before & after & Heq & Hb & _).
      destruct (first_later_page current_page (link_texts c)) as [n|] eqn:Hf; [|done].
      apply first_later_page_Some in Hf as (before' & after' & Heq' & Hb' & Hn).
      exfalso. rewrite Heq in Heq'. clear Heq.
      revert before' Heq' Hb'. induction Hb as [|b before Hb _ IH]; intros before' Heq' Hb'.
      * destruct before' as [|b' before']; cbn in Heq'; [done|].
        injection Heq' as Heq' _. subst b'. by apply Forall_cons in Hb' as [? _].
      * destruct before' as [|b' before']; cbn in Heq'.
        -- injection Heq' as Heq' _. subst b. congruence.
        -- injection Heq' as _ Heq'. apply Forall_cons in Hb' as [_ Hb'].
           by apply (IH before').
    + intros Hall.
      destruct (first_later_page current_page (link_texts c)) as [n|] eqn:Hf; [|done].
      apply first_later_page_Some in Hf as (before' & after' & Heq' & Hb' & Hn).
      rewrite Heq' in Hall. apply Forall_app in Hall as [_ Hall].
      apply Forall_cons in Hall as [Hall _]. congruence.
Qed.

(** ** [scrape_episodes_page] *)

Definition numbered (x : listed_episode) : Prop := ∃ z, le_number x = NumInt z.

Definition not_null (x : listed_episode) : Prop := le_number x ≠ NumNull.

Lemma keys_of_int_key l :
  match Py.keys_of int_key l with
  | Py.Ok _ => Forall numbered l
  | Py.Raise Py.ValueError => True
  | Py.Raise Py.TypeError => Exists (λ x, le_number x = NumNull) l
  | Py.Raise (Py.KeyError _) | Py.Raise Py.OverflowError => False
  end.
Proof.
  induction l as [|x l IH]; cbn [Py.keys_of]; [constructor|].
  unfold int_key at 1. destruct (le_number x) as [z| |] eqn:Hx; [| done |by left].
  destruct (Py.keys_of int_key l) as [ks|[]]; try done.
  - constructor; [by exists z|done].
  - by right.
Qed.

(** The list of episodes a page load ends with: the extracted records
    without their duplicates, in number order when the sort goes
    through. *)
Definition listed (found : option episode_elements) : list listed_episode :=
  let episodes := remove_duplicate_episodes (extract_episodes_clean found) in
  match Py.sort_key Z.ltb int_key episodes with
  | Py.Ok sorted => sorted
  | Py.Raise _ => episodes
  end.

Lemma sort_key_numbered l :
  Forall numbered l →
  Py.sort_key Z.ltb int_key l = Py.Ok (Py.sort_by Z.ltb EpisodesFacts.listed_number l).
Proof.
  intros Hl. apply PyFacts.sort_key_ok.
  eapply Forall_impl; [exact Hl|]. intros x [z Hz].
  unfold int_key, EpisodesFacts.listed_number. by rewrite Hz.
Qed.

Lemma sort_key_Ok l s :
  Py.sort_key Z.ltb int_key l = Py.Ok s →
  Forall numbered l ∧ s = Py.sort_by Z.ltb EpisodesFacts.listed_number l.
Proof.
  intros Hs. assert (Forall numbered l) as Hl.
  { pose proof (keys_of_int_key l) as Hk. unfold Py.sort_key in Hs.
    by destruct (Py.keys_of int_key l). }
  split; [done|]. rewrite sort_key_numbered in Hs by done. congruence.
Qed.

Lemma listed_Permutation found :
  listed found ≡ₚ remove_duplicate_episodes (extract_episodes_clean found).
Proof.
  unfold listed. destruct (Py.sort_key _ _ _) as [s|err] eqn:Hs; [|done].
  apply sort_key_Ok in Hs as [_ ->]. apply PyFacts.sort_by_Permutation.
Qed.

Lemma listed_sorted found :
  Forall numbered (listed found) →
  Sorted (λ x y, EpisodesFacts.listed_number x ≤ EpisodesFacts.listed_number y)
         (listed found).
Proof.
  intros Hn. rewrite listed_Permutation in Hn. unfold listed.
  rewrite sort_key_numbered by done.
  eapply PyFacts.Sorted_weaken; [|apply PyFacts.sort_by_Sorted].
  - unfold PyFacts.in_order. intros x y H%Z.ltb_ge. lia.
  - intros a b H%Z.ltb_lt. apply Z.ltb_ge. lia.
Qed.

Definition page_title (title : string) : string :=
  Py.strip (Py.replace ":: animepahe" "" title).

(** The record a page load ends with. *)
Definition loaded_page (title : string) (found : option episode_elements)
  (controls : option pagination_controls) (page : Z) : episode_page :=
  EpisodePage (page_title title) (listed found) (Z.of_nat (length (listed found)))
              (check_pagination controls page).1 page (check_pagination controls page).2.

Section Scrape.
Variable e : env.
Variable visit : episodes_browser.
Variable anime_id : string.

Definition visited (page : Z) (w : world) : world :=
  World (manager_of w) (log w ++ [PageVisit (anime_url anime_id page)]).

Definition served_from_cache (page : Z) (w : world) : Prop :=
  page = 1 ∧ ∃ c, get_anime_episodes (manager_of w) anime_id = Some c.

Lemma scrape_hit w c :
  get_anime_episodes (manager_of w) anime_id = Some c →
  scrape_episodes_page e visit anime_id 1 w = (cached_page c, w).
Proof.
  intros Hc. unfold scrape_episodes_page. change (1 =? 1) with true. run_M.
  by rewrite Hc.
Qed.

Lemma scrape_failed page w :
  ¬ served_from_cache page w →
  visit (anime_url anime_id page) = EpisodesLoadFailed →
  scrape_episodes_page e visit anime_id page w = (unknown_page page, visited page w).
Proof.
  intros Hmiss Hv. unfold scrape_episodes_page, visited.
  destruct (Z.eqb_spec page 1) as [->|Hp]; run_M.
  - destruct (get_anime_episodes (manager_of w) anime_id) as [c|] eqn:Hc.
    + destruct Hmiss. split; [done|by exists c].
    + by rewrite Hv.
  - by rewrite Hv.
Qed.

Lemma scrape_loaded page w title found controls :
  ¬ served_from_cache page w →
  visit (anime_url anime_id page) = EpisodesLoaded title found controls →
  Forall not_null (remove_duplicate_episodes (extract_episodes_clean found)) →
  scrape_episodes_page e visit anime_id page w
  = (loaded_page title found controls page,
     if page =? 1
     then World (set_anime_episodes e (manager_of w) anime_id (page_title title)
                   (listed found) (Z.of_nat (length (listed found)))
                   (check_pagination controls 1).1 1 (check_pagination controls 1).2)
                (log (visited 1 w))
     else visited page w).
Proof.
  intros Hmiss Hv Hnn. unfold scrape_episodes_page, visited, loaded_page, listed.
  pose proof (keys_of_int_key
    (remove_duplicate_episodes (extract_episodes_clean found))) as Hk.
  assert (∀ r : M episode_page,
    (cached_episodes ← (if page =? 1
                        then m ← read_manager; mret (get_anime_episodes m anime_id)
                        else mret None);
     match cached_episodes with Some c => mret (cached_page c) | None => r end) w = r w)
    as Hskip.
  { intros r. destruct (Z.eqb_spec page 1) as [->|Hp]; run_M; [|done].
    destruct (get_anime_episodes (manager_of w) anime_id) as [c|] eqn:Hc; [|done].
    destruct Hmiss. split; [done|by exists c]. }
  rewrite Hskip. clear Hskip. run_M. rewrite Hv.
  destruct (check_pagination controls page) as [has_next next] eqn:Hcp.
  unfold Py.sort_key.
  destruct (Py.keys_of _ _) as [ks|[]] eqn:Hks; cbn [fst snd].
  - destruct (Z.eqb_spec page 1) as [->|Hp]; [|done]. run_M. by rewrite Hcp.
  - done.
  - destruct (Z.eqb_spec page 1) as [->|Hp]; [|done]. run_M. by rewrite Hcp.
  - exfalso. apply Exists_exists in Hk as (x & Hx & Hnull).
    by apply (proj1 (Forall_forall _ _) Hnn x Hx).
  - done.
Qed.

Lemma scrape_other_page page w :
  page ≠ 1 →
  (scrape_episodes_page e visit anime_id page w).2 = visited page w.
Proof.
  intros Hp. unfold scrape_episodes_page, visited, finish_page.
  destruct (Z.eqb_spec page 1) as [?|_]; [done|]. run_M.
  destruct (visit _) as [|title found controls]; [done|].
  destruct (check_pagination controls page) as [has_next next].
  destruct (Py.sort_key _ _ _) as [sorted|[]]; by run_M.
Qed.

Lemma scrape_cases page w :
  ¬ served_from_cache page w →
  (scrape_episodes_page e visit anime_id page w).1 = unknown_page page
  ∨ ∃ title found controls,
      (scrape_episodes_page e visit anime_id page w).1
      = loaded_page title found controls page.
Proof.
  intros Hmiss.
  destruct (visit (anime_url anime_id page)) as [|title found controls] eqn:Hv.
  { left. by rewrite scrape_failed. }
  unfold scrape_episodes_page, loaded_page, listed.
  assert (∀ r : M episode_page,
    (cached_episodes ← (if page =? 1
                        then m ← read_manager; mret (get_anime_episodes m anime_id)
                        else mret None);
     match cached_episodes with Some c => mret (cached_page c) | None => r end) w = r w)
    as Hskip.
  { intros r. destruct (Z.eqb_spec page 1) as [->|Hp]; run_M; [|done].
    destruct (get_anime_episodes (manager_of w) anime_id) as [c|] eqn:Hc; [|done].
    destruct Hmiss. split; [done|by exists c]. }
  rewrite Hskip. clear Hskip. run_M. rewrite Hv.
  destruct (check_pagination controls page) as [has_next next] eqn:Hcp.
  destruct (Py.sort_key _ _ _) as [sorted|[]] eqn:Hs; cbn [fst snd].
  - right. exists title, found, controls. rewrite Hs, Hcp.
    by destruct (page =? 1); run_M.
  - by left.
  - right. exists title, found, controls. rewrite Hs, Hcp.
    by destruct (page =? 1); run_M.
  - by left.
  - by left.
Qed.

End Scrape.

Definition sample_rows : episode_elements :=
  EpisodeElements
    [Some (ListedEpisode (NumInt 2) "Second" (Some "/play/show/s2") (Some "s2"));
     Some (ListedEpisode (NumInt 1) "First" (Some "/play/show/s1") (Some "s1"));
     None;
     Some (ListedEpisode (NumInt 2) "Second again" (Some "/play/show/s2") (Some "s2"))]
    [] [].

Definition sample_browser : episodes_browser :=
  λ _, EpisodesLoaded "Show :: animepahe" (Some sample_rows)
         (Some (PaginationControls [false; false; false; false] [PageNumber 1; PageNumber 2])).

Definition offline : episodes_browser := λ _, EpisodesLoadFailed.

Definition sample_world : world := World Samples.empty_manager [].

(** X10. [scrape_episodes_page] and the cache.  The first page of an
    anime that is in the cache is answered from it: no page is visited
    and the cache is not written.  Any other page is always fetched,
    with one visit, and never stored.  A load that fails gives the
    ["Unknown"] page and stores nothing. *)
Theorem scrape_episodes_page_cache_discipline (e : env) (visit : episodes_browser)
  (anime_id : string) (w : world) :
  (∀ c, get_anime_episodes (manager_of w) anime_id = Some c →
        scrape_episodes_page e visit anime_id 1 w = (cached_page c, w))
  ∧ (∀ page, page ≠ 1 →
       (scrape_episodes_page e visit anime_id page w).2
       = World (manager_of w) (log w ++ [PageVisit (anime_url anime_id page)]))
  ∧ (∀ page, ¬ served_from_cache anime_id page w →
       visit (anime_url anime_id page) = EpisodesLoadFailed →
       scrape_episodes_page e visit anime_id page w
       = (unknown_page page,
          World (manager_of w) (log w ++ [PageVisit (anime_url anime_id page)]))).
Proof.
  split; [|split].
  - intros c. apply scrape_hit.
  - intros page. apply scrape_other_page.
  - intros page. apply scrape_failed.
Qed.

(** X11. A first page that was loaded is stored and replayed: the call
    visits the site once, and every later call for the first page of the
    same anime returns the same record and visits nothing, whatever the
    time and whatever the site would serve; this holds just as well when
    the page showed no episode. *)
Theorem scrape_episodes_page_replays (e : env) (visit : episodes_browser)
  (anime_id : string) (w : world) (title : string) (found : option episode_elements)
  (controls : option pagination_controls) :
  get_anime_episodes (manager_of w) anime_id = None →
  visit (anime_url anime_id 1) = EpisodesLoaded title found controls →
  Forall not_null (remove_duplicate_episodes (extract_episodes_clean found)) →
  let r := scrape_episodes_page e visit anime_id 1 w in
  pg_title r.1 = Py.strip (Py.replace ":: animepahe" "" title)
  ∧ log r.2 = log w ++ [PageVisit (anime_url anime_id 1)]
  ∧ ∀ e' visit', scrape_episodes_page e' visit' anime_id 1 r.2 = r.
Proof.
  intros Hmiss Hv Hnn. cbv zeta.
  rewrite (scrape_loaded e visit anime_id 1 w title found controls); [|
    by intros [_ [c Hc]]; congruence | done | done].
  change (1 =? 1) with true. cbn [fst snd log visited].
  split; [done|]. split; [done|]. intros e' visit'.
  rewrite (scrape_hit e' visit' anime_id _
             (EpisodesEntry (page_title title) (listed found)
                (Z.of_nat (length (listed found))) (check_pagination controls 1).1 1
                (check_pagination controls 1).2 (TsAt (now e)))); [done|].
  unfold get_anime_episodes, set_anime_episodes. cbn [manager_of].
  rewrite CacheMoreFacts.save_cache_data. cbn. by rewrite lookup_insert_eq.
Qed.

Lemma scrape_episodes_page_replays_witness :
  scrape_episodes_page Samples.noon offline "show" 1
    (scrape_episodes_page Samples.noon sample_browser "show" 1 sample_world).2
  = scrape_episodes_page Samples.noon sample_browser "show" 1 sample_world.
Proof.
  apply (scrape_episodes_page_replays Samples.noon sample_browser "show" sample_world
           "Show :: animepahe" (Some sample_rows)
           (Some (PaginationControls [false; false; false; false] [PageNumber 1; PageNumber 2]))).
  - reflexivity.
  - reflexivity.
  - vm_compute. repeat constructor; done.
Defined.

(** X12. A record that [scrape_episodes_page] did not take from the
    cache holds no session id twice and no record without one; its
    [total_episodes] is the length of its list and its [current_page] the
    page asked for; [has_next_page] is set exactly when [next_page] is,
    and [next_page] is then a later page; and when every record has an
    integer number the list is in number order. *)
Theorem scrape_episodes_page_record (e : env) (visit : episodes_browser)
  (anime_id : string) (page : Z) (w : world) :
  ¬ served_from_cache anime_id page w →
  let p := (scrape_episodes_page e visit anime_id page w).1 in
  NoDup (le_session <$> pg_episodes p)
  ∧ Forall carries_session (pg_episodes p)
  ∧ pg_total_episodes p = Z.of_nat (length (pg_episodes p))
  ∧ pg_current_page p = page
  ∧ (pg_has_next_page p = true ↔ ∃ n, pg_next_page p = Some n)
  ∧ (∀ n, pg_next_page p = Some n → page < n)
  ∧ (Forall numbered (pg_episodes p) →
       Sorted (λ x y, EpisodesFacts.listed_number x ≤ EpisodesFacts.listed_number y)
              (pg_episodes p)).
Proof.
  intros Hmiss. cbv zeta.
  destruct (scrape_cases e visit anime_id page w Hmiss)
    as [-> | (title & found & controls & ->)].
  - cbn. split; [constructor|]. split; [constructor|]. split; [done|]. split; [done|].
    split; [split; [done|(by intros [? ?])]|]. split; [done|]. constructor.
  - unfold loaded_page. cbn [pg_episodes pg_total_episodes pg_current_page
      pg_has_next_page pg_next_page].
    destruct (pagination_answer controls page) as (Hn1 & Hn2).
    split; [|split; [|split; [done|split; [done|split; [done|split; [done|]]]]]].
    + rewrite listed_Permutation. apply unique_from_NoDup.
    + rewrite listed_Permutation. apply DedupFacts.unique_from_sessions.
    + apply listed_sorted.
Qed.

Lemma scrape_episodes_page_record_witness :
  le_number
    <$> pg_episodes (scrape_episodes_page Samples.noon sample_browser "show" 2 sample_world).1
  = [NumInt 1; NumInt 2]
  ∧ pg_current_page (scrape_episodes_page Samples.noon sample_browser "show" 2 sample_world).1
    = 2.
Proof.
  split; [by vm_compute|].
  apply (scrape_episodes_page_record Samples.noon sample_browser "show" 2 sample_world).
  by intros [? _].
Defined.

End ScrapeFacts.

(** * URLs of the player *)

Module UrlFacts.

Import Backend.

#[local] Arguments String.append _ _ : simpl nomatch.

Lemma prefix_append p s t :
  String.prefix p s = true → String.prefix p (s +:+ t) = true.
Proof.
  revert s. induction p as [|a p IH]; intros [|b s]; cbn; try done.
  - by destruct t.
  - destruct (ascii_dec a b); [apply IH|done].
Qed.

Lemma prefix_inv p s : String.prefix p s = true → ∃ t, s = p +:+ t.
Proof.
  revert s. induction p as [|a p IH]; intros s; [by exists s|].
  destruct s as [|b s]; [done|]. cbn. destruct (ascii_dec a b) as [->|]; [|done].
  intros [t ->]%IH. by exists t.
Qed.

(** A URL with a scheme, as [_make_absolute_url] tests it. *)
Definition absolute (url : string) : Prop :=
  Py.startswith url "http://" || Py.startswith url "https://" = true.

Lemma absolute_append url rest : absolute url → absolute (url +:+ rest).
Proof.
  unfold absolute, Py.startswith. intros [H|H]%orb_true_iff; apply orb_true_iff.
  - left. by apply prefix_append.
  - right. by apply prefix_append.
Qed.

Lemma make_absolute_of_absolute page_url url :
  absolute url → _make_absolute_url page_url url = url.
Proof.
  unfold absolute, _make_absolute_url. intros ->. by destruct (url =? "")%string.
Qed.

Lemma make_absolute_is_absolute page_url relative_url :
  absolute page_url → relative_url ≠ "" →
  absolute (_make_absolute_url page_url relative_url).
Proof.
  intros Hp Hr. unfold _make_absolute_url.
  rewrite (proj2 (String.eqb_neq _ _) Hr).
  destruct (Py.startswith relative_url "http://" || Py.startswith relative_url "https://")
    eqn:Habs; [done|].
  destruct (Py.startswith relative_url "//") eqn:Hs.
  { apply prefix_inv in Hs as [t ->].
    change ("https:" +:+ "//" +:+ t) with ("https://" +:+ t). by apply absolute_append. }
  destruct (Py.startswith relative_url "/"); by apply absolute_append.
Qed.

Lemma make_absolute_nonempty page_url relative_url :
  relative_url ≠ "" → _make_absolute_url page_url relative_url ≠ "".
Proof.
  intros Hr. unfold _make_absolute_url.
  rewrite (proj2 (String.eqb_neq _ _) Hr).
  destruct (_ || _); [done|].
  destruct (Py.startswith relative_url "//"); [done|].
  destruct (Py.startswith relative_url "/"); [done|].
  destruct page_url; [|done]. cbn. done.
Qed.

(** X13. [_make_absolute_url] leaves a URL that has a scheme, and the
    empty string, as they are, and never turns a non-empty string into
    the empty one.  When the URL of the page has a scheme, the result for
    a non-empty input has one too, so that resolving twice is resolving
    once. *)
Theorem make_absolute_url_resolves (page_url relative_url : string) :
  absolute page_url →
  (relative_url ≠ "" → absolute (_make_absolute_url page_url relative_url))
  ∧ (relative_url = "" ↔ _make_absolute_url page_url relative_url = "")
  ∧ (absolute relative_url → _make_absolute_url page_url relative_url = relative_url)
  ∧ _make_absolute_url page_url (_make_absolute_url page_url relative_url)
    = _make_absolute_url page_url relative_url.
Proof.
  intros Hp. split; [by apply make_absolute_is_absolute|]. split; [|split].
  - split; [by intros ->|]. intros H.
    destruct (decide (relative_url = "")) as [|Hr]; [done|].
    by apply (make_absolute_nonempty page_url) in Hr.
  - apply make_absolute_of_absolute.
  - destruct (decide (relative_url = "")) as [->|Hr]; [done|].
    by apply make_absolute_of_absolute, make_absolute_is_absolute.
Qed.

Lemma make_absolute_url_resolves_witness :
  _make_absolute_url "https://animepahe.si/play/a/s"
    (_make_absolute_url "https://animepahe.si/play/a/s" "//kwik.example/e/abc")
  = _make_absolute_url "https://animepahe.si/play/a/s" "//kwik.example/e/abc".
Proof.
  apply (make_absolute_url_resolves "https://animepahe.si/play/a/s" "//kwik.example/e/abc").
  reflexivity.
Defined.

(** ** [_find_iframe_directly] *)

(** The test an iframe URL passes: a player keyword in the lowered URL,
    or no ["animepahe"] in the URL. *)
Definition accepted (full_url : string) : Prop :=
  (∃ keyword, keyword ∈ player_keywords ∧ Py.contains keyword (Py.lower full_url) = true)
  ∨ Py.contains "animepahe" full_url = false.

Definition rejected (episode_url : string) (src : option string) : Prop :=
  ∀ s, src = Some s → s ≠ "" → ¬ accepted (_make_absolute_url episode_url s).

Lemma accepted_spec full_url :
  accepted full_url ↔
  existsb (λ keyword, Py.contains keyword (Py.lower full_url)) player_keywords
  || negb (Py.contains "animepahe" full_url) = true.
Proof.
  unfold accepted. rewrite orb_true_iff, existsb_exists, negb_true_iff.
  split; (intros [(k & Hk & Hc)|H]; [left|by right]); exists k.
  - split; [by apply list_elem_of_In|done].
  - split; [by apply list_elem_of_In|done].
Qed.

(** X14. The URL [_find_iframe_directly] returns is the resolved [src]
    of the first iframe of the page that has a non-empty [src] and passes
    the test; the function returns [None] exactly when no iframe does.
    The URL is never empty, and it has a scheme when the URL of the
    episode page has one. *)
Theorem find_iframe_directly_first_accepted (episode_url : string)
  (srcs : list (option string)) :
  match _find_iframe_directly episode_url srcs with
  | Some full_url =>
      (∃ before src after,
         srcs = before ++ Some src :: after ∧ src ≠ ""
         ∧ full_url = _make_absolute_url episode_url src
         ∧ Forall (rejected episode_url) before)
      ∧ accepted full_url ∧ full_url ≠ ""
      ∧ (absolute episode_url → absolute full_url)
  | None => Forall (rejected episode_url) srcs
  end.
Proof.
  induction srcs as [|[src|] srcs IH]; cbn [_find_iframe_directly].
  - constructor.
  - destruct (String.eqb_spec src "") as [->|Hsrc].
    { destruct (_find_iframe_directly episode_url srcs) as [full|].
      - destruct IH as ((before & s & after & -> & Hs & Hf & Hb) & Hacc).
        split; [|done]. exists (Some "" :: before), s, after.
        split; [done|]. split; [done|]. split; [done|].
        constructor; [|done]. by intros ? [= <-].
      - constructor; [|done]. by intros ? [= <-]. }
    pose proof (accepted_spec (_make_absolute_url episode_url src)) as Hacc.
    destruct (existsb _ player_keywords) eqn:Hk; cbn [orb] in Hacc.
    { split; [|split; [by apply Hacc|split]].
      - exists [], src, srcs. by repeat split.
      - by apply make_absolute_nonempty.
      - intros Hp. by apply make_absolute_is_absolute. }
    destruct (negb _) eqn:Hn.
    { split; [|split; [by apply Hacc|split]].
      - exists [], src, srcs. by repeat split.
      - by apply make_absolute_nonempty.
      - intros Hp. by apply make_absolute_is_absolute. }
    assert (rejected episode_url (Some src)) as Hrej.
    { intros ? [= <-] _ H%Hacc. done. }
    destruct (_find_iframe_directly episode_url srcs) as [full|].
    + destruct IH as ((before & s & after & -> & Hs & Hf & Hb) & Hrest).
      split; [|done]. exists (Some src :: before), s, after.
      split; [done|]. split; [done|]. split; [done|]. by constructor.
    + by constructor.
  - destruct (_find_iframe_directly episode_url srcs) as [full|].
    + destruct IH as ((before & s & after & -> & Hs & Hf & Hb) & Hrest).
      split; [|done]. exists (None :: before), s, after.
      split; [done|]. split; [done|]. split; [done|]. constructor; [|done]. by intros ? [=].
    + constructor; [|done]. by intros ? [=].
Qed.

End UrlFacts.

(** * The index-backed episode list: every page, and the edges *)

Module PagesFacts.

Import Index Cache Backend.

Local Abbreviation numbered := ScrapeFacts.numbered.
Local Abbreviation listed_number := EpisodesFacts.listed_number.

(** The records [get_episodes] formats, in stored order. *)
Definition formatted (a : anime) : list listed_episode :=
  format_episode <$> default [] (a_episodes a).

(** What a caller reads from the answer for one page. *)
Definition episodes_on (all_anime : store) (anime_id : string) (page : Z)
  : list listed_episode :=
  match get_episodes all_anime anime_id page with
  | Py.Ok pg => pg_episodes pg
  | Py.Raise _ => []
  end.

Definition more_after (all_anime : store) (anime_id : string) (page : Z) : bool :=
  match get_episodes all_anime anime_id page with
  | Py.Ok pg => pg_has_next_page pg
  | Py.Raise _ => false
  end.

Definition numbers_ascending : list listed_episode → Prop :=
  Sorted (λ x y, listed_number x ≤ listed_number y).

Lemma get_episodes_sorted all_anime anime_id a page :
  get_anime_by_id all_anime anime_id = Some a →
  Forall numbered (formatted a) →
  get_episodes all_anime anime_id page
  = Py.Ok (paginate (default "Unknown Title" (a_title a))
             (Py.sort_by Z.ltb listed_number (formatted a)) page).
Proof.
  intros Ha Hn. unfold get_episodes. rewrite Ha.
  fold (formatted a). by rewrite ScrapeFacts.sort_key_numbered.
Qed.

Lemma page_nonempty {A : Type} (l : list A) (page : Z) :
  1 ≤ page →
  take 50 (drop (Z.to_nat (50 * page)) l) ≠ [] ↔ page * 50 < Z.of_nat (length l).
Proof.
  intros Hp. split.
  - intros Hne. destruct (Z.lt_ge_cases (page * 50) (Z.of_nat (length l))); [done|].
    destruct Hne. rewrite drop_ge by lia. apply take_nil.
  - intros Hlt Hnil. apply (f_equal length) in Hnil.
    rewrite length_take, length_drop in Hnil.
    change (@length A []) with 0%nat in Hnil. lia.
Qed.

(** X15. For an anime of the index whose episodes all carry an integer
    number, the pages of [get_episodes] cut one list, the episodes in
    number order: the first [n] pages put end to end are its first
    [50 * n] records, so that every episode is on exactly one page; a
    page never holds more than 50; and [has_next_page] is set on a page
    exactly when the page after it is not empty. *)
Theorem get_episodes_pages_cover (all_anime : store) (anime_id : string) (a : anime) :
  get_anime_by_id all_anime anime_id = Some a →
  Forall numbered (formatted a) →
  ∃ sorted,
    sorted ≡ₚ formatted a
    ∧ numbers_ascending sorted
    ∧ (∀ n : nat,
         concat (episodes_on all_anime anime_id <$> seqZ 1 (Z.of_nat n))
         = take (50 * n) sorted)
    ∧ (∀ page, 1 ≤ page → (length (episodes_on all_anime anime_id page) ≤ 50)%nat)
    ∧ (∀ page, 1 ≤ page →
         more_after all_anime anime_id page = true
         ↔ episodes_on all_anime anime_id (page + 1) ≠ []).
Proof.
  intros Ha Hn. exists (Py.sort_by Z.ltb listed_number (formatted a)).
  assert (∀ page, 1 ≤ page →
    episodes_on all_anime anime_id page
    = take 50 (drop (Z.to_nat (50 * (page - 1)))
                 (Py.sort_by Z.ltb listed_number (formatted a)))) as Hon.
  { intros page Hp. unfold episodes_on.
    by rewrite (get_episodes_sorted _ _ a), EpisodesFacts.paginate_inside. }
  split; [apply PyFacts.sort_by_Permutation|]. split; [|split; [|split]].
  - eapply PyFacts.Sorted_weaken; [|apply PyFacts.sort_by_Sorted].
    + unfold PyFacts.in_order. intros x y H%Z.ltb_ge. lia.
    + intros x y H%Z.ltb_lt. apply Z.ltb_ge. lia.
  - induction n as [|n IH]; [done|].
    rewrite seqZ_S, fmap_app, concat_app, IH. cbn [fmap list_fmap concat].
    rewrite app_nil_r, Hon by lia.
    replace (Z.to_nat (50 * (1 + Z.of_nat n - 1))) with (50 * n)%nat by lia.
    rewrite take_take_drop. f_equal. lia.
  - intros page Hp. rewrite Hon by done. rewrite length_take. lia.
  - intros page Hp. rewrite Hon by lia.
    replace (page + 1 - 1) with page by lia. rewrite page_nonempty by done.
    unfold more_after.
    rewrite (get_episodes_sorted _ _ a), EpisodesFacts.paginate_inside by done.
    cbn [pg_has_next_page]. apply bool_decide_eq_true.
Qed.

Lemma get_episodes_pages_cover_witness :
  concat (episodes_on Samples.long_store "long" <$> seqZ 1 3)
  ≡ₚ formatted Samples.long_anime.
Proof.
  destruct (get_episodes_pages_cover Samples.long_store "long" Samples.long_anime)
    as (sorted & Hperm & _ & Hcover & _).
  - reflexivity.
  - apply Forall_fmap, Forall_forall. intros ep Hep. unfold Samples.long_episodes in Hep.
    apply list_elem_of_fmap in Hep as (n & -> & _). by exists n.
  - change (seqZ 1 3) with (seqZ 1 (Z.of_nat 3)). rewrite (Hcover 3%nat).
    rewrite take_ge; [done|]. rewrite (Permutation_length Hperm). apply Nat.leb_le. by vm_compute.
Defined.

(** ** The edges *)

Lemma sort_key_first_bad (pre post : list listed_episode) (x : listed_episode) err :
  Forall numbered pre → int_key x = Py.Raise err →
  Py.sort_key Z.ltb int_key (pre ++ x :: post) = Py.Raise err.
Proof.
  intros Hpre Hx. unfold Py.sort_key.
  assert (Py.keys_of int_key (pre ++ x :: post) = Py.Raise err) as ->; [|done].
  induction Hpre as [|y pre [z Hz] _ IH]; cbn [app Py.keys_of].
  - by rewrite Hx.
  - unfold int_key at 1. by rewrite Hz, IH.
Qed.

Lemma get_episodes_Ok all_anime anime_id a page pg :
  get_anime_by_id all_anime anime_id = Some a →
  get_episodes all_anime anime_id page = Py.Ok pg →
  ∃ l, l ≡ₚ formatted a ∧ pg = paginate (default "Unknown Title" (a_title a)) l page.
Proof.
  intros Ha. unfold get_episodes. rewrite Ha. fold (formatted a).
  destruct (Py.sort_key _ _ _) as [sorted|[]] eqn:Hs; intros [= <-].
  - apply ScrapeFacts.sort_key_Ok in Hs as [_ ->]. eexists. split; [|done].
    apply PyFacts.sort_by_Permutation.
  - by eexists.
Qed.

(** X16. The edges of [get_episodes].  An id that is not in the index
    gives the empty ["Unknown Anime"] page.  The first stored episode
    whose number is not an integer decides: if it is a text, the sort is
    given up and the pages cut the episodes in stored order; if it is
    null or missing, the call raises [TypeError].  The page number is not
    checked: page 0 is empty, and every negative page has
    [has_next_page] set, with [next_page] the page number plus one, and
    holds episodes counted from the end of the list. *)
Theorem get_episodes_edge_cases (all_anime : store) (anime_id : string) (page : Z) :
  (get_anime_by_id all_anime anime_id = None →
     get_episodes all_anime anime_id page
     = Py.Ok (EpisodePage "Unknown Anime" [] 0 false page None))
  ∧ (∀ a pre x post,
       get_anime_by_id all_anime anime_id = Some a →
       formatted a = pre ++ x :: post → Forall numbered pre →
       (le_number x = NumNull →
          get_episodes all_anime anime_id page = Py.Raise Py.TypeError)
       ∧ (le_number x = NumText →
            ∃ pg, get_episodes all_anime anime_id page = Py.Ok pg
                  ∧ pg_episodes pg
                    = Py.slice (formatted a) ((page - 1) * 50) (page * 50)))
  ∧ (∀ a pg,
       get_anime_by_id all_anime anime_id = Some a →
       get_episodes all_anime anime_id page = Py.Ok pg →
       let total := Z.of_nat (length (formatted a)) in
       pg_total_episodes pg = total
       ∧ pg_current_page pg = page
       ∧ (page = 0 → pg_episodes pg = [])
       ∧ (page < 0 →
            pg_has_next_page pg = true ∧ pg_next_page pg = Some (page + 1)
            ∧ Z.of_nat (length (pg_episodes pg))
              = Z.max 0 (total + 50 * page) - Z.max 0 (total + 50 * (page - 1)))).
Proof.
  split; [|split].
  - intros Ha. unfold get_episodes. by rewrite Ha.
  - intros a pre x post Ha Hf Hpre. unfold get_episodes. rewrite Ha.
    fold (formatted a). rewrite Hf. split; intros Hx.
    + rewrite (sort_key_first_bad _ _ _ Py.TypeError); [done|done|].
      unfold int_key. by rewrite Hx.
    + rewrite (sort_key_first_bad _ _ _ Py.ValueError); [by eexists|done|].
      unfold int_key. by rewrite Hx.
  - intros a pg Ha Hpg. destruct (get_episodes_Ok _ _ _ _ _ Ha Hpg) as (l & Hl & ->).
    cbv zeta. rewrite <- (Permutation_length Hl).
    unfold paginate, EPISODES_PER_PAGE. cbn [pg_total_episodes pg_current_page pg_episodes
      pg_has_next_page pg_next_page].
    split; [done|]. split; [done|]. split.
    + intros ->. unfold Py.slice, Py.slice_bound.
      change (0 * 50 <? 0) with false. change ((0 - 1) * 50 <? 0) with true.
      cbv iota. replace (Z.to_nat _) with 0%nat by lia. done.
    + intros Hneg. rewrite (proj2 (Z.ltb_lt (page * 50) _)) by lia.
      split; [done|]. split; [done|].
      unfold Py.slice, Py.slice_bound.
      rewrite !(proj2 (Z.ltb_lt _ 0)) by lia.
      rewrite length_take, length_drop. lia.
Qed.

Lemma get_episodes_edge_cases_witness :
  ∃ pg, get_episodes Samples.long_store "long" (-1) = Py.Ok pg
        ∧ pg_has_next_page pg = true ∧ pg_next_page pg = Some 0
        ∧ length (pg_episodes pg) = 50%nat.
Proof.
  destruct (get_episodes Samples.long_store "long" (-1)) as [pg|err] eqn:Hpg;
    [|by vm_compute in Hpg].
  exists pg. split; [done|].
  destruct (get_episodes_edge_cases Samples.long_store "long" (-1)) as (_ & _ & Hedge).
  destruct (Hedge Samples.long_anime pg eq_refl Hpg) as (_ & _ & _ & Hneg).
  destruct Hneg as (-> & -> & Hlen); [done|]. split; [done|]. split; [done|].
  apply Nat2Z.inj. rewrite Hlen. by vm_compute.
Defined.

End PagesFacts.

(** * The search: ranking, and the queries that fold to nothing *)

Module RankFacts.

Import Index Backend.

Lemma Sorted_take {A : Type} (R : relation A) (l : list A) (n : nat) :
  Sorted R l → Sorted R (take n l).
Proof.
  intros Hl. revert n. induction Hl as [|x l _ IH Hhd]; intros [|n]; cbn; try constructor.
  - apply IH.
  - destruct Hhd; destruct n; by constructor.
Qed.

Lemma StronglySorted_on {A : Type} (R R' : relation A) (l : list A) :
  (∀ x y, x ∈ l → y ∈ l → R x y → R' x y) → StronglySorted R l → StronglySorted R' l.
Proof.
  intros HR Hl. induction Hl as [|x l _ IH Hx]; constructor.
  - apply IH. intros a b Ha Hb. apply HR; by right.
  - apply Forall_forall. intros y Hy. apply HR; [left|by right|].
    by apply (proj1 (Forall_forall _ _) Hx).
Qed.

Lemma filter_all {A : Type} (P : A → Prop) `{!∀ x, Decision (P x)} (l : list A) :
  Forall P l → filter P l = l.
Proof.
  induction 1 as [|x l Hx _ IH]; [done|]. rewrite filter_cons_True by done. by f_equal.
Qed.

(** The four classes of a match, best first. *)
Definition tier (m : match_type) : nat :=
  match m with
  | Exact => 0
  | StartsWith => 1
  | Contains => 2
  | Similar => 3
  end.

(** [r1] may stand before [r2]: its priority is not lower, and its class
    is not worse. *)
Definition ranked (r1 r2 : search_result) : Prop :=
  (sr_priority r2 <= sr_priority r1)%Q
  ∧ (tier (sr_match_type r1) ≤ tier (sr_match_type r2))%nat.

(** Among neighbours of equal priority the titles go up. *)
Definition tie_by_title (r1 r2 : search_result) : Prop :=
  (sr_priority r1 == sr_priority r2)%Q →
  String.ltb (title_of (sr_anime r2)) (title_of (sr_anime r1)) = false.

Section Facts.
Variable strip : string → string.
Variable lower : string → string.
Variable ascii_fold : string → string.
Variable ratio : string → string → Q.
Hypothesis ratio_range : ∀ a b, (0 <= ratio a b <= 1)%Q.

Local Abbreviation priority := (priority lower ascii_fold ratio).
Local Abbreviation annotate := (annotate lower ascii_fold ratio).
Local Abbreviation candidates := (candidates lower ascii_fold ratio).
Local Abbreviation match_type_of := (match_type_of lower ascii_fold).
Local Abbreviation search_anime := (search_anime strip lower ascii_fold ratio).

Lemma priority_of_tier query a :
  match match_type_of query a with
  | Exact => (priority query a == 100)%Q
  | StartsWith => (80 <= priority query a <= 90)%Q
  | Contains => (60 <= priority query a <= 70)%Q
  | Similar => (0 <= priority query a <= 50)%Q
  end.
Proof.
  unfold Index.priority, Index.match_type_of, Index.similarity, similarity_score.
  pose proof (ratio_range (lower query) (lower (title_of a))) as Hr.
  destruct (exact_match _ _ _ _); [lra|].
  destruct (starts_with _ _ _ _); [lra|].
  destruct (Index.contains _ _ _ _); lra.
Qed.

Lemma tier_of_priority query a b :
  (priority query b <= priority query a)%Q →
  (tier (match_type_of query a) ≤ tier (match_type_of query b))%nat.
Proof.
  intros Hle. pose proof (priority_of_tier query a) as Ha.
  pose proof (priority_of_tier query b) as Hb.
  destruct (match_type_of query a), (match_type_of query b); cbn; try lia; lra.
Qed.

Lemma in_order_priority r1 r2 :
  PyFacts.in_order key_lt SearchFacts.key_of r1 r2 →
  (sr_priority r2 <= sr_priority r1)%Q ∧ tie_by_title r1 r2.
Proof.
  unfold PyFacts.in_order, key_lt, SearchFacts.key_of, tie_by_title. cbn [fst snd].
  destruct (Qeq_bool (- sr_priority r2) (- sr_priority r1)) eqn:He.
  - apply Qeq_bool_iff in He. intros Hlt. split; [lra|done].
  - intros Hlt. apply Qeq_bool_neq in He. split.
    + apply Qnot_lt_le. intros H. apply not_true_iff_false in Hlt. apply Hlt.
      apply SearchFacts.Qltb_lt. lra.
    + intros Heq. lra.
Qed.

(** X17. On a catalogue whose records all have a title, [search_anime]
    returns at most 20 records, each a record of the catalogue with its
    priority and class.  They are in rank order: a record never stands
    before one of higher priority, so that the exact matches come first,
    then the titles that start with the query, then those that contain
    it, then the merely similar ones; neighbours of equal priority are in
    title order.  A blank search term has an empty result. *)
Theorem search_anime_ranked (all_anime : store) (search_term : string) :
  Forall SearchFacts.titled all_anime →
  ∃ results,
    search_anime all_anime search_term = Py.Ok results
    ∧ (length results ≤ 20)%nat
    ∧ StronglySorted ranked results
    ∧ Sorted tie_by_title results
    ∧ (∀ r, r ∈ results →
         sr_anime r ∈ all_anime ∧ r = annotate search_term (sr_anime r))
    ∧ (strip search_term = "" → results = []).
Proof.
  intros Hall. unfold Backend.search_anime.
  assert (∃ results : list search_result,
            Py.Ok [] = Py.Ok results
            ∧ (length results ≤ 20)%nat
            ∧ StronglySorted ranked results
            ∧ Sorted tie_by_title results
            ∧ (∀ r, r ∈ results →
                 sr_anime r ∈ all_anime ∧ r = annotate search_term (sr_anime r))
            ∧ (strip search_term = "" → results = [])) as Hnone.
  { exists []. split; [done|]. split; [cbn; lia|]. split; [constructor|].
    split; [constructor|]. split; [by intros r ?%elem_of_nil|done]. }
  destruct (String.eqb_spec (strip search_term) "") as [Hblank|Hterm]; [done|].
  destruct (decide (search_term = "")) as [->|Hq]; [done|].
  rewrite (SearchFacts.flexible_search_titled _ _ _ _ _ _ Hq Hall).
  rewrite PyFacts.slice_take_drop by lia. cbn [drop Z.to_nat Pos.to_nat Z.sub].
  change (Z.to_nat (20 - 0)) with 20%nat. change (Z.to_nat 0) with 0%nat. cbn [drop].
  set (sorted := Py.sort_by key_lt SearchFacts.key_of (candidates search_term all_anime)).
  assert (∀ r, r ∈ take 20 sorted →
               sr_anime r ∈ all_anime ∧ r = annotate search_term (sr_anime r)) as Hin.
  { intros r Hr%(subseteq_take 20). 
    apply SearchFacts.sorted_candidates_spec in Hr as (a & Ha & _ & ->). done. }
  eexists. split; [done|]. split; [rewrite length_take; lia|].
  split; [|split; [|split; [done|by intros ?]]].
  - apply (StronglySorted_on (λ r1 r2, (sr_priority r2 <= sr_priority r1)%Q)).
    + intros x y [_ ->]%Hin [_ ->]%Hin Hle. split; [done|].
      by apply tier_of_priority.
    + apply Sorted_StronglySorted.
      * intros x y z Hxy Hyz. lra.
      * apply Sorted_take. eapply PyFacts.Sorted_weaken; [|apply SearchFacts.sorted_candidates].
        intros x y H. by apply in_order_priority.
  - apply Sorted_take. eapply PyFacts.Sorted_weaken; [|apply SearchFacts.sorted_candidates].
    intros x y H. by apply in_order_priority.
Qed.

Local Abbreviation normalize_text := (normalize_text lower ascii_fold).
Local Abbreviation keep := (keep lower ascii_fold ratio).
Local Abbreviation flexible_search := (flexible_search lower ascii_fold ratio).

Lemma startswith_empty (s : string) : Py.startswith s "" = true.
Proof. by destruct s. Qed.

Lemma folded_query query a :
  normalize_text query = "" →
  keep query a = true ∧ (tier (match_type_of query a) ≤ 1)%nat.
Proof.
  intros Hq. unfold Index.keep, Index.match_type_of, Index.starts_with. rewrite Hq.
  rewrite startswith_empty, orb_true_r. split; [done|].
  destruct (exact_match _ _ _ _); cbn; lia.
Qed.

(** [strip] gives the empty string on the empty string. *)
Hypothesis strip_empty : strip "" = "".

(** X18. A search term that [strip] does not reduce to the empty string
    but that normalization does, as one written only in characters that
    are not white space and that the ASCII folding drops, matches the
    whole catalogue: every title starts with the empty string.  On a
    catalogue whose records all have a title, [search_anime] then returns
    the first 20 of all the records, each as an exact or a starts-with
    match. *)
Theorem search_term_folded_away (all_anime : store) (search_term : string) :
  strip search_term ≠ "" →
  normalize_text search_term = "" →
  Forall SearchFacts.titled all_anime →
  ∃ matches,
    search_anime all_anime search_term = Py.Ok (take 20 matches)
    ∧ matches ≡ₚ annotate search_term <$> all_anime
    ∧ Forall (λ r, sr_match_type r = Exact ∨ sr_match_type r = StartsWith) matches.
Proof.
  intros Hterm Hfold Hall. unfold Backend.search_anime.
  apply String.eqb_neq in Hterm as Hb. rewrite Hb.
  assert (search_term ≠ "") as Hq by (intros ->; by apply Hterm).
  rewrite (SearchFacts.flexible_search_titled _ _ _ _ _ _ Hq Hall).
  rewrite PyFacts.slice_take_drop by lia.
  change (Z.to_nat (20 - 0)) with 20%nat. change (Z.to_nat 0) with 0%nat. cbn [drop].
  eexists. split; [done|].
  assert (candidates search_term all_anime = annotate search_term <$> all_anime) as Hc.
  { unfold Index.candidates. f_equal. apply filter_all.
    apply Forall_forall. intros a _. by apply folded_query. }
  split; [by rewrite PyFacts.sort_by_Permutation, Hc|].
  apply Forall_forall. intros r Hr. rewrite PyFacts.sort_by_Permutation, Hc in Hr.
  apply list_elem_of_fmap in Hr as (a & -> & _). cbn [sr_match_type Index.annotate].
  destruct (folded_query search_term a Hfold) as [_ Ht].
  destruct (match_type_of search_term a); cbn in Ht; auto; lia.
Qed.

Lemma keys_of_Raise {A K : Type} (key : A → Py.result K) (l : list A) err :
  Py.keys_of key l = Py.Raise err → ∃ x, x ∈ l ∧ key x = Py.Raise err.
Proof.
  induction l as [|x l IH]; cbn [Py.keys_of]; [done|].
  destruct (key x) as [k|e] eqn:Hx.
  - destruct (Py.keys_of key l) as [ks|e]; [done|]. intros [= <-].
    destruct IH as (y & Hy & Hky); [done|]. exists y. split; [by right|done].
  - intros [= <-]. exists x. split; [left|done].
Qed.

(** X19. [flexible_search] raises exactly when the query is not empty and
    a record without a ["title"] key passes the filter; what it raises is
    then the [KeyError] of the sort key.  In every other case it returns
    a list. *)
Theorem flexible_search_raises_on_untitled (all_anime : store) (query : string)
  (limit : Z) (err : Py.exn) :
  flexible_search all_anime query limit = Py.Raise err
  ↔ err = Py.KeyError "title" ∧ query ≠ ""
    ∧ ∃ a, a ∈ all_anime ∧ a_title a = None ∧ keep query a = true.
Proof.
  unfold Index.flexible_search. split.
  - destruct (String.eqb_spec query "") as [->|Hq]; [done|]. cbn [orb].
    case_bool_decide as Hnil; [done|].
    unfold Py.sort_key. destruct (Py.keys_of _ _) as [ks|e] eqn:Hk; [done|].
    intros [= <-]. apply keys_of_Raise in Hk as (r & Hr & Hkey).
    apply SearchFacts.candidates_spec in Hr as (a & Ha & Hkeep & ->).
    unfold sort_key_of in Hkey. cbn [sr_anime Index.annotate] in Hkey.
    destruct (a_title a) eqn:Ht; [done|]. injection Hkey as <-.
    split; [done|]. split; [done|]. by exists a.
  - intros (-> & Hq & a & Ha & Ht & Hkeep).
    apply String.eqb_neq in Hq as ->. cbn [orb].
    rewrite bool_decide_false by (intros ->; by apply elem_of_nil in Ha).
    destruct (PyFacts.keys_of_raise sort_key_of (candidates query all_anime)) as [e He].
    + intros Hok. rewrite Forall_forall in Hok.
      destruct (Hok (annotate query a)) as [k Hk].
      * apply SearchFacts.candidates_spec. by exists a.
      * unfold sort_key_of in Hk. cbn [sr_anime Index.annotate] in Hk. by rewrite Ht in Hk.
    + unfold Py.sort_key. rewrite He. f_equal.
      apply keys_of_Raise in He as (r & _ & Hr). unfold sort_key_of in Hr.
      destruct (a_title (sr_anime r)); congruence.
Qed.

End Facts.

Definition nameless : anime := Anime (Some "4") None (Some []).

(** The character U+9032, in the three bytes of its UTF-8 form: it is
    not white space, it has no case and no decomposition, and the ASCII
    encoding drops it. *)
Definition folded_term : string :=
  String (ascii_of_N 233) (String (ascii_of_N 128) (String (ascii_of_N 178) "")).

Lemma search_anime_ranked_witness :
  ∃ results,
    Backend.search_anime Py.strip Samples.ascii_lower Samples.ascii_only
      Samples.equal_ratio [Samples.naruto_1; Samples.naruto_2] "naruto" = Py.Ok results
    ∧ (length results ≤ 20)%nat.
Proof.
  destruct (search_anime_ranked Py.strip Samples.ascii_lower Samples.ascii_only
              Samples.equal_ratio SearchFacts.equal_ratio_range [Samples.naruto_1; Samples.naruto_2] "naruto")
    as (results & Hres & Hlen & _).
  - repeat constructor; by eexists.
  - by exists results.
Defined.

Lemma search_term_folded_away_witness :
  ∃ matches,
    Backend.search_anime Py.strip Samples.ascii_lower Samples.ascii_only
      Samples.equal_ratio [Samples.naruto_1; Samples.naruto_2] folded_term
    = Py.Ok (take 20 matches)
    ∧ length matches = 2%nat.
Proof.
  destruct (search_term_folded_away Py.strip Samples.ascii_lower Samples.ascii_only
              Samples.equal_ratio eq_refl [Samples.naruto_1; Samples.naruto_2] folded_term)
    as (matches & Hres & Hperm & _).
  - by vm_compute.
  - by vm_compute.
  - repeat constructor; by eexists.
  - exists matches. split; [done|]. by rewrite (Permutation_length Hperm).
Defined.

Lemma flexible_search_raises_on_untitled_witness :
  Index.flexible_search Samples.ascii_lower Samples.ascii_only Samples.equal_ratio
    [Samples.naruto_1; nameless] folded_term 20
  = Py.Raise (Py.KeyError "title").
Proof.
  apply (flexible_search_raises_on_untitled Samples.ascii_lower Samples.ascii_only
           Samples.equal_ratio [Samples.naruto_1; nameless] folded_term 20).
  split; [done|]. split; [done|]. exists nameless.
  split; [right; left|]. split; [done|]. by vm_compute.
Defined.

End RankFacts.

(** * What the reordering by [get_next_episode] leaves alone *)

Module ReorderFacts.

Import Index.

(** Two catalogue records that differ by the order of their episodes at
    most. *)
Definition same_but_order (a a' : anime) : Prop :=
  a_id a = a_id a' ∧ a_title a = a_title a'
  ∧ match a_episodes a, a_episodes a' with
    | Some eps, Some eps' => eps ≡ₚ eps'
    | None, None => True
    | _, _ => False
    end.

Lemma same_but_order_refl a : same_but_order a a.
Proof. unfold same_but_order. by destruct (a_episodes a). Qed.

(** A sort of a list that is in order already changes nothing. *)
Lemma sort_by_sorted {A K : Type} (lt : K → K → bool) (key : A → K) (l : list A) :
  Sorted (PyFacts.in_order lt key) l → Py.sort_by lt key l = l.
Proof.
  induction 1 as [|x l _ IH Hhd]; [done|].
  cbn. fold (Py.sort_by lt key l). rewrite IH.
  destruct Hhd as [|y l Hxy]; [done|]. cbn [Py.insert_by].
  unfold PyFacts.in_order in Hxy. by rewrite Hxy.
Qed.

Lemma sort_episodes_idemp eps : sort_episodes (sort_episodes eps) = sort_episodes eps.
Proof.
  destruct (decide (Forall IndexFacts.numeric eps)) as [Hn|Hn].
  - rewrite (IndexFacts.sort_episodes_numeric eps) by done.
    rewrite IndexFacts.sort_episodes_numeric
      by (by rewrite PyFacts.sort_by_Permutation).
    apply sort_by_sorted, PyFacts.sort_by_Sorted. intros a b H%Z.ltb_lt. apply Z.ltb_ge. lia.
  - by rewrite !(IndexFacts.sort_episodes_not_numeric eps).
Qed.

(** The first match of a test that two lists agree on position by
    position sits at the same position in both. *)
Lemma list_find_related {A : Type} (R : relation A) (P : A → Prop)
  `{!∀ x, Decision (P x)} (l l' : list A) :
  (∀ x y, R x y → (P x ↔ P y)) →
  Forall2 R l l' →
  match list_find P l, list_find P l' with
  | Some (i, x), Some (j, y) => i = j ∧ R x y
  | None, None => True
  | _, _ => False
  end.
Proof.
  intros HR. induction 1 as [|x y l l' Hxy _ IH]; cbn; [done|].
  destruct (decide (P x)) as [Hx|Hx].
  - by rewrite decide_True by (by apply (HR x y)).
  - rewrite decide_False by (by rewrite <- (HR x y)).
    destruct (list_find P l) as [[i a]|], (list_find P l') as [[j b]|]; cbn; try done.
    destruct IH as [-> ?]. done.
Qed.

(** The first match of a test that one element at most passes does not
    depend on the order. *)
Lemma list_find_unique {A : Type} (P : A → Prop) `{!∀ x, Decision (P x)} (l l' : list A) :
  l ≡ₚ l' →
  (∀ x y, x ∈ l → y ∈ l → P x → P y → x = y) →
  snd <$> list_find P l = snd <$> list_find P l'.
Proof.
  intros Hperm Huniq.
  destruct (list_find P l) as [[i x]|] eqn:Hl, (list_find P l') as [[j y]|] eqn:Hl'; cbn.
  - apply list_find_Some in Hl as (Hx%list_elem_of_lookup_2 & HPx & _).
    apply list_find_Some in Hl' as (Hy%list_elem_of_lookup_2 & HPy & _).
    f_equal. apply Huniq; try done. by rewrite Hperm.
  - apply list_find_Some in Hl as (Hx%list_elem_of_lookup_2 & HPx & _).
    apply list_find_None in Hl'. rewrite Forall_forall in Hl'.
    destruct (Hl' x); [by rewrite <- Hperm|done].
  - apply list_find_Some in Hl' as (Hy%list_elem_of_lookup_2 & HPy & _).
    apply list_find_None in Hl. rewrite Forall_forall in Hl.
    destruct (Hl y); [by rewrite Hperm|done].
  - done.
Qed.

Lemma get_next_episode_store all_anime anime_id current_session :
  Forall2 same_but_order all_anime (get_next_episode all_anime anime_id current_session).2.
Proof.
  unfold get_next_episode.
  destruct (list_find _ _) as [[i a]|] eqn:Hf; cbn [snd].
  2:{ apply Forall_Forall2_diag, Forall_forall. intros. apply same_but_order_refl. }
  destruct (a_episodes a) as [eps|] eqn:He; cbn [snd].
  2:{ apply Forall_Forall2_diag, Forall_forall. intros. apply same_but_order_refl. }
  apply list_find_Some in Hf as (Hi & _).
  rewrite <- (list_insert_id all_anime i a) at 1 by done.
  apply Forall2_insert.
  - apply Forall_Forall2_diag, Forall_forall. intros. apply same_but_order_refl.
  - unfold same_but_order. cbn. rewrite He. split; [done|]. split; [done|].
    symmetry. apply IndexFacts.sort_episodes_Permutation.
Qed.

(** At most one episode of the anime carries the id. *)
Definition unique_session (all_anime : store) (anime_id session : string) : Prop :=
  ∀ a eps x y,
    get_anime_by_id all_anime anime_id = Some a → a_episodes a = Some eps →
    x ∈ eps → y ∈ eps → has_session session x → has_session session y → x = y.

(** X20. A call of [get_next_episode] changes the catalogue by the order
    of episodes at most: the records keep their place, their id and their
    title, and each keeps the same episodes.  A second call, for any
    episode of the same anime, leaves the catalogue as the first one left
    it.  And [get_episode] answers as before for every episode id that
    one episode at most of its anime carries. *)
Theorem get_next_episode_only_reorders (all_anime : store)
  (anime_id current_session : string) :
  let after := (get_next_episode all_anime anime_id current_session).2 in
  Forall2 same_but_order all_anime after
  ∧ (∀ session, (get_next_episode after anime_id session).2 = after)
  ∧ (∀ id session,
       unique_session all_anime id session →
       get_episode after id session = get_episode all_anime id session).
Proof.
  cbv zeta. pose proof (get_next_episode_store all_anime anime_id current_session) as Hst.
  split; [done|]. split.
  - intros session. clear Hst. unfold get_next_episode.
    destruct (list_find (has_id anime_id) all_anime) as [[i a]|] eqn:Hf; cbn [snd].
    2:{ by rewrite Hf. }
    destruct (a_episodes a) as [eps|] eqn:He; cbn [snd].
    2:{ by rewrite Hf, He. }
    apply list_find_Some in Hf as (Hi & Ha & Hfirst).
    assert (list_find (has_id anime_id)
              (<[i:=Anime (a_id a) (a_title a) (Some (sort_episodes eps))]> all_anime)
            = Some (i, Anime (a_id a) (a_title a) (Some (sort_episodes eps)))) as ->.
    { apply list_find_Some. split; [|split].
      - apply list_lookup_insert_eq. by eapply lookup_lt_Some.
      - done.
      - intros j y Hj Hlt. unfold store in *.
        rewrite list_lookup_insert_ne in Hj by lia. by eapply Hfirst. }
    cbn [a_episodes a_id a_title snd]. rewrite sort_episodes_idemp.
    unfold store in *. by rewrite list_insert_insert_eq.
  - intros id session Huniq. unfold get_episode, get_anime_by_id.
    pose proof (list_find_related same_but_order (has_id id) _ _
                  (λ x y (H : same_but_order x y),
                     ltac:(unfold has_id; destruct H as [-> _]; done)) Hst) as Hrel.
    destruct (list_find (has_id id) all_anime) as [[i a]|] eqn:Hf,
             (list_find (has_id id) (get_next_episode all_anime anime_id current_session).2)
               as [[j a']|]; try done; cbn [fmap option_fmap option_map snd].
    cbn in Hrel. destruct Hrel as [_ Hsame]. unfold same_but_order in Hsame.
    destruct Hsame as (_ & _ & Heps).
    destruct (a_episodes a) as [eps|] eqn:He, (a_episodes a') as [eps'|]; try done.
    symmetry. apply list_find_unique; [done|].
    intros x y Hx Hy. apply (Huniq a eps); try done.
    unfold get_anime_by_id. by rewrite Hf.
Qed.

End ReorderFacts.

(** * The iframe resolver and its cache, call after call *)

Module ReplayFacts.

Import Cache Backend.

Ltac run_M :=
  cbv [mbind M_bind mret M_ret emit cache_get cache_set read_manager write_manager
       store_success store_failure];
  cbn [fst snd log manager_of].

Lemma get_set_episode_iframe e m anime_id session url ok :
  Cache.get_episode_iframe (set_episode_iframe e m anime_id session url ok) anime_id session
  = Some (IframeEntry url (TsAt (now e)) ok).
Proof.
  unfold set_episode_iframe, Cache.get_episode_iframe.
  rewrite CacheMoreFacts.save_cache_data. cbn. rewrite lookup_insert_eq. cbn.
  by rewrite lookup_insert_eq.
Qed.

Section Facts.
Variable e : env.
Variable visit : browser.

(** The two ways a scrape ends. *)
Definition ends (anime_id session : string) (c : M iframe_data) : Prop :=
  (∃ url, url ≠ "" ∧ c = store_success e anime_id session url)
  ∨ (∃ msg, c = store_failure e anime_id session msg).

Lemma extract_ends anime_id session p : ends anime_id session (extract e anime_id session p).
Proof.
  unfold extract, ends.
  destruct (found_directly p) as [u1| |?];
    [destruct (String.eqb_spec u1 "")| |]; try (by eauto);
  (destruct (found_in_javascript p) as [u2|];
    [destruct (String.eqb_spec u2 "")|]; try (by eauto));
  (destruct (found_dynamic p) as [u3| |?];
    [destruct (String.eqb_spec u3 "")| |]; try (by eauto));
  (destruct (found_after_interaction p) as [u4| |?];
    [destruct (String.eqb_spec u4 "")| |]; by eauto).
Qed.

(** What a scrape leaves: one visit, one write, and an entry that says
    what the call returns. *)
Definition recorded (anime_id session : string) (out : iframe_data * world) : Prop :=
  (∃ entry,
     Cache.get_episode_iframe (manager_of out.2) anime_id session = Some entry
     ∧ ie_success entry = success out.1 ∧ ie_iframe_url entry = iframe_url out.1)
  ∧ match iframe_url out.1 with
    | Some url => url ≠ "" ∧ success out.1 = true ∧ error out.1 = None
    | None => success out.1 = false ∧ is_Some (error out.1)
    end.

Lemma ends_recorded anime_id session c w :
  ends anime_id session c → recorded anime_id session (c w).
Proof.
  intros [(url & Hurl & ->)|(msg & ->)]; unfold recorded; run_M;
    rewrite get_set_episode_iframe; (split; [by eexists|done]).
Qed.

Lemma scrape_recorded anime_id session w :
  recorded anime_id session (scrape e visit anime_id session w).
Proof.
  unfold scrape.
  set (url := base_url +:+ "/play/" +:+ anime_id +:+ "/" +:+ session).
  change (recorded anime_id session
            ((match visit url with
              | LoadFailed msg => store_failure e anime_id session msg
              | Loaded p =>
                  if Py.contains "404" (actual_title p)
                     || Py.contains "Not Found" (actual_title p)
                  then store_failure e anime_id session
                         ("Episode page not found (404): " +:+ url)
                  else extract e anime_id session p
              end) (World (manager_of w) (log w ++ [PageVisit url])))).
  apply ends_recorded. destruct (visit url) as [msg|p].
  - right. by eexists.
  - destruct (_ || _); [right; by eexists|apply extract_ends].
Qed.

End Facts.

(** X21. After a call of [_scrape_episode_iframe] the cache holds an
    entry for the pair, and the entry says what the call returned: the
    same URL and the same [success].  A call that succeeded is replayed:
    every later call for the pair, at any time and whatever the site
    serves, returns the same answer after one look at the cache and no
    page visit. *)
Theorem resolved_iframe_is_replayed (e : env) (visit : browser)
  (anime_id session : string) (w : world) :
  let out := _scrape_episode_iframe e visit anime_id session w in
  (∃ entry,
     Cache.get_episode_iframe (manager_of out.2) anime_id session = Some entry
     ∧ ie_success entry = success out.1 ∧ ie_iframe_url entry = iframe_url out.1)
  ∧ (success out.1 = true →
     error out.1 = None
     ∧ ∀ e' visit',
         _scrape_episode_iframe e' visit' anime_id session out.2
         = (out.1, World (manager_of out.2) (log out.2 ++ [CacheRead anime_id session]))).
Proof.
  cbv zeta.
  assert (∀ w1 entry r e' visit',
    Cache.get_episode_iframe (manager_of w1) anime_id session = Some entry →
    ie_success entry = true → r = IframeData (ie_iframe_url entry) true None →
    _scrape_episode_iframe e' visit' anime_id session w1
    = (r, World (manager_of w1) (log w1 ++ [CacheRead anime_id session]))) as Hhit.
  { intros w1 entry r e' visit' Hget Hok ->. unfold _scrape_episode_iframe. run_M.
    by rewrite Hget, Hok. }
  assert (∀ w1, recorded anime_id session (scrape e visit anime_id session w1) →
    let out := scrape e visit anime_id session w1 in
    (∃ entry,
       Cache.get_episode_iframe (manager_of out.2) anime_id session = Some entry
       ∧ ie_success entry = success out.1 ∧ ie_iframe_url entry = iframe_url out.1)
    ∧ (success out.1 = true →
       error out.1 = None
       ∧ ∀ e' visit',
           _scrape_episode_iframe e' visit' anime_id session out.2
           = (out.1, World (manager_of out.2)
                       (log out.2 ++ [CacheRead anime_id session])))) as Hscrape.
  { intros w1 [(entry & Hget & Hs & Hu) Hshape]. cbv zeta.
    split; [by exists entry|]. intros Hok.
    destruct (scrape e visit anime_id session w1) as [[u s err] w2]; cbn in *.
    destruct u as [u|]; [|destruct Hshape as [Hf _]; congruence].
    destruct Hshape as (_ & _ & ->). split; [done|]. intros e' visit'.
    apply (Hhit w2 entry); [done|congruence|]. by rewrite Hu, Hok. }
  assert (_scrape_episode_iframe e visit anime_id session w
          = let looked_up :=
              World (manager_of w) (log w ++ [CacheRead anime_id session]) in
            match Cache.get_episode_iframe (manager_of w) anime_id session with
            | Some entry =>
                if ie_success entry
                then (IframeData (ie_iframe_url entry) true None, looked_up)
                else scrape e visit anime_id session looked_up
            | None => scrape e visit anime_id session looked_up
            end) as ->.
  { unfold _scrape_episode_iframe. run_M.
    destruct (Cache.get_episode_iframe _ _ _) as [entry|]; [|done].
    by destruct (ie_success entry). }
  cbv zeta.
  destruct (Cache.get_episode_iframe (manager_of w) anime_id session) as [entry|] eqn:Hget.
  - destruct (ie_success entry) eqn:Hok.
    + cbn [fst snd manager_of log success error iframe_url].
      split; [by exists entry|].
      intros _. split; [done|]. intros e' visit'.
      by apply (Hhit (World (manager_of w) (log w ++ [CacheRead anime_id session])) entry).
    + apply Hscrape, scrape_recorded.
  - apply Hscrape, scrape_recorded.
Qed.

Lemma resolved_iframe_is_replayed_witness :
  _scrape_episode_iframe Samples.noon (λ _, LoadFailed "offline") "show" "s1"
    (_scrape_episode_iframe Samples.noon Samples.one_page_browser "show" "s1"
       (World Samples.failed_manager [])).2
  = (IframeData (Some "https://kwik.example/e/abc") true None,
     World (manager_of (_scrape_episode_iframe Samples.noon Samples.one_page_browser
                          "show" "s1" (World Samples.failed_manager [])).2)
           [CacheRead "show" "s1"; PageVisit "https://animepahe.si/play/show/s1";
            CacheWrite "show" "s1"; CacheRead "show" "s1"]).
Proof.
  destruct (resolved_iframe_is_replayed Samples.noon Samples.one_page_browser "show" "s1"
              (World Samples.failed_manager [])) as [_ Hreplay].
  destruct Hreplay as [_ Hagain]; [by vm_compute|].
  rewrite Hagain. by vm_compute.
Defined.

End ReplayFacts.

(** * The fallback listing *)

Module FallbackFacts.

Import Index Backend.

Lemma omap_sublist {A B : Type} (f : A → option B) (g : B → A) (l : list A) :
  (∀ x y, f x = Some y → g y = x) → sublist (g <$> omap f l) l.
Proof.
  intros Hg. induction l as [|x l IH]; cbn; [done|].
  destruct (f x) as [y|] eqn:Hx; cbn.
  - rewrite (Hg x y Hx). by apply sublist_skip.
  - by apply sublist_cons.
Qed.

(** X22. [get_fallback_episodes] gives one row for each of the first ten
    names of its list that occurs, whatever the case, in a title of the
    catalogue, in the order of the list, and no other row: ten rows at
    most, none on an empty catalogue.  A row stands for the first record
    whose title holds the name; it carries episode number 1 and the
    session id ["fallback123"], and its URL is the page of the anime, not
    of an episode. *)
Theorem get_fallback_episodes_first_matches (all_anime : store) :
  let rows := get_fallback_episodes all_anime in
  sublist (ae_anime_name <$> rows) (take 10 popular_ongoing)
  ∧ (length rows ≤ 10)%nat
  ∧ (∀ name, name ∈ take 10 popular_ongoing →
       name ∈ ae_anime_name <$> rows ↔ ∃ a, a ∈ all_anime ∧ named name a)
  ∧ Forall (λ row,
       ∃ i a, list_find (named (ae_anime_name row)) all_anime = Some (i, a)
              ∧ row = fallback_episode (ae_anime_name row) a
              ∧ ae_episode_number row = 1 ∧ ae_session_id row = "fallback123"
              ∧ ae_episode_url row = base_url +:+ "/anime/" +:+ ae_anime_id row) rows
  ∧ (all_anime = [] → rows = []).
Proof.
  cbv zeta. unfold get_fallback_episodes.
  set (f := λ name, fallback_episode name <$> (snd <$> list_find (named name) all_anime)).
  assert (∀ name row, f name = Some row → ae_anime_name row = name) as Hname.
  { intros name row. unfold f. destruct (list_find _ _) as [[i a]|]; [|done].
    by intros [= <-]. }
  assert (sublist (ae_anime_name <$> omap f (take 10 popular_ongoing))
                  (take 10 popular_ongoing)) as Hsub by (by apply omap_sublist).
  split; [done|]. split; [|split; [|split]].
  - apply sublist_length in Hsub. by rewrite length_fmap in Hsub.
  - intros name Hin. rewrite list_elem_of_fmap. split.
    + intros (row & -> & (n & Hn & Hrow)%list_elem_of_omap).
      rewrite (Hname _ _ Hrow). unfold f in Hrow.
      destruct (list_find (named n) all_anime) as [[i a]|] eqn:Hf; [|done].
      apply list_find_Some in Hf as (Ha%list_elem_of_lookup_2 & Hnamed & _).
      by exists a.
    + intros (a & Ha & Hnamed).
      destruct (list_find_elem_of (named name) all_anime a Ha Hnamed) as [[i b] Hb].
      exists (fallback_episode name b). split; [done|].
      apply list_elem_of_omap. exists name. split; [done|]. unfold f. by rewrite Hb.
  - apply Forall_forall. intros row (n & Hn & Hrow)%list_elem_of_omap.
    rewrite (Hname _ _ Hrow). unfold f in Hrow.
    destruct (list_find (named n) all_anime) as [[i a]|] eqn:Hf; [|done].
    injection Hrow as <-. by exists i, a.
  - intros ->. unfold f. by vm_compute.
Qed.

End FallbackFacts.

(** * Loading the catalogue *)

Module LoadFacts.

Import Index.

(** The master index decides nothing: it is absent, or has no ["anime"]
    key. *)
Definition no_master (master_file : option json_file) : Prop :=
  master_file = None ∨ master_file = Some (Document None).

(** A file that parses and has the key. *)
Definition has_anime_key (f : json_file) : bool :=
  match f with
  | Document (Some _) => true
  | _ => false
  end.

(** X23. [load_all_anime] takes the catalogue from the master index alone
    when the master index has an ["anime"] key, whatever the other files
    hold; a master index that cannot be read leaves the catalogue empty,
    the other files being ignored just the same.  Without a deciding
    master index the catalogue is made of the records of the
    [anime_*.json] files, file after file in the order of the glob and in
    the order of each file: a record is in the catalogue exactly when a
    readable file lists it, and unreadable files, or files without the
    key, change nothing. *)
Theorem load_all_anime_sources (master_file : option json_file)
  (json_files : list json_file) :
  (∀ l, master_file = Some (Document (Some l)) →
        load_all_anime master_file json_files = l)
  ∧ (master_file = Some Unreadable → load_all_anime master_file json_files = [])
  ∧ (no_master master_file →
       (∀ a, a ∈ load_all_anime master_file json_files
             ↔ ∃ l, Document (Some l) ∈ json_files ∧ a ∈ l)
       ∧ (∀ more, load_all_anime master_file (json_files ++ more)
                  = load_all_anime master_file json_files
                    ++ load_all_anime master_file more)
       ∧ load_all_anime master_file
           (filter (λ f, has_anime_key f = true) json_files)
         = load_all_anime master_file json_files).
Proof.
  split; [by intros l ->|]. split; [by intros ->|].
  intros Hm.
  assert (∀ files, load_all_anime master_file files = mjoin (records_of <$> files)) as Hload.
  { intros files. by destruct Hm as [-> | ->]. }
  rewrite !Hload. split; [|split].
  - intros a. rewrite list_elem_of_join. split.
    + intros (l & Ha & (f & -> & Hf)%list_elem_of_fmap).
      destruct f as [|[l|]]; try (by apply elem_of_nil in Ha). by exists l.
    + intros (l & Hl & Ha). exists l. split; [done|].
      apply list_elem_of_fmap. by exists (Document (Some l)).
  - intros more. rewrite !Hload. by rewrite fmap_app, join_app.
  - induction json_files as [|f files IH]; [done|].
    destruct f as [|[l|]].
    + rewrite filter_cons_False by done. etrans; [apply IH|done].
    + rewrite filter_cons_True by done. cbn. f_equal. apply IH.
    + rewrite filter_cons_False by done. etrans; [apply IH|done].
Qed.

End LoadFacts.
